(** * BatchProcessor: a shallow embedding of src/services/BatchProcessor.ts

    The development follows the TypeScript class method by method:
    [isValidSource] and [validateSources], [processSingle] with the four
    operation providers it routes to, and the two batch entry points
    [process] and [processWithProgress] with their window loop.

    Conventions of the embedding.
    - JavaScript strings are [string]s; the functions used by the class
      ([startsWith], [includes], the extension regular expression) only
      look at ASCII characters.
    - JavaScript numbers that are counts, indices or millisecond
      differences are integers ([Z]); the quotients and products the class
      computes are doubles, values of [number]: a rational, an infinity or
      NaN, each operation rounding its exact result to the nearest
      double.
    - [concurrency] is an integer, the positive integer of the
      specification when it is at least 1.
    - Asynchrony is made explicit: a run produces the list of [Event]s in
      the order in which they happen, and the environment ([Providers],
      [Clock]) decides outcomes, measured durations and the order in
      which the dispatches of a window settle.
    - The progress callback belongs to the caller: each of its calls
      returns or throws, as the environment decides.
    - The logger has no effect on any value the class returns and is left
      out.

    The second half covers the code around the class: the loaders, the
    retrying download, the type detection and the file paths of
    [ImageUtils]; the quality search of [ImageCompressor.optimizeForWeb];
    the colour harmony of [ColorExtractor]; the palette of
    [ImageAnalyzer]; the encoders, data URLs and responsive versions of
    [FormatConverter]; and the tool handler of the server that calls
    [process]. What the network, the file system and the image libraries
    answer is a parameter of each of these models. *)

From Stdlib Require Import ZArith QArith Qround Qpower List Bool Lia Lqa.
From Stdlib Require Import Ascii String DecimalString.
From Stdlib.Strings Require Byte.
From Stdlib Require Import Permutation Sorted.
Import ListNotations.

Set Implicit Arguments.

(** ** JavaScript numbers *)

Module JS.

Inductive number : Type :=
| NaN
| PosInfinity
| NegInfinity
| Finite (q : Q).

Definition of_Z (z : Z) : number := Finite (inject_Z z).

Definition is_zero (q : Q) : bool := Qeq_bool q 0.
Definition is_neg (q : Q) : bool := negb (Qle_bool 0 q).

(** *** Doubles

    A number is a double: its value is a rational, and an operation
    returns the double nearest to the exact result, the one with the even
    significand when two are equally near, and an infinity beyond the
    largest double. *)

Definition pow2 (e : Z) : Q := (2 ^ e)%Q.

(** The integer part of the binary logarithm of [q > 0]. *)
Definition ilog2 (q : Q) : Z :=
  let l := (Z.log2 (Qnum q) - Z.log2 (Zpos (Qden q)))%Z in
  if Qle_bool (pow2 l) q then l else (l - 1)%Z.

(** The nearest integer, the even one of two that are equally near. *)
Definition rne (x : Q) : Z :=
  let f := Qfloor x in
  match (x - inject_Z f ?= 1 # 2)%Q with
  | Lt => f
  | Gt => (f + 1)%Z
  | Eq => if Z.even f then f else (f + 1)%Z
  end.

(** The nearest number with a significand of 53 bits and an exponent of
    at least -1074, for [q > 0]. *)
Definition nearest (q : Q) : Q :=
  let e := Z.max (ilog2 q - 52) (-1074) in
  (inject_Z (rne (q / pow2 e)) * pow2 e)%Q.

Definition round64 (q : Q) : number :=
  if is_zero q then Finite 0
  else if is_neg q then
    let r := nearest (- q) in
    if Qle_bool (pow2 1024) r then NegInfinity else Finite (- r)
  else
    let r := nearest q in
    if Qle_bool (pow2 1024) r then PosInfinity else Finite r.

(** [a / b] *)
Definition div (a b : number) : number :=
  match a, b with
  | NaN, _ | _, NaN => NaN
  | Finite x, Finite y =>
      if is_zero y then
        if is_zero x then NaN
        else if is_neg x then NegInfinity else PosInfinity
      else round64 (x / y)%Q
  | Finite _, _ => Finite 0
  | PosInfinity, Finite y => if is_neg y then NegInfinity else PosInfinity
  | NegInfinity, Finite y => if is_neg y then PosInfinity else NegInfinity
  | _, _ => NaN
  end.

(** [a * b] *)
Definition mul (a b : number) : number :=
  match a, b with
  | NaN, _ | _, NaN => NaN
  | Finite x, Finite y => round64 (x * y)%Q
  | Finite x, PosInfinity | PosInfinity, Finite x =>
      if is_zero x then NaN
      else if is_neg x then NegInfinity else PosInfinity
  | Finite x, NegInfinity | NegInfinity, Finite x =>
      if is_zero x then NaN
      else if is_neg x then PosInfinity else NegInfinity
  | PosInfinity, PosInfinity | NegInfinity, NegInfinity => PosInfinity
  | _, _ => NegInfinity
  end.

(** [Math.round]: the nearest integer, ties towards +Infinity. *)
Definition Math_round (a : number) : number :=
  match a with
  | Finite q => of_Z (Qfloor (q + (1 # 2))%Q)
  | other => other
  end.

(** [Array.prototype.slice(start, end)] with its treatment of negative
    and out-of-range bounds. *)
Definition slice {A : Type} (l : list A) (s e : Z) : list A :=
  let len := Z.of_nat (List.length l) in
  let k := if (s <? 0)%Z then Z.max (len + s) 0 else Z.min s len in
  let final := if (e <? 0)%Z then Z.max (len + e) 0 else Z.min e len in
  firstn (Z.to_nat (final - k)) (skipn (Z.to_nat k) l).

End JS.

(** ** Strings *)

Module Str.

Local Open Scope string_scope.

(** [s.startsWith(p)] *)
Definition startsWith (s p : string) : bool := String.prefix p s.

(** [s.includes(p)] *)
Fixpoint includes (s p : string) : bool :=
  String.prefix p s ||
  match s with
  | EmptyString => false
  | String _ rest => includes rest p
  end.

(** [s.endsWith(p)] *)
Fixpoint endsWith (s p : string) : bool :=
  String.eqb s p ||
  match s with
  | EmptyString => false
  | String _ rest => endsWith rest p
  end.

(** Case folding of the [i] flag of a regular expression without the [u]
    flag: only the ASCII letters are identified with their other case. *)
Definition lower (c : ascii) : ascii :=
  let n := nat_of_ascii c in
  if (65 <=? n)%nat && (n <=? 90)%nat then ascii_of_nat (n + 32) else c.

Fixpoint toLower (s : string) : string :=
  match s with
  | EmptyString => EmptyString
  | String c rest => String (lower c) (toLower rest)
  end.

End Str.

(** ** Source validation *)

Section Validator.

Local Open Scope string_scope.

(** The platform's URL constructor: [URL_parses s] is [true] when
    [new URL(s)] returns and [false] when it throws. *)
Variable URL_parses : string -> bool.

Definition image_extensions : list string :=
  ["jpg"; "jpeg"; "png"; "gif"; "bmp"; "webp"; "avif"; "tiff"].

(** [/\.(jpg|jpeg|png|gif|bmp|webp|avif|tiff)$/i.test(source)] *)
Definition extension_regex_test (source : string) : bool :=
  existsb (fun ext => Str.endsWith (Str.toLower source) ("." ++ ext))
          image_extensions.

Definition isValidSource (source : string) : bool :=
  if Str.startsWith source "http://" || Str.startsWith source "https://" then
    (* try { new URL(source); return true } catch { return false } *)
    if URL_parses source then true else false
  else if Str.startsWith source "data:image/" then true
  else if Str.includes source "." && extension_regex_test source then true
  else false.

(** The loop of [validateSources]; [isValidSource] never throws, so the
    [catch] branch of the loop body is never taken. *)
Definition validateSources (sources : list string) : list string * list string :=
  fold_left
    (fun acc source =>
       let '(valid, invalid) := acc in
       if isValidSource source
       then ((valid ++ [source])%list, invalid)
       else (valid, (invalid ++ [source])%list))
    sources ([], []).

(** The text after the last ['.'] of a path, when there is one: the
    suffix the validation rule speaks of. *)
Fixpoint suffix_after_last_dot (s : string) : option string :=
  match s with
  | EmptyString => None
  | String c rest =>
      match suffix_after_last_dot rest with
      | Some x => Some x
      | None => if Ascii.eqb c "." then Some rest else None
      end
  end.

(** The classification rules as the specification words them. *)
Definition classified_valid (source : string) : bool :=
  if Str.startsWith source "http://" || Str.startsWith source "https://" then
    URL_parses source
  else if Str.startsWith source "data:image/" then true
  else match suffix_after_last_dot source with
       | Some x => existsb (String.eqb (Str.toLower x)) image_extensions
       | None => false
       end.

End Validator.

(** ** Data model of the batch engine *)

(** The result of an operation provider is opaque to the class. *)
Definition Payload : Type := string.

(** [options]: the class only reads [targetFormat]; everything else is
    passed through to the provider. *)
Record Options : Type := {
  targetFormat : option string;
  passthrough : list (string * string)
}.

(** [!options.targetFormat] is [negb (truthy (targetFormat options))]: an
    absent field and the empty string are both falsy. *)
Definition truthy (v : option string) : option string :=
  match v with
  | Some s => if String.eqb s "" then None else Some s
  | None => None
  end.

(** A thrown value: an instance of [Error] with its message, or any other
    value, with its [message] property when it has one. *)
Inductive Thrown : Type :=
| ErrorObject (message : string)
| OtherValue (message : option string).

(** The element type of [BatchResult.results]. *)
Record Entry : Type := {
  source : string;
  success : bool;
  result : option Payload;
  error : option string;
  processingTime : Z
}.

Record Summary : Type := {
  totalTime : Z;
  averageTime : JS.number;
  successRate : JS.number
}.

Record BatchResult : Type := {
  totalProcessed : Z;
  successful : Z;
  failed : Z;
  results : list Entry;
  summary : Summary
}.

(** The argument of [onProgress]. *)
Record Progress : Type := {
  completed : Z;
  total : Z;
  percentage : JS.number
}.

(** The settled promise of one [processSingle] call. *)
Inductive Settled : Type :=
| Fulfilled (value : Payload) (elapsedMs : Z)
| Rejected (reason : Thrown).

(** ** Environment *)

(** A call of an operation provider. *)
Inductive Call : Type :=
| Analyze (source : string) (options : Options)
| Compress (source : string) (options : Options)
| Convert (source : string) (format : string) (options : Options)
| ExtractColors (source : string) (options : Options).

(** What the image services do is outside the class. [work k c] is what
    the body of the provider answering the [k]-th dispatch of a run does
    on call [c]: it produces a payload, or fails with the text the
    provider puts after its own prefix. [measured k] is the difference of
    the two [Date.now()] readings [processSingle] takes around the [k]-th
    dispatch. Providers always settle. *)
Record Providers : Type := {
  work : nat -> Call -> Payload + string;
  measured : nat -> Z
}.

(** [latency k] orders the settlements inside a window: of two dispatches
    of a window the one with the smaller latency settles first.
    [wallClock] is the difference of the [Date.now()] readings at both
    ends of the run. *)
Record Clock : Type := {
  latency : nat -> nat;
  wallClock : Z
}.

(** What happens during a run, in order. [EvDispatch k s]: [processSingle]
    is called for [s] (the [k]-th call of the run); [EvInvoke k c]: that
    call hands [c] to a provider; [EvSettle k]: the settlement of its
    promise reaches the code awaiting it; [EvProgress p]: [onProgress(p)]
    is called; [EvDelay ms]: the loop sleeps [ms] milliseconds. *)
Inductive Event : Type :=
| EvDispatch (k : nat) (source : string)
| EvInvoke (k : nat) (c : Call)
| EvSettle (k : nat)
| EvProgress (p : Progress)
| EvDelay (ms : Z).

(** The variables of a run: the [results] array, the [completed] counter
    of [processWithProgress], the number of [processSingle] calls made so
    far, the number of loop iterations made so far, and the events so
    far. *)
Record State : Type := {
  st_results : list Entry;
  st_completed : Z;
  st_issued : nat;
  st_windows : nat;
  st_trace : list Event
}.

Definition initial : State :=
  {| st_results := []; st_completed := 0; st_issued := 0;
     st_windows := 0; st_trace := [] |}.

(** ** The batch engine *)

Section Engine.

Local Open Scope string_scope.
Local Open Scope Z_scope.

Variable P : Providers.
Variable C : Clock.

(** The four providers: each wraps the failure of its body in a new
    [Error] whose message starts with the provider's own prefix. *)
Definition rethrow (prefix : string) (r : Payload + string) : Payload + Thrown :=
  match r with
  | inl value => inl value
  | inr detail => inr (ErrorObject (prefix ++ detail))
  end.

Definition analyze (k : nat) (source : string) (options : Options) :=
  rethrow "Image analysis failed: " (work P k (Analyze source options)).

Definition compress (k : nat) (source : string) (options : Options) :=
  rethrow "Image compression failed: " (work P k (Compress source options)).

Definition convert (k : nat) (source format : string) (options : Options) :=
  rethrow "Format conversion failed: " (work P k (Convert source format options)).

Definition extract (k : nat) (source : string) (options : Options) :=
  rethrow "Color extraction failed: " (work P k (ExtractColors source options)).

(** [processSingle]: the events of the call and its settled promise. The
    [catch] block logs and rethrows the error unchanged. *)
Definition awaited (k : nat) (c : Call) (r : Payload + Thrown) : list Event * Settled :=
  ([EvInvoke k c],
   match r with
   | inl value => Fulfilled value (measured P k)
   | inr err => Rejected err
   end).

Definition processSingle (k : nat) (source operation : string) (options : Options)
  : list Event * Settled :=
  if String.eqb operation "analyze" then
    awaited k (Analyze source options) (analyze k source options)
  else if String.eqb operation "compress" then
    awaited k (Compress source options) (compress k source options)
  else if String.eqb operation "convert" then
    match truthy (targetFormat options) with
    | None =>
        ([], Rejected (ErrorObject "targetFormat is required for convert operation"))
    | Some format =>
        awaited k (Convert source format options) (convert k source format options)
    end
  else if String.eqb operation "extract_colors" then
    awaited k (ExtractColors source options) (extract k source options)
  else
    ([], Rejected (ErrorObject ("Unsupported operation: " ++ operation))).

(** [batch.map(source => this.processSingle(source, operation, options))]:
    the calls are made in the order of the batch. *)
Fixpoint dispatch (k : nat) (batch : list string) (operation : string)
         (options : Options) : list Event * list Settled :=
  match batch with
  | [] => ([], [])
  | source :: rest =>
      let '(ev, settled) := processSingle k source operation options in
      let '(evs, others) := dispatch (S k) rest operation options in
      ((EvDispatch k source :: ev ++ evs)%list, settled :: others)
  end.

(** The order in which the dispatches [ks] of a window settle. *)
Fixpoint settles_before (k : nat) (order : list nat) : list nat :=
  match order with
  | [] => [k]
  | x :: rest =>
      if (latency C k <=? latency C x)%nat then k :: order
      else x :: settles_before k rest
  end.

Definition settle_order (ks : list nat) : list nat :=
  fold_right settles_before [] ks.

(** [result.reason?.message || 'Unknown error'] *)
Definition reason_message (reason : Thrown) : string :=
  match reason with
  | ErrorObject m | OtherValue (Some m) =>
      if String.eqb m "" then "Unknown error" else m
  | OtherValue None => "Unknown error"
  end.

(** [error instanceof Error ? error.message : 'Unknown error'] *)
Definition caught_message (err : Thrown) : string :=
  match err with
  | ErrorObject m => m
  | OtherValue _ => "Unknown error"
  end.

Definition entry_of (message_of : Thrown -> string) (src : string) (s : Settled) : Entry :=
  match s with
  | Fulfilled value ms =>
      {| source := src; success := true; result := Some value;
         error := None; processingTime := ms |}
  | Rejected reason =>
      {| source := src; success := false; result := None;
         error := Some (message_of reason); processingTime := 0 |}
  end.

(** The body of [batchResults.forEach] in [process]. *)
Definition settled_entry : string -> Settled -> Entry := entry_of reason_message.

(** The value returned by the [try]/[catch] of [processWithProgress]. *)
Definition caught_entry : string -> Settled -> Entry := entry_of caught_message.

(** One iteration of the loop of [process], up to the delay:
    [Promise.allSettled] resumes the loop once every promise of the batch
    has settled, and [forEach] pushes the entries in batch order. *)
Definition process_window (operation : string) (options : Options)
           (st : State) (batch : list string) : State :=
  let '(ev, settled) := dispatch (st_issued st) batch operation options in
  let ks := seq (st_issued st) (List.length batch) in
  {| st_results :=
       (st_results st
        ++ map (fun sr => settled_entry (fst sr) (snd sr)) (combine batch settled))%list;
     st_completed := st_completed st;
     st_issued := (st_issued st + List.length batch)%nat;
     st_windows := S (st_windows st);
     st_trace := (st_trace st ++ ev ++ map EvSettle (settle_order ks))%list |}.

(** What the callback of [batch.map] in [processWithProgress] does when
    the dispatch it awaits settles and [onProgress], when given, returns:
    both branches increment [completed] and report it. [onProgress]
    tells whether a callback was given. What happens when the callback
    throws is [attend] below, of which this is the case of a callback
    that returns ([callback_returns]). *)
Definition notify (n : Z) (onProgress : bool) (acc : Z * list Event) (k : nat)
  : Z * list Event :=
  let completed' := fst acc + 1 in
  (completed',
   (snd acc
    ++ EvSettle k
       :: (if onProgress
           then [EvProgress
                   {| completed := completed';
                      total := n;
                      percentage :=
                        JS.Math_round
                          (JS.mul (JS.div (JS.of_Z completed') (JS.of_Z n))
                                  (JS.of_Z 100)) |}]
           else []))%list).

(** One iteration of the loop of [processWithProgress], up to the delay:
    the callbacks run in settlement order, [Promise.all] returns their
    values in batch order. *)
Definition progress_window (n : Z) (onProgress : bool) (operation : string)
           (options : Options) (st : State) (batch : list string) : State :=
  let '(ev, settled) := dispatch (st_issued st) batch operation options in
  let ks := seq (st_issued st) (List.length batch) in
  let '(completed', evs) :=
    fold_left (notify n onProgress) (settle_order ks) (st_completed st, []) in
  {| st_results :=
       (st_results st
        ++ map (fun sr => caught_entry (fst sr) (snd sr)) (combine batch settled))%list;
     st_completed := completed';
     st_issued := (st_issued st + List.length batch)%nat;
     st_windows := S (st_windows st);
     st_trace := (st_trace st ++ ev ++ evs)%list |}.

(** [await new Promise(resolve => setTimeout(resolve, 100))] *)
Definition delay (st : State) : State :=
  {| st_results := st_results st;
     st_completed := st_completed st;
     st_issued := st_issued st;
     st_windows := st_windows st;
     st_trace := (st_trace st ++ [EvDelay 100])%list |}.

(** [for (let i = 0; i < sources.length; i += concurrency) { ... }], the
    loop both entry points are built on. The loop has no bound of its
    own: [fuel] bounds the number of times its test is evaluated, and
    [None] means the bound was reached. *)
Fixpoint window_loop (window : State -> list string -> State)
         (sources : list string) (concurrency : Z)
         (fuel : nat) (i : Z) (st : State) : option State :=
  match fuel with
  | O => None
  | S fuel' =>
      if i <? Z.of_nat (List.length sources) then
        let batch := JS.slice sources i (i + concurrency) in
        let st1 := window st batch in
        let st2 :=
          if i + concurrency <? Z.of_nat (List.length sources)
          then delay st1 else st1 in
        window_loop window sources concurrency fuel' (i + concurrency) st2
      else Some st
  end.

(** The statistics computed after the loop, the same in both entry
    points. *)
Definition aggregate (rs : list Entry) (elapsed : Z) : BatchResult :=
  let successful := Z.of_nat (List.length (filter success rs)) in
  let failed := Z.of_nat (List.length rs) - successful in
  let averageTime :=
    if 0 <? successful
    then JS.div
           (JS.of_Z (fold_left (fun sum r => sum + processingTime r)
                               (filter success rs) 0))
           (JS.of_Z successful)
    else JS.of_Z 0 in
  {| totalProcessed := Z.of_nat (List.length rs);
     successful := successful;
     failed := failed;
     results := rs;
     summary :=
       {| totalTime := elapsed;
          averageTime := JS.Math_round averageTime;
          successRate :=
            JS.Math_round
              (JS.mul (JS.div (JS.of_Z successful)
                              (JS.of_Z (Z.of_nat (List.length rs))))
                      (JS.of_Z 100)) |} |}.

(** The run of [process]: the final state of the loop. *)
Definition process_run (fuel : nat) (sources : list string) (operation : string)
           (options : Options) (concurrency : Z) : option State :=
  window_loop (process_window operation options) sources concurrency fuel 0 initial.

Definition process (fuel : nat) (sources : list string) (operation : string)
           (options : Options) (concurrency : Z) : option BatchResult :=
  option_map (fun st => aggregate (st_results st) (wallClock C))
             (process_run fuel sources operation options concurrency).

(** The run of [processWithProgress]; [onProgress] tells whether the
    optional callback was given. The callback observes the events it is
    called with and returns. *)
Definition processWithProgress_run (fuel : nat) (sources : list string)
           (operation : string) (options : Options) (concurrency : Z)
           (onProgress : bool) : option State :=
  window_loop
    (progress_window (Z.of_nat (List.length sources)) onProgress operation options)
    sources concurrency fuel 0 initial.

Definition processWithProgress (fuel : nat) (sources : list string)
           (operation : string) (options : Options) (concurrency : Z)
           (onProgress : bool) : option BatchResult :=
  option_map (fun st => aggregate (st_results st) (wallClock C))
             (processWithProgress_run fuel sources operation options
                                      concurrency onProgress).

(** *** [processWithProgress] with a callback that may throw

    [onProgress] is called inside the [try] of the callback of
    [batch.map], so what it throws is caught like a failure of
    [processSingle]: the [catch] counts the item and reports it a second
    time. What [onProgress] throws in the [catch] rejects the promise of
    the item and, through [Promise.all], the run. *)

(** The callback: [behaviour i p] is what its [i]-th call of the run,
    made with [p], does: it returns ([None]) or throws. *)
Definition Callback : Type := nat -> Progress -> option Thrown.

Definition returning : Callback := fun _ _ => None.

(** The callback a flag stands for. *)
Definition callback_of (onProgress : bool) : option Callback :=
  if onProgress then Some returning else None.

(** [completed], the number of calls of [onProgress] made so far, and
    the events of the window so far. *)
Record Watch : Type := {
  w_completed : Z;
  w_calls : nat;
  w_events : list Event
}.

(** The promise of one callback of [batch.map]: fulfilled with an entry,
    or rejected. *)
Inductive Item : Type :=
| Kept (entry : Entry)
| Lost (reason : Thrown).

(** [completed++; if (onProgress) { onProgress({ ... }) }]: the state
    after it and what the callback threw, if it did. *)
Definition count_and_report (n : Z) (onProgress : option Callback) (w : Watch)
  : Watch * option Thrown :=
  let completed' := w_completed w + 1 in
  match onProgress with
  | None =>
      ({| w_completed := completed'; w_calls := w_calls w;
          w_events := w_events w |}, None)
  | Some behaviour =>
      let p := {| completed := completed';
                  total := n;
                  percentage :=
                    JS.Math_round
                      (JS.mul (JS.div (JS.of_Z completed') (JS.of_Z n))
                              (JS.of_Z 100)) |} in
      ({| w_completed := completed'; w_calls := S (w_calls w);
          w_events := (w_events w ++ [EvProgress p])%list |},
       behaviour (w_calls w) p)
  end.

(** The callback of [batch.map] from the moment the dispatch [k] it
    awaits settles with [s]. *)
Definition attend (n : Z) (onProgress : option Callback)
           (src : string) (s : Settled) (k : nat) (w : Watch) : Watch * Item :=
  let w0 := {| w_completed := w_completed w; w_calls := w_calls w;
               w_events := (w_events w ++ [EvSettle k])%list |} in
  match s with
  | Fulfilled _ _ =>
      let '(w1, thrown) := count_and_report n onProgress w0 in
      match thrown with
      | None => (w1, Kept (caught_entry src s))
      | Some err =>
          let '(w2, again) := count_and_report n onProgress w1 in
          match again with
          | None => (w2, Kept (caught_entry src (Rejected err)))
          | Some err' => (w2, Lost err')
          end
      end
  | Rejected _ =>
      let '(w1, thrown) := count_and_report n onProgress w0 in
      match thrown with
      | None => (w1, Kept (caught_entry src s))
      | Some err' => (w1, Lost err')
      end
  end.

(** The callbacks of a window in the order in which their dispatches
    settle; [jobs] gives each dispatch its source and settled promise. *)
Definition attend_all (n : Z) (onProgress : option Callback)
           (jobs : nat -> option (string * Settled)) (order : list nat) (w : Watch)
  : Watch * list (nat * Item) :=
  fold_left
    (fun acc k =>
       match jobs k with
       | Some (src, s) =>
           let '(w', item) := attend n onProgress src s k (fst acc) in
           (w', (snd acc ++ [(k, item)])%list)
       | None => acc
       end)
    order (w, []).

Definition item_of (items : list (nat * Item)) (k : nat) : option Item :=
  option_map snd (find (fun ki => Nat.eqb (fst ki) k) items).

(** [await Promise.all(batchPromises)]: the reason of the promise that
    rejects first, or the values in the order of the batch. *)
Definition first_lost (items : list (nat * Item)) : option Thrown :=
  match flat_map (fun ki => match snd ki with
                            | Lost reason => [reason]
                            | Kept _ => []
                            end) items with
  | reason :: _ => Some reason
  | [] => None
  end.

Definition kept_in_order (items : list (nat * Item)) (ks : list nat) : list Entry :=
  flat_map (fun k => match item_of items k with
                     | Some (Kept entry) => [entry]
                     | _ => []
                     end) ks.

(** One iteration of the loop, up to the delay. When a promise of the
    batch rejects, the run ends with its reason; the other callbacks of
    the window still run when their dispatches settle. *)
Definition watched_window (n : Z) (onProgress : option Callback) (operation : string)
           (options : Options) (st : State) (calls : nat) (batch : list string)
  : State * nat * option Thrown :=
  let '(ev, settled) := dispatch (st_issued st) batch operation options in
  let ks := seq (st_issued st) (List.length batch) in
  let jobs := fun k => nth_error (combine batch settled) (k - st_issued st) in
  let '(w, items) :=
    attend_all n onProgress jobs (settle_order ks)
               {| w_completed := st_completed st; w_calls := calls;
                  w_events := [] |} in
  ({| st_results :=
        match first_lost items with
        | None => (st_results st ++ kept_in_order items ks)%list
        | Some _ => st_results st
        end;
      st_completed := w_completed w;
      st_issued := (st_issued st + List.length batch)%nat;
      st_windows := S (st_windows st);
      st_trace := (st_trace st ++ ev ++ w_events w)%list |},
   w_calls w, first_lost items).

(** The loop of [processWithProgress]: it ends when the sources are
    used up or a window rejects. *)
Fixpoint watched_loop (n : Z) (onProgress : option Callback) (operation : string)
         (options : Options) (sources : list string) (concurrency : Z)
         (fuel : nat) (i : Z) (st : State) (calls : nat)
  : option (State * option Thrown) :=
  match fuel with
  | O => None
  | S fuel' =>
      if i <? Z.of_nat (List.length sources) then
        let batch := JS.slice sources i (i + concurrency) in
        let '(st1, calls1, rejection) :=
          watched_window n onProgress operation options st calls batch in
        match rejection with
        | Some reason => Some (st1, Some reason)
        | None =>
            let st2 :=
              if i + concurrency <? Z.of_nat (List.length sources)
              then delay st1 else st1 in
            watched_loop n onProgress operation options sources concurrency
                         fuel' (i + concurrency) st2 calls1
        end
      else Some (st, None)
  end.

(** The run with its events, and how it ends: with the result, or
    rejected with what the callback threw. *)
Definition processWithProgress_calling (fuel : nat) (sources : list string)
           (operation : string) (options : Options) (concurrency : Z)
           (onProgress : option Callback)
  : option (State * (BatchResult + Thrown)) :=
  match watched_loop (Z.of_nat (List.length sources)) onProgress operation options
                     sources concurrency fuel 0 initial 0 with
  | None => None
  | Some (st, Some reason) => Some (st, inr reason)
  | Some (st, None) =>
      Some (st, inl (aggregate (st_results st) (wallClock C)))
  end.

End Engine.

(** Rounding a quotient of integers half up, in integer arithmetic: the
    reference against which the uses of [Math.round] are compared. *)
Definition round_div (a b : Z) : Z := ((2 * a + b) / (2 * b))%Z.

(** ** Reference definitions

    The windows, the schedule and the progress reports as the
    specification describes them, against which the loop is compared. *)

(** Consecutive windows of [c] elements; the last one may be shorter.
    [fuel] bounds the number of windows. *)
Fixpoint chunks {A : Type} (fuel c : nat) (l : list A) : list (list A) :=
  match fuel with
  | O => []
  | S fuel' =>
      match l with
      | [] => []
      | _ :: _ => firstn c l :: chunks fuel' c (skipn c l)
      end
  end.

Definition windows_of {A : Type} (c : nat) (l : list A) : list (list A) :=
  chunks (List.length l) c l.

(** Window after window, with the delay between two consecutive windows
    and none after the last. *)
Fixpoint run_windows (window : State -> list string -> State)
         (ws : list (list string)) (st : State) : State :=
  match ws with
  | [] => st
  | w :: rest =>
      match rest with
      | [] => window st w
      | _ :: _ => run_windows window rest (delay (window st w))
      end
  end.

(** The events of a run made of the windows [ws], the first of which
    starts at dispatch [k]. *)
Fixpoint schedule (window_events : nat -> list string -> list Event)
         (k : nat) (ws : list (list string)) : list Event :=
  match ws with
  | [] => []
  | w :: rest =>
      window_events k w
      ++ match rest with
         | [] => []
         | _ :: _ => EvDelay 100 :: schedule window_events (k + List.length w) rest
         end
  end.

Section Reference.

Variable P : Providers.
Variable C : Clock.
Variable operation : string.
Variable options : Options.

(** The settled promises of the dispatches of [l], numbered from [k]. *)
Definition outcomes (k : nat) (l : list string) : list Settled :=
  snd (dispatch P k l operation options).

(** The entries pushed for the dispatches of [l], numbered from [k]. *)
Definition entries (f : string -> Settled -> Entry) (k : nat) (l : list string)
  : list Entry :=
  map (fun sr => f (fst sr) (snd sr)) (combine l (outcomes k l)).

(** The events of one window of [process]: its dispatches, then its
    settlements. *)
Definition process_events (k : nat) (w : list string) : list Event :=
  fst (dispatch P k w operation options)
  ++ map EvSettle (settle_order C (seq k (List.length w))).

(** The events of one window of [processWithProgress] over [n] sources:
    its dispatches, then its settlements, each followed by its report. *)
Definition progress_events (n : Z) (onProgress : bool) (k : nat) (w : list string)
  : list Event :=
  fst (dispatch P k w operation options)
  ++ snd (fold_left (notify n onProgress)
                    (settle_order C (seq k (List.length w)))
                    (Z.of_nat k, [])).

End Reference.

(** [Math.round((a / b) * 100)] *)
Definition percent (a b : Z) : JS.number :=
  JS.Math_round (JS.mul (JS.div (JS.of_Z a) (JS.of_Z b)) (JS.of_Z 100)).

(** The [j]-th report of a run over [n] sources. *)
Definition report (n : Z) (j : nat) : Progress :=
  {| completed := Z.of_nat j;
     total := n;
     percentage := percent (Z.of_nat j) n |}.

(** The reports in a list of events, and the settlements in it. *)
Definition reports (t : list Event) : list Progress :=
  flat_map (fun e => match e with EvProgress p => [p] | _ => [] end) t.

Definition settlements (t : list Event) : list nat :=
  flat_map (fun e => match e with EvSettle k => [k] | _ => [] end) t.

Definition invocations (t : list Event) : list (nat * Call) :=
  flat_map (fun e => match e with EvInvoke k c => [(k, c)] | _ => [] end) t.

Definition delays (t : list Event) : list Z :=
  flat_map (fun e => match e with EvDelay ms => [ms] | _ => [] end) t.

(** Window after window, each with the number of its first dispatch. *)
Fixpoint gather {B : Type} (f : nat -> list string -> list B)
         (k : nat) (ws : list (list string)) : list B :=
  match ws with
  | [] => []
  | w :: rest => f k w ++ gather f (k + List.length w) rest
  end.

(** [.message] of a thrown value. *)
Definition message_of (t : Thrown) : option string :=
  match t with
  | ErrorObject m => Some m
  | OtherValue m => m
  end.

Definition failure (src msg : string) : Entry :=
  {| source := src; success := false; result := None;
     error := Some msg; processingTime := 0 |}.

(** What the run records for a dispatch: the entry of its settled
    promise, or, for a dispatch that was fulfilled, a failure with the
    message of what the callback threw. *)
Definition recorded (dispatched e : Entry) : Prop :=
  e = dispatched
  \/ (success dispatched = true /\ exists msg, e = failure (source dispatched) msg).

(** [ceil(n / c)] for [c > 0]. *)
Definition ceil_div (n c : Z) : Z := ((n + c - 1) / c)%Z.

(** The sum the [reduce] of the aggregation computes, as a sum. *)
Definition total_time (rs : list Entry) : Z :=
  fold_right (fun r acc => (processingTime r + acc)%Z) 0%Z rs.

(** The durations of the dispatches that were fulfilled, in order, and
    their mean rounded half up, 0 when there is none. *)
Definition durations (settled : list Settled) : list Z :=
  flat_map (fun s => match s with
                     | Fulfilled _ ms => [ms]
                     | Rejected _ => []
                     end) settled.

Definition rounded_mean (times : list Z) : Z :=
  match times with
  | [] => 0%Z
  | _ :: _ => round_div (fold_right Z.add 0%Z times) (Z.of_nat (List.length times))
  end.

(** The invariant of a returned [BatchResult] with respect to the
    [sources] it was computed from. *)
Definition covers (sources : list string) (r : BatchResult) : Prop :=
  List.length (results r) = List.length sources
  /\ totalProcessed r = Z.of_nat (List.length (results r))
  /\ totalProcessed r = Z.of_nat (List.length sources)
  /\ (successful r + failed r = totalProcessed r)%Z
  /\ forall i, (i < List.length sources)%nat ->
       option_map source (nth_error (results r) i) = nth_error sources i.

(** The average of the aggregation, as the specification words it. *)
Definition average_over_successes (r : BatchResult) : Prop :=
  let ok := filter success (results r) in
  successful r = Z.of_nat (List.length ok)
  /\ (ok = [] -> averageTime (summary r) = JS.of_Z 0)
  /\ (ok <> [] ->
      averageTime (summary r)
      = JS.Math_round
          (JS.div (JS.of_Z (total_time ok)) (JS.of_Z (Z.of_nat (List.length ok)))))
  /\ Forall (fun e => success e = false -> processingTime e = 0%Z) (results r).

(** Two results that differ at most in [totalTime]. *)
Definition same_report (a b : BatchResult) : Prop :=
  results a = results b
  /\ totalProcessed a = totalProcessed b
  /\ successful a = successful b
  /\ failed a = failed b
  /\ averageTime (summary a) = averageTime (summary b)
  /\ successRate (summary a) = successRate (summary b).

Definition success_entry (src : string) (value : Payload) (ms : Z) : Entry :=
  {| source := src; success := true; result := Some value;
     error := None; processingTime := ms |}.

(** The settlements and the reports in a list of events, in order. *)
Definition observed (t : list Event) : list Event :=
  flat_map (fun e => match e with
                     | EvSettle _ | EvProgress _ => [e]
                     | _ => []
                     end) t.

(** The [j]-th settlement of the run, of dispatch [k], directly followed
    by the [j]-th report. *)
Definition settle_then_report (n : Z) (kj : nat * nat) : list Event :=
  [EvSettle (fst kj); EvProgress (report n (snd kj))].

(** ** A small environment to run the definitions on *)

Module Demo.

Local Open Scope string_scope.

(** The second dispatch fails, the others succeed; later dispatches of a
    window settle first. *)
Definition providers : Providers :=
  {| work := fun k _ => if Nat.eqb k 1 then inr "timeout" else inl "ok";
     measured := fun k => Z.of_nat (10 * k + 4) |}.

Definition clock : Clock :=
  {| latency := fun k => (10 - k)%nat; wallClock := 1234 |}.

Definition options : Options := {| targetFormat := None; passthrough := [] |}.

Definition sources : list string := ["a.png"; "b.png"; "c.png"].

(** A stand-in for the URL constructor: no white space in the text. *)
Definition URL_parses (s : string) : bool := negb (Str.includes s " ").

End Demo.

(** ** Measures on the events of a run *)

(** A dispatch puts one more promise in flight, a settlement takes one
    away. *)
Definition weight (e : Event) : Z :=
  match e with
  | EvDispatch _ _ => 1
  | EvSettle _ => -1
  | _ => 0
  end.

(** The number of dispatches of [t] that have not settled in [t]. *)
Definition in_flight (t : list Event) : Z :=
  fold_right (fun e acc => (weight e + acc)%Z) 0%Z t.

(** What a provider call carries. *)
Definition call_source (c : Call) : string :=
  match c with
  | Analyze s _ | Compress s _ | Convert s _ _ | ExtractColors s _ => s
  end.

Definition call_options (c : Call) : Options :=
  match c with
  | Analyze _ o | Compress _ o | Convert _ _ o | ExtractColors _ o => o
  end.

Definition call_format (c : Call) : option string :=
  match c with
  | Convert _ f _ => Some f
  | _ => None
  end.

(** The operations [processSingle] hands to a provider, with the target
    format it hands over for a conversion. *)
Definition routed (operation : string) (options : Options) : Prop :=
  operation = "analyze"%string \/ operation = "compress"%string
  \/ operation = "extract_colors"%string
  \/ (operation = "convert"%string /\ truthy (targetFormat options) <> None).

(** A success rate that is a whole percentage: 100 without a failure,
    0 without a success. *)
Definition whole_percentage (r : BatchResult) (p : Z) : Prop :=
  successRate (summary r) = JS.of_Z p
  /\ (0 <= p <= 100)%Z
  /\ (failed r = 0%Z -> p = 100%Z)
  /\ (successful r = 0%Z -> p = 0%Z).

(** The operation a provider call belongs to. *)
Definition call_operation (c : Call) : string :=
  match c with
  | Analyze _ _ => "analyze"
  | Compress _ _ => "compress"
  | Convert _ _ _ => "convert"
  | ExtractColors _ _ => "extract_colors"
  end.

(** One call per element of [l], numbered from [k]. *)
Definition numbered (mk : string -> Call) (k : nat) (l : list string)
  : list (nat * Call) :=
  map (fun ks => (fst ks, mk (snd ks))) (combine (seq k (List.length l)) l).

(** The calls [operation] and [options] ask for: each carries its source,
    the options unchanged and, for a conversion, the target format. *)
Definition faithful_calls (operation : string) (options : Options)
           (mk : string -> Call) : Prop :=
  forall s,
    call_source (mk s) = s
    /\ call_options (mk s) = options
    /\ call_operation (mk s) = operation
    /\ (call_format (mk s) <> None ->
        call_format (mk s) = targetFormat options).

(** ** ImageUtils

    The loaders every provider starts with, the retrying download and the
    detection of the image type from the first bytes. What the network,
    the file system and the libraries answer is given by a [Platform];
    the value a function throws is always an [Error], represented by its
    message. *)

Module ImageUtils.

Local Open Scope string_scope.

Definition Buffer : Type := list Byte.byte.

Definition SUPPORTED_FORMATS : list string :=
  ["image/jpeg"; "image/jpg"; "image/png"; "image/gif";
   "image/webp"; "image/avif"; "image/bmp"; "image/tiff"].

(** [SUPPORTED_FORMATS.includes(mime)] *)
Definition supported (mime : string) : bool :=
  existsb (String.eqb mime) SUPPORTED_FORMATS.

(** [http_get url]: the content type and the body axios answers with, or
    the text of what it throws; [read_file path]: what [fs.readFile]
    returns, or the text of what it throws; [mime_lookup] and [extname]:
    the functions of the mime-types and path libraries;
    [from_base64 text]: [Buffer.from(text, 'base64')]. *)
Record Platform : Type := {
  http_get : string -> (option string * Buffer) + string;
  read_file : string -> Buffer + string;
  mime_lookup : string -> option string;
  extname : string -> string;
  from_base64 : string -> Buffer
}.

(** A value in a template literal. *)
Definition shown (v : option string) : string :=
  match v with
  | Some s => s
  | None => "undefined"
  end.

Definition loadFromUrl (L : Platform) (url : string) : Buffer + string :=
  match http_get L url with
  | inl (contentType, data) =>
      if match contentType with Some ct => supported ct | None => false end
      then inl data
      else inr ("Failed to load image from URL: "
                ++ "Unsupported image format: " ++ shown contentType)
  | inr text => inr ("Failed to load image from URL: " ++ text)
  end.

Definition is_letter (c : ascii) : bool :=
  let n := nat_of_ascii c in
  ((65 <=? n)%nat && (n <=? 90)%nat) || ((97 <=? n)%nat && (n <=? 122)%nat).

(** The longest run of letters a text starts with, and what follows. *)
Fixpoint span_letters (s : string) : string * string :=
  match s with
  | EmptyString => (EmptyString, EmptyString)
  | String c rest =>
      if is_letter c
      then let '(letters, after) := span_letters rest in (String c letters, after)
      else (EmptyString, s)
  end.

Fixpoint strip_prefix (p s : string) : option string :=
  match p with
  | EmptyString => Some s
  | String a p' =>
      match s with
      | EmptyString => None
      | String b s' => if Ascii.eqb a b then strip_prefix p' s' else None
      end
  end.

(** The characters [.] does not match: LF, CR, U+2028 and U+2029 (the
    last two as their three bytes). *)
Definition has_line_terminator (s : string) : bool :=
  Str.includes s (String "010" "")
  || Str.includes s (String "013" "")
  || Str.includes s (String.string_of_list_byte [Byte.xe2; Byte.x80; Byte.xa8])
  || Str.includes s (String.string_of_list_byte [Byte.xe2; Byte.x80; Byte.xa9]).

(** [dataUrl.match(/^data:image\/([a-zA-Z]+);base64,(.+)$/)]: the two
    groups. The letters are followed by [;], which is no letter, so the
    first group is the whole run of letters. *)
Definition match_data_url (dataUrl : string) : option (string * string) :=
  match strip_prefix "data:image/" dataUrl with
  | None => None
  | Some after =>
      let '(format, after_format) := span_letters after in
      if String.eqb format "" then None
      else match strip_prefix ";base64," after_format with
           | None => None
           | Some base64Data =>
               if String.eqb base64Data "" || has_line_terminator base64Data
               then None
               else Some (format, base64Data)
           end
  end.

Definition loadFromBase64 (L : Platform) (dataUrl : string) : Buffer + string :=
  match match_data_url dataUrl with
  | None =>
      inr ("Failed to load image from base64: " ++ "Invalid base64 data URL format")
  | Some (format, base64Data) =>
      let mimeType := "image/" ++ format in
      if supported mimeType
      then inl (from_base64 L base64Data)
      else inr ("Failed to load image from base64: "
                ++ "Unsupported image format: " ++ mimeType)
  end.

Definition loadFromFile (L : Platform) (filePath : string) : Buffer + string :=
  match read_file L filePath with
  | inl buffer =>
      if match mime_lookup L filePath with
         | Some mimeType => supported mimeType
         | None => false
         end
      then inl buffer
      else inr ("Failed to load image from file: "
                ++ "Unsupported file format: " ++ extname L filePath)
  | inr text => inr ("Failed to load image from file: " ++ text)
  end.

Definition loadImage (L : Platform) (source : string) : Buffer + string :=
  if Str.startsWith source "http://" || Str.startsWith source "https://"
  then loadFromUrl L source
  else if Str.startsWith source "data:image/"
  then loadFromBase64 L source
  else loadFromFile L source.

(** [buffer[i] === value] *)
Definition byte_is (buffer : Buffer) (i : nat) (value : Byte.byte) : bool :=
  match nth_error buffer i with
  | Some b => Byte.eqb b value
  | None => false
  end.

(** [getImageInfo]: the size and the detected type. The text of the four
    bytes compared with ['WEBP'] is that text exactly when the bytes are
    its four ASCII codes. *)
Definition getImageInfo (buffer : Buffer) : Z * option string :=
  let size := Z.of_nat (List.length buffer) in
  let type :=
    if (4 <=? List.length buffer)%nat then
      let header := JS.slice buffer 0 4 in
      if byte_is header 0 Byte.xff && byte_is header 1 Byte.xd8 then Some "jpeg"
      else if byte_is header 0 Byte.x89 && byte_is header 1 Byte.x50
              && byte_is header 2 Byte.x4e && byte_is header 3 Byte.x47
      then Some "png"
      else if byte_is header 0 Byte.x47 && byte_is header 1 Byte.x49
              && byte_is header 2 Byte.x46
      then Some "gif"
      else if String.eqb (String.string_of_list_byte (JS.slice buffer 8 12)) "WEBP"
      then Some "webp"
      else None
    else None in
  (size, type).

Definition validateImageBuffer (buffer : Buffer) : bool :=
  if (List.length buffer =? 0)%nat then false
  else match snd (getImageInfo buffer) with
       | Some _ => true
       | None => false
       end.

(** What [downloadWithRetry] does, in order: the call of [loadFromUrl]
    of an attempt, and the [setTimeout] with the delay it asks for. *)
Inductive RetryEvent : Type :=
| Attempt (k : Z)
| Wait (ms : Z).

(** How [downloadWithRetry] ends: with the buffer, with the [Error] it
    builds, or with the [TypeError] of reading [message] of the
    [lastError] that was never assigned. *)
Inductive Download : Type :=
| Downloaded (buffer : Buffer)
| DownloadFailed (message : string)
| ReadOfUndefined.

(** The values of [maxRetries] for which every delay
    [Math.pow(2, attempt) * 1000] of the loop is computed exactly. *)
Definition exact_delays (maxRetries : Z) : Prop := (maxRetries <= 1015)%Z.

(** The loop of [downloadWithRetry] for an integer [maxRetries];
    [world k] is the platform as the [k]-th attempt finds it, [fuel]
    bounds the number of times the test of the loop is evaluated. *)
Fixpoint retry_loop (world : Z -> Platform) (url : string) (maxRetries : Z)
         (fuel : nat) (attempt : Z) (lastError : option string)
         (done : list RetryEvent) : option (Download * list RetryEvent) :=
  match fuel with
  | O => None
  | S fuel' =>
      if (attempt <=? maxRetries)%Z then
        match loadFromUrl (world attempt) url with
        | inl buffer => Some (Downloaded buffer, done ++ [Attempt attempt])%list
        | inr message =>
            let waited :=
              if (attempt <? maxRetries)%Z
              then [Wait (2 ^ attempt * 1000)%Z]
              else [] in
            retry_loop world url maxRetries fuel' (attempt + 1)%Z (Some message)
                       (done ++ Attempt attempt :: waited)%list
        end
      else
        Some (match lastError with
              | Some message =>
                  DownloadFailed
                    ("Failed to download after "
                     ++ NilZero.string_of_int (Z.to_int maxRetries)
                     ++ " attempts: " ++ message)
              | None => ReadOfUndefined
              end, done)
  end.

Definition downloadWithRetry (world : Z -> Platform) (url : string) (maxRetries : Z)
           (fuel : nat) : option (Download * list RetryEvent) :=
  retry_loop world url maxRetries fuel 1 None [].

End ImageUtils.

(** The providers as the services define them: each starts by loading
    the image of its source and goes on with [body] when that succeeded. *)
Definition providers_over (L : ImageUtils.Platform)
           (body : nat -> Call -> ImageUtils.Buffer -> Payload + string)
           (elapsed : nat -> Z) : Providers :=
  {| work := fun k c =>
               match ImageUtils.loadImage L (call_source c) with
               | inl buffer => body k c buffer
               | inr message => inr message
               end;
     measured := elapsed |}.

(** The prefix the provider of an operation puts before the message of
    what went wrong. *)
Definition failure_prefix (operation : string) : string :=
  if String.eqb operation "analyze" then "Image analysis failed: "
  else if String.eqb operation "compress" then "Image compression failed: "
  else if String.eqb operation "convert" then "Format conversion failed: "
  else "Color extraction failed: ".

(** [count] failed attempts from attempt [from] on, each followed by its
    wait. *)
Definition failed_attempts (from : Z) (count : nat) : list ImageUtils.RetryEvent :=
  flat_map (fun j => [ImageUtils.Attempt (from + Z.of_nat j);
                      ImageUtils.Wait (2 ^ (from + Z.of_nat j) * 1000)]%Z)
           (seq 0 count).

(** The delays asked for, added up (in milliseconds). *)
Definition waiting (t : list ImageUtils.RetryEvent) : Z :=
  fold_right (fun e acc => match e with
                           | ImageUtils.Wait ms => (ms + acc)%Z
                           | ImageUtils.Attempt _ => acc
                           end) 0%Z t.

(** A platform without network and files, which decodes every text to
    one byte. *)
Definition offline : ImageUtils.Platform :=
  {| ImageUtils.http_get := fun _ => inr "connect ECONNREFUSED"%string;
     ImageUtils.read_file := fun _ => inr "ENOENT: no such file or directory"%string;
     ImageUtils.mime_lookup := fun _ => None;
     ImageUtils.extname := fun _ => ""%string;
     ImageUtils.from_base64 := fun _ => [Byte.x89] |}.

(** A platform whose network answers every request with a one-byte PNG
    body, and a world in which only attempt [good] finds it. *)
Definition online : ImageUtils.Platform :=
  {| ImageUtils.http_get := fun _ => inl (Some "image/png"%string, [Byte.x89]);
     ImageUtils.read_file := fun _ => inr "ENOENT: no such file or directory"%string;
     ImageUtils.mime_lookup := fun _ => None;
     ImageUtils.extname := fun _ => ""%string;
     ImageUtils.from_base64 := fun _ => [Byte.x89] |}.

Definition flaky (good : Z) (attempt : Z) : ImageUtils.Platform :=
  if (attempt =? good)%Z then online else offline.

(** ** ImageCompressor.optimizeForWeb

    The search for the best WebP quality. What [loadImage] and the
    encoder answer is given: [loaded] is the outcome of the first
    [loadImage], [default_target originalSize] the value of
    [Math.min(originalSize * 0.7, 500 * 1024)], and [webp k q] what the
    [k]-th call of [compress] gets from the encoder at quality [q]: the
    size of the compressed buffer, or the message of the [Error]
    [compress] throws. *)

Module ImageCompressor.

Local Open Scope Z_scope.

(** [options.quality || 80] *)
Definition effective_quality (quality : Z) : Z :=
  if quality =? 0 then 80 else quality.

(** [!targetSize] *)
Definition falsy (targetSize : option JS.number) : bool :=
  match targetSize with
  | None | Some JS.NaN => true
  | Some (JS.Finite q) => JS.is_zero q
  | Some _ => false
  end.

(** [compressedSize <= targetSize] *)
Definition at_most (compressedSize : Z) (targetSize : JS.number) : bool :=
  match targetSize with
  | JS.Finite q => Qle_bool (inject_Z compressedSize) q
  | JS.PosInfinity => true
  | _ => false
  end.

(** What [optimizeForWeb] returns: the [quality] and [compressedSize] of
    the result of the last [compress], with the qualities tried by the
    loop and the sizes they gave. *)
Record Optimized : Type := {
  quality : Z;
  compressedSize : Z;
  probes : list (Z * Z)
}.

Inductive Outcome : Type :=
| Returned (r : Optimized)
| Threw (message : string).

Section OptimizeForWeb.

Variable loaded : ImageUtils.Buffer + string.
Variable default_target : Z -> JS.number.
Variable webp : nat -> Z -> Z + string.

(** The [quality] and [compressedSize] of the result of the [k]-th call
    of [compress] with [algorithm: 'webp']. *)
Definition compress (k : nat) (quality : Z) : (Z * Z) + string :=
  match webp k (effective_quality quality) with
  | inl size => inl (effective_quality quality, size)
  | inr message => inr message
  end.

(** The [while] loop; [fuel] bounds the number of times its test is
    evaluated. *)
Fixpoint search (targetSize : JS.number) (fuel : nat) (minQuality maxQuality : Z)
         (tried : list (Z * Z)) : option ((Z * list (Z * Z)) + string) :=
  match fuel with
  | O => None
  | S fuel' =>
      if minQuality <=? maxQuality then
        let quality := (minQuality + maxQuality) / 2 in
        match compress (List.length tried) quality with
        | inr message => Some (inr message)
        | inl (_, size) =>
            if at_most size targetSize
            then search targetSize fuel' (quality + 1) maxQuality
                        (tried ++ [(quality, size)])
            else search targetSize fuel' minQuality (quality - 1)
                        (tried ++ [(quality, size)])
        end
      else Some (inl (maxQuality, tried))
  end.

(** The target in force once the default has been applied. *)
Definition target (originalBuffer : ImageUtils.Buffer)
           (targetSize : option JS.number) : JS.number :=
  match targetSize with
  | Some given =>
      if falsy targetSize
      then default_target (Z.of_nat (List.length originalBuffer))
      else given
  | None => default_target (Z.of_nat (List.length originalBuffer))
  end.

Definition optimizeForWeb (targetSize : option JS.number) (fuel : nat)
  : option Outcome :=
  match loaded with
  | inr message => Some (Threw message)
  | inl originalBuffer =>
      match search (target originalBuffer targetSize) fuel 10 90 [] with
      | None => None
      | Some (inr message) => Some (Threw message)
      | Some (inl (maxQuality, tried)) =>
          match compress (List.length tried) maxQuality with
          | inr message => Some (Threw message)
          | inl (used, size) =>
              Some (Returned {| quality := used; compressedSize := size;
                                probes := tried |})
          end
      end
  end.

(** What the loop knows between two iterations: the qualities tried lie
    between 10 and 90 and gave the sizes recorded, the quality below
    [minQuality] was tried and met the target, the quality above
    [maxQuality] was tried and did not. *)
Definition bracketed (targetSize : JS.number) (minQuality maxQuality : Z)
           (tried : list (Z * Z)) : Prop :=
  (forall k q size, nth_error tried k = Some (q, size) ->
                    10 <= q <= 90 /\ webp k q = inl size)
  /\ (10 < minQuality ->
      exists size, In (minQuality - 1, size) tried
                   /\ at_most size targetSize = true)
  /\ (maxQuality < 90 ->
      exists size, In (maxQuality + 1, size) tried
                   /\ at_most size targetSize = false).

End OptimizeForWeb.

End ImageCompressor.

(** ** ColorExtractor.analyzeColorHarmony

    The classification of a list of colours by their hues. [hue c] is
    the [h] that [rgbToHsl] returns for the colour [c], a whole number of
    degrees. *)

Module ColorExtractor.

Local Open Scope Z_scope.

Inductive Scheme : Type :=
| monochromatic | analogous | complementary | triadic | mixed.

Inductive Temperature : Type :=
| warm | cool | neutral.

(** The test in the innermost loop of [isTriadic]. *)
Definition evenly_spaced (hi hj hk : Z) : bool :=
  let diff1 := Z.abs (hi - hj) in
  let diff2 := Z.abs (hj - hk) in
  let diff3 := Z.abs (hk - hi) in
  (Z.abs (diff1 - 120) <? 30) && (Z.abs (diff2 - 120) <? 30)
  && (Z.abs (diff3 - 120) <? 30).

(** The loops over [j > i] and [k > j] for a given [hues[i]]. *)
Fixpoint triadic_from (hi : Z) (after_i : list Z) : bool :=
  match after_i with
  | [] => false
  | hj :: after_j =>
      existsb (fun hk => evenly_spaced hi hj hk) after_j || triadic_from hi after_j
  end.

Fixpoint isTriadic (hues : list Z) : bool :=
  match hues with
  | [] => false
  | hi :: after_i => triadic_from hi after_i || isTriadic after_i
  end.

(** [Math.max(...hues)] and [Math.min(...hues)] of a list with first
    element [h]. *)
Definition Math_max (h : Z) (others : list Z) : Z := fold_right Z.max h others.
Definition Math_min (h : Z) (others : list Z) : Z := fold_right Z.min h others.

(** [Math.abs(h1 - h2) > 150 && Math.abs(h1 - h2) < 210] *)
Definition opposite (h1 h2 : Z) : bool :=
  (150 <? Z.abs (h1 - h2)) && (Z.abs (h1 - h2) <? 210).

Definition is_warm (h : Z) : bool :=
  ((0 <=? h) && (h <=? 60)) || ((300 <=? h) && (h <=? 360)).

Definition is_cool (h : Z) : bool := (180 <=? h) && (h <=? 240).

Section Harmony.

Variable Color : Type.
Variable hue : Color -> Z.

Definition scheme_of (hues : list Z) : Scheme :=
  match hues with
  | [] => mixed
  | h :: others =>
      let hueRange := Math_max h others - Math_min h others in
      if hueRange <? 30 then monochromatic
      else if hueRange <? 60 then analogous
      else if existsb (fun h1 => existsb (fun h2 => opposite h1 h2) hues) hues
      then complementary
      else if (3 <=? List.length hues)%nat && isTriadic hues then triadic
      else mixed
  end.

(** [warmColors.length > coolColors.length * 1.5], and the same the
    other way round; the products are halves of integers. *)
Definition temperature_of (colors : list Color) : Temperature :=
  let warmColors := filter (fun c => is_warm (hue c)) colors in
  let coolColors := filter (fun c => is_cool (hue c)) colors in
  let w := Z.of_nat (List.length warmColors) in
  let c := Z.of_nat (List.length coolColors) in
  if 3 * c <? 2 * w then warm
  else if 3 * w <? 2 * c then cool
  else neutral.

Definition analyzeColorHarmony (colors : list Color) : Scheme * Temperature :=
  match colors with
  | [] => (mixed, neutral)
  | _ :: _ => (scheme_of (map hue colors), temperature_of colors)
  end.

End Harmony.

End ColorExtractor.

(** ** FormatConverter

    The choice of the encoder in [convert], the data URL it returns by
    default, and the choice [convertToModernFormat] makes before it calls
    [convert]. *)

Module FormatConverter.

Local Open Scope string_scope.

(** The encoder calls of the [switch]; for ['bmp'] the image is encoded
    as PNG with the encoder's defaults. *)
Inductive Encoder : Type :=
| Jpeg | Png | Webp | Avif | Gif | PngDefaults | Tiff.

(** [targetFormat.toLowerCase()] compared with the labels of the
    [switch]: the labels are ASCII letters other than [k], which no
    other character has as its lower case. *)
Definition encoder_of (targetFormat : string) : option Encoder :=
  let label := Str.toLower targetFormat in
  if String.eqb label "jpg" || String.eqb label "jpeg" then Some Jpeg
  else if String.eqb label "png" then Some Png
  else if String.eqb label "webp" then Some Webp
  else if String.eqb label "avif" then Some Avif
  else if String.eqb label "gif" then Some Gif
  else if String.eqb label "bmp" then Some PngDefaults
  else if String.eqb label "tiff" then Some Tiff
  else None.

(** The message of the [Error] of the [default] branch. *)
Definition unsupported_target (targetFormat : string) : string :=
  "Unsupported target format: " ++ targetFormat.

(** [result.data] for the output formats other than ['buffer'] and
    ['file']; [base64] is [convertedBuffer.toString('base64')]. *)
Definition data_url (targetFormat base64 : string) : string :=
  "data:image/" ++ targetFormat ++ ";base64," ++ base64.

(** [options.quality || fallback] for a quality that is an integer or
    absent. *)
Definition quality_or (quality : option Z) (fallback : Z) : Z :=
  match quality with
  | Some q => if (q =? 0)%Z then fallback else q
  | None => fallback
  end.

(** [metadata.width || 0] *)
Definition or_zero (v : option Z) : Z :=
  match v with
  | Some n => n
  | None => 0%Z
  end.

(** The target format and the quality [convertToModernFormat] calls
    [convert] with. *)
Definition modern_choice (hasAlpha : bool) (width height quality : option Z)
  : string * Z :=
  let quality := quality_or quality 85 in
  if hasAlpha then ("webp", quality)
  else if (1000000 <? or_zero width * or_zero height)%Z
  then ("avif", Z.min quality 75)
  else ("webp", quality).

(** The encoder and the quality [convert] uses when
    [convertToModernFormat] calls it: [options.quality || 90] of the
    quality handed over. *)
Definition convertToModernFormat (hasAlpha : bool) (width height quality : option Z)
  : option Encoder * Z :=
  let '(targetFormat, chosen) := modern_choice hasAlpha width height quality in
  (encoder_of targetFormat, quality_or (Some chosen) 90).

End FormatConverter.

(** The body of [FormatConverter.convert] once the image is loaded:
    [inspect buffer] is the message of what [sharp(buffer)] and its
    [metadata()] throw, if they throw; [encode] stands for the encoder
    call and the construction of the result that follow the [switch]. *)
Definition convert_body
           (inspect : ImageUtils.Buffer -> option string)
           (encode : FormatConverter.Encoder -> ImageUtils.Buffer -> Options
                     -> Payload + string)
           (targetFormat : string) (options : Options)
           (buffer : ImageUtils.Buffer) : Payload + string :=
  match inspect buffer with
  | Some message => inr message
  | None =>
      match FormatConverter.encoder_of targetFormat with
      | None => inr (FormatConverter.unsupported_target targetFormat)
      | Some encoder => encode encoder buffer options
      end
  end.

(** The providers with the converter spelled out. *)
Definition services (L : ImageUtils.Platform)
           (inspect : ImageUtils.Buffer -> option string)
           (encode : FormatConverter.Encoder -> ImageUtils.Buffer -> Options
                     -> Payload + string)
           (others : nat -> Call -> ImageUtils.Buffer -> Payload + string)
           (elapsed : nat -> Z) : Providers :=
  providers_over L
    (fun k c buffer =>
       match c with
       | Convert _ targetFormat options =>
           convert_body inspect encode targetFormat options buffer
       | _ => others k c buffer
       end)
    elapsed.

(** [ImageUtils.saveBuffer] with a [customPath] (a text that is not
    empty): the path of the file it writes. The extension is added
    unless the path, in lower case, already ends with it; for the
    formats the services save, ASCII letters other than [k], lower case
    only matters on the ASCII letters. *)
Definition custom_file_path (customPath format : string) : string :=
  if Str.endsWith (Str.toLower customPath) ("." ++ Str.toLower format)
  then customPath
  else (customPath ++ "." ++ format)%string.

(** ** The tool server (index.ts)

    The handler of tool calls and [handleBatchProcess], the caller of
    [process]. The handler takes the arguments of a request as they
    come: they may be missing altogether, and each property may be
    missing. *)

Module Server.

Local Open Scope string_scope.

(** The two error codes the handler uses. *)
Inductive ErrorCode : Type :=
| MethodNotFound
| InternalError.

(** The arguments of a [batch_process] request: each property is
    present, of the type the tool declares, or absent. *)
Record BatchArgs : Type := {
  arg_sources : option (list string);
  arg_operation : option string;
  arg_options : option Options;
  arg_concurrency : option Z
}.

(** What the handler does with a request: it returns content with a
    text, or throws [new McpError(code, text)]. *)
Inductive Answer : Type :=
| Content (text : string)
| McpError (code : ErrorCode) (text : string).

(** [options = {}] and [concurrency = 3] of the destructuring. *)
Definition options_of (args : BatchArgs) : Options :=
  match arg_options args with
  | Some options => options
  | None => {| targetFormat := None; passthrough := [] |}
  end.

Definition concurrency_of (args : BatchArgs) : Z :=
  match arg_concurrency args with
  | Some concurrency => concurrency
  | None => 3%Z
  end.

(** An operation that is absent matches no case of [processSingle] and
    is printed as [undefined] in its message, like the text
    ['undefined']. *)
Definition operation_of (args : BatchArgs) : string :=
  match arg_operation args with
  | Some operation => operation
  | None => "undefined"
  end.

(** The names of the tools that work on one image. *)
Definition single_image_tools : list string :=
  ["analyze_image"; "compress_image"; "convert_format"; "extract_colors"].

Section Handlers.

Variable P : Providers.
Variable C : Clock.

(** [stringify r] is [JSON.stringify(r, null, 2)]; [mcp_message code text]
    is the [message] of [new McpError(code, text)]; [single name] is what
    the handler of a single-image tool does with the arguments of the
    request: the text it answers with, or
    [error instanceof Error ? error.message : String(error)] of what it
    throws. [no_arguments] and [no_sources] are the messages of the
    [TypeError]s of destructuring [undefined] and of reading [length] of
    [undefined]. *)
Variable stringify : BatchResult -> string.
Variable mcp_message : ErrorCode -> string -> string.
Variable single : string -> string + string.
Variable no_arguments : string.
Variable no_sources : string.

(** [handleBatchProcess]: the text of the content, or the message of
    what is thrown. Without [sources] the first statement of [process],
    which reads [sources.length], throws. *)
Definition handleBatchProcess (fuel : nat) (args : option BatchArgs)
  : option (string + string) :=
  match args with
  | None => Some (inr no_arguments)
  | Some present =>
      match arg_sources present with
      | None => Some (inr no_sources)
      | Some sources =>
          option_map (fun r => inl (stringify r))
                     (process P C fuel sources (operation_of present)
                              (options_of present) (concurrency_of present))
      end
  end.

(** The [catch] of the handler. *)
Definition tool_failed (detail : string) : Answer :=
  McpError InternalError ("工具执行失败: " ++ detail).

Definition answer (outcome : string + string) : Answer :=
  match outcome with
  | inl text => Content text
  | inr detail => tool_failed detail
  end.

Definition CallTool (fuel : nat) (name : string) (args : option BatchArgs)
  : option Answer :=
  if existsb (String.eqb name) single_image_tools then
    Some (answer (single name))
  else if String.eqb name "batch_process" then
    option_map answer (handleBatchProcess fuel args)
  else
    Some (tool_failed (mcp_message MethodNotFound ("未知或不支持的工具: " ++ name))).

End Handlers.

End Server.

(** ** FormatConverter.createResponsiveVersions

    One version per width that can be made. [this_convert] is the
    [convert] of the converter, [resize buffer width] what the resizing
    and WebP encoding of [buffer] give, or the message of what they
    throw, and [to_base64] is [buffer.toString('base64')]. A version is
    the width put into the result and the result of [convert]. *)

Section Responsive.

Variable this_convert : string -> string -> Options -> Payload + Thrown.
Variable L : ImageUtils.Platform.
Variable resize : ImageUtils.Buffer -> Z -> ImageUtils.Buffer + string.
Variable to_base64 : ImageUtils.Buffer -> string.

(** [{ quality: 85, outputFormat: 'base64' }] *)
Definition responsive_options : Options :=
  {| targetFormat := None;
     passthrough := [("quality", "85"); ("outputFormat", "base64")]%string |}.

(** The body of the loop: what it pushes for [width]. Whatever is thrown
    inside is caught and logged. *)
Definition responsive_version (source : string) (width : Z) : list (Z * Payload) :=
  match ImageUtils.loadImage L source with
  | inr _ => []
  | inl originalBuffer =>
      match resize originalBuffer width with
      | inr _ => []
      | inl resizedBuffer =>
          match this_convert (FormatConverter.data_url "webp" (to_base64 resizedBuffer))
                             "webp" responsive_options with
          | inl result => [(width, result)]
          | inr _ => []
          end
      end
  end.

Definition createResponsiveVersions (source : string) (sizes : list Z)
  : list (Z * Payload) :=
  flat_map (responsive_version source) sizes.

End Responsive.

(** The versions made directly from the resized buffers. *)
Definition direct_versions
           (inspect : ImageUtils.Buffer -> option string)
           (encode : FormatConverter.Encoder -> ImageUtils.Buffer -> Options
                     -> Payload + string)
           (resize : ImageUtils.Buffer -> Z -> ImageUtils.Buffer + string)
           (originalBuffer : ImageUtils.Buffer) (sizes : list Z)
  : list (Z * Payload) :=
  flat_map (fun width =>
              match resize originalBuffer width with
              | inr _ => []
              | inl resizedBuffer =>
                  match convert_body inspect encode "webp" responsive_options
                                     resizedBuffer with
                  | inl result => [(width, result)]
                  | inr _ => []
                  end
              end) sizes.

(** ** ImageAnalyzer: the palette

    [extractPalette] over the raw bytes of the reduced image, and
    [analyzeColors], which calls it. *)

Module ImageAnalyzer.

Local Open Scope string_scope.

(** [n.toString(16).padStart(2, '0')] for a byte. *)
Definition hex_digit (d : N) : ascii :=
  match String.get (N.to_nat d) "0123456789abcdef" with
  | Some c => c
  | None => "0"%char
  end.

Definition hex2 (b : Byte.byte) : string :=
  let n := Byte.to_N b in
  String (hex_digit (n / 16)) (String (hex_digit (n mod 16)) "").

Definition color_of (r g b : Byte.byte) : string :=
  "#" ++ hex2 r ++ hex2 g ++ hex2 b.

(** [colorMap.set(color, (colorMap.get(color) || 0) + 1)] on a [Map],
    which keeps its keys in the order of their first insertion. *)
Fixpoint bump (color : string) (colorMap : list (string * Z)) : list (string * Z) :=
  match colorMap with
  | [] => [(color, 1%Z)]
  | (c, n) :: rest =>
      if String.eqb c color then (c, (n + 1)%Z) :: rest
      else (c, n) :: bump color rest
  end.

(** The loop over the buffer, three bytes at a time. When the last
    group is short, [g] or [b] is [undefined] and calling [toString] on
    it throws a [TypeError]: [None]. *)
Fixpoint count_pixels (buffer : ImageUtils.Buffer) (colorMap : list (string * Z))
  : option (list (string * Z)) :=
  match buffer with
  | [] => Some colorMap
  | r :: g :: b :: rest => count_pixels rest (bump (color_of r g b) colorMap)
  | _ => None
  end.

(** [sort((a, b) => b[1] - a[1])]: by decreasing count; the sort is
    stable. *)
Fixpoint insert_by_count (x : string * Z) (sorted : list (string * Z))
  : list (string * Z) :=
  match sorted with
  | [] => [x]
  | y :: rest =>
      if (snd y <=? snd x)%Z then x :: sorted else y :: insert_by_count x rest
  end.

Definition sort_by_count (entries : list (string * Z)) : list (string * Z) :=
  fold_right insert_by_count [] entries.

(** The five most frequent colours with their counts. *)
Definition ranked (buffer : ImageUtils.Buffer) : option (list (string * Z)) :=
  option_map (fun colorMap => firstn 5 (sort_by_count colorMap))
             (count_pixels buffer []).

Record ColorAnalysis : Type := {
  dominant : list string;
  palette : list (string * JS.number);
  averageColor : string
}.

(** What the [catch] of [analyzeColors] returns. *)
Definition fallback : ColorAnalysis :=
  {| dominant := ["#000000"];
     palette := [("#000000", JS.of_Z 100)];
     averageColor := "#000000" |}.

Section AnalyzeColors.

(** [share count totalPixels] is the number
    [Math.round((count / totalPixels) * 100)]; [average buffer] is the
    colour text made of the channel means of [image.stats()],
    [reduced buffer] the bytes of [image.resize(50, 50).raw().toBuffer()];
    [None] when they throw. *)
Variable share : Z -> Z -> JS.number.
Variable average : ImageUtils.Buffer -> option string.
Variable reduced : ImageUtils.Buffer -> option ImageUtils.Buffer.

Definition extractPalette (buffer : ImageUtils.Buffer)
  : option (list (string * JS.number)) :=
  let totalPixels := (Z.of_nat (List.length buffer) / 3)%Z in
  option_map (map (fun entry => (fst entry, share (snd entry) totalPixels)))
             (ranked buffer).

Definition analyzeColors (imageBuffer : ImageUtils.Buffer) : ColorAnalysis :=
  match average imageBuffer with
  | None => fallback
  | Some averageColor =>
      match reduced imageBuffer with
      | None => fallback
      | Some resized =>
          match extractPalette resized with
          | None => fallback
          | Some palette =>
              {| dominant := [averageColor];
                 palette := palette;
                 averageColor := averageColor |}
          end
      end
  end.

End AnalyzeColors.

End ImageAnalyzer.

(** Whether a callback is given, and that it returns at every call. *)
Definition given (onProgress : option Callback) : bool :=
  match onProgress with
  | Some _ => true
  | None => false
  end.

Definition returns (onProgress : option Callback) : Prop :=
  match onProgress with
  | Some behaviour => forall i p, behaviour i p = None
  | None => True
  end.

(** A callback that throws at its first call and returns afterwards. *)
Definition throws_once : Callback :=
  fun i _ => if Nat.eqb i 0 then Some (ErrorObject "callback failed"%string) else None.

(** A callback that throws at its call number [j] and returns at the
    others. *)
Definition throws_at (j : nat) : Callback :=
  fun i _ => if Nat.eqb i j then Some (ErrorObject "callback failed"%string) else None.

(** What the promise of the callback of [batch.map] carries for the
    dispatch of [src] that settled with [s]. *)
Definition kept_as (src : string) (s : Settled) (item : Item) : Prop :=
  match item with
  | Kept e => recorded (caught_entry src s) e
  | Lost _ => True
  end.

(** * Properties *)

(** ** The definitions on small inputs *)

Example slice_window_of_two :
  JS.slice [10; 20; 30]%Z 2 4 = [30]%Z.
Proof. reflexivity. Qed.

Example slice_negative_end :
  JS.slice [10; 20; 30]%Z 0 (-1) = [10; 20]%Z.
Proof. reflexivity. Qed.

Example round_half_goes_up :
  JS.Math_round (JS.div (JS.of_Z 5) (JS.of_Z 2)) = JS.of_Z 3
  /\ JS.Math_round (JS.div (JS.of_Z (-5)) (JS.of_Z 2)) = JS.of_Z (-2).
Proof. split; reflexivity. Qed.

Example zero_by_zero : JS.div (JS.of_Z 0) (JS.of_Z 0) = JS.NaN.
Proof. reflexivity. Qed.

Example demo_windows :
  windows_of 2 ["a"; "b"; "c"; "d"; "e"]%string
  = [["a"; "b"]; ["c"; "d"]; ["e"]]%string.
Proof. reflexivity. Qed.

Example demo_process :
  option_map (fun r => (successful r, failed r, averageTime (summary r),
                        successRate (summary r)))
             (process Demo.providers Demo.clock 3 Demo.sources "analyze"
                      Demo.options 2)
  = Some (2, 1, JS.of_Z 14, JS.of_Z 67)%Z.
Proof. reflexivity. Qed.

Example demo_trace :
  option_map st_trace
             (processWithProgress_run Demo.providers Demo.clock 3 Demo.sources
                                      "resize" Demo.options 2 true)
  = Some [EvDispatch 0 "a.png"; EvDispatch 1 "b.png";
          EvSettle 1; EvProgress (report 3 1);
          EvSettle 0; EvProgress (report 3 2);
          EvDelay 100;
          EvDispatch 2 "c.png";
          EvSettle 2; EvProgress (report 3 3)].
Proof. reflexivity. Qed.


(** ** Doubles *)

Section Rounding.

Local Open Scope Q_scope.

Lemma pow2_pos (e : Z) : 0 < JS.pow2 e.
Proof. apply Qpower_0_lt. reflexivity. Qed.

Lemma pow2_add (a b : Z) : JS.pow2 (a + b) == JS.pow2 a * JS.pow2 b.
Proof. apply Qpower_plus. discriminate. Qed.

Lemma pow2_le (a b : Z) : (a <= b)%Z -> JS.pow2 a <= JS.pow2 b.
Proof. intros H. apply Qpower_le_compat_l; [exact H | discriminate]. Qed.

Lemma pow2_lt (a b : Z) : (a < b)%Z -> JS.pow2 a < JS.pow2 b.
Proof. intros H. apply Qpower_lt_compat_l; [exact H | reflexivity]. Qed.

Lemma pow2_lt_inv (a b : Z) : JS.pow2 a < JS.pow2 b -> (a < b)%Z.
Proof. intros H. apply Qpower_lt_compat_l_inv with (2 # 1); [exact H | reflexivity]. Qed.

Lemma pow2_Z (n : Z) : (0 <= n)%Z -> JS.pow2 n == inject_Z (2 ^ n).
Proof. intros H. symmetry. now apply Zpower_Qpower. Qed.

Lemma pow2_cancel (a : Z) : JS.pow2 a * JS.pow2 (- a) == 1.
Proof. rewrite <- pow2_add, Z.add_opp_diag_r. reflexivity. Qed.

(** [ilog2 q] is the integer part of the binary logarithm of [q]. *)
Lemma ilog2_spec (q : Q) :
  0 < q -> JS.pow2 (JS.ilog2 q) <= q /\ q < JS.pow2 (JS.ilog2 q + 1).
Proof.
  intros Hq. destruct q as [n d].
  assert (Hn : (0 < n)%Z).
  { unfold Qlt in Hq. cbn in Hq. lia. }
  pose proof (Z.log2_spec n Hn) as [Hn1 Hn2].
  pose proof (Z.log2_spec (Zpos d) (Pos2Z.is_pos d)) as [Hd1 Hd2].
  pose proof (Z.log2_nonneg n) as Hln.
  pose proof (Z.log2_nonneg (Zpos d)) as Hld.
  set (ln := Z.log2 n) in *. set (ld := Z.log2 (Zpos d)) in *.
  assert (Hq' : (n # d) * inject_Z (Zpos d) == inject_Z n).
  { rewrite (Qmake_Qdiv n d). field. discriminate. }
  assert (Hdpos : 0 < inject_Z (Zpos d)) by reflexivity.
  rewrite Zle_Qle in Hn1, Hd1. rewrite Zlt_Qlt in Hn2, Hd2.
  rewrite <- pow2_Z in Hn1, Hn2, Hd1, Hd2 by lia.
  assert (Hup : n # d < JS.pow2 (ln - ld + 1)).
  { apply Qnot_le_lt. intros Hc.
    assert (E : JS.pow2 (ln - ld + 1) * JS.pow2 ld == JS.pow2 (Z.succ ln)).
    { rewrite <- pow2_add. now replace (ln - ld + 1 + ld)%Z with (Z.succ ln) by lia. }
    pose proof (pow2_pos ld). pose proof (pow2_pos (ln - ld + 1)).
    assert (JS.pow2 (ln - ld + 1) * JS.pow2 ld <= (n # d) * inject_Z (Zpos d)).
    { apply Qmult_le_compat_nonneg; split; trivial; now apply Qlt_le_weak. }
    rewrite E, Hq' in H1. lra. }
  assert (Hlow : JS.pow2 (ln - ld - 1) < n # d).
  { apply Qnot_le_lt. intros Hc.
    assert (E : JS.pow2 (ln - ld - 1) * JS.pow2 (Z.succ ld) == JS.pow2 ln).
    { rewrite <- pow2_add. now replace (ln - ld - 1 + Z.succ ld)%Z with ln by lia. }
    pose proof (pow2_pos (Z.succ ld)).
    assert ((n # d) * inject_Z (Zpos d) < JS.pow2 (ln - ld - 1) * JS.pow2 (Z.succ ld)).
    { apply Qmult_le_lt_compat_pos; split; trivial. }
    rewrite E, Hq' in H0. lra. }
  unfold JS.ilog2. cbn [Qnum Qden]. fold ln ld.
  destruct (Qle_bool (JS.pow2 (ln - ld)) (n # d)) eqn:E.
  - apply Qle_bool_iff in E. split; [exact E | exact Hup].
  - split; [now apply Qlt_le_weak|].
    replace (ln - ld - 1 + 1)%Z with (ln - ld)%Z by lia.
    apply Qnot_le_lt. intros Hc. apply Qle_bool_iff in Hc. congruence.
Qed.

Lemma ilog2_unique (q : Q) (a : Z) :
  JS.pow2 a <= q -> q < JS.pow2 (a + 1) -> JS.ilog2 q = a.
Proof.
  intros H1 H2.
  assert (Hq : 0 < q) by (pose proof (pow2_pos a); lra).
  destruct (ilog2_spec Hq) as [H3 H4].
  assert (a < JS.ilog2 q + 1)%Z by (apply pow2_lt_inv; lra).
  assert (JS.ilog2 q < a + 1)%Z by (apply pow2_lt_inv; lra).
  lia.
Qed.

Lemma ilog2_mono (q q' : Q) : 0 < q -> q <= q' -> (JS.ilog2 q <= JS.ilog2 q')%Z.
Proof.
  intros Hq Hle. assert (Hq' : 0 < q') by lra.
  destruct (ilog2_spec Hq) as [H1 _]. destruct (ilog2_spec Hq') as [_ H2].
  assert (JS.ilog2 q < JS.ilog2 q' + 1)%Z by (apply pow2_lt_inv; lra).
  lia.
Qed.

Lemma ilog2_comp (q q' : Q) : 0 < q -> q == q' -> JS.ilog2 q = JS.ilog2 q'.
Proof.
  intros Hq E. assert (Hq' : 0 < q') by lra.
  apply Z.le_antisymm; apply ilog2_mono; trivial; lra.
Qed.

Lemma pow2_div (a b : Z) : JS.pow2 a / JS.pow2 b == JS.pow2 (a - b).
Proof.
  replace (a - b)%Z with (a + - b)%Z by lia. rewrite pow2_add.
  unfold JS.pow2, Qdiv. now rewrite Qpower_opp.
Qed.

Lemma div_le_compat (x y p : Q) : 0 < p -> x <= y -> x / p <= y / p.
Proof.
  intros Hp H. apply Qmult_le_compat_r; [exact H|].
  apply Qinv_le_0_compat. lra.
Qed.

Lemma rne_bounds (x : Q) : (Qfloor x <= JS.rne x <= Qfloor x + 1)%Z.
Proof.
  unfold JS.rne. destruct (x - inject_Z (Qfloor x) ?= 1 # 2);
    [destruct (Z.even (Qfloor x))| |]; lia.
Qed.

Lemma rne_comp (x y : Q) : x == y -> JS.rne x = JS.rne y.
Proof.
  intros E. unfold JS.rne. rewrite (Qfloor_comp x y E).
  now rewrite (Qcompare_comp (x - inject_Z (Qfloor y)) (y - inject_Z (Qfloor y))
                 ltac:(rewrite E; reflexivity) (1 # 2) (1 # 2) ltac:(reflexivity)).
Qed.

Lemma rne_Z (k : Z) : JS.rne (inject_Z k) = k.
Proof.
  unfold JS.rne. rewrite Qfloor_Z.
  destruct (Qcompare_spec (inject_Z k - inject_Z k) (1 # 2)); trivial; lra.
Qed.

Lemma rne_mono (x y : Q) : x <= y -> (JS.rne x <= JS.rne y)%Z.
Proof.
  intros H. pose proof (Qfloor_resp_le _ _ H) as Hf.
  pose proof (rne_bounds x). pose proof (rne_bounds y).
  destruct (Z.eq_dec (Qfloor x) (Qfloor y)) as [E|E]; [|lia].
  unfold JS.rne. rewrite E.
  destruct (Qcompare_spec (x - inject_Z (Qfloor y)) (1 # 2));
    destruct (Qcompare_spec (y - inject_Z (Qfloor y)) (1 # 2));
    try destruct (Z.even (Qfloor y)); try lia; lra.
Qed.

Lemma nearest_nonneg (q : Q) : 0 <= q -> 0 <= JS.nearest q.
Proof.
  intros Hq. unfold JS.nearest.
  set (e := Z.max (JS.ilog2 q - 52) (-1074)).
  pose proof (pow2_pos e) as He.
  apply Qmult_le_0_compat; [|lra].
  assert (0 <= q / JS.pow2 e).
  { apply Qle_shift_div_l; [exact He | lra]. }
  pose proof (Qfloor_resp_le _ _ H) as Hf. change (Qfloor 0) with 0%Z in Hf.
  pose proof (rne_bounds (q / JS.pow2 e)).
  change 0 with (inject_Z 0). rewrite <- Zle_Qle. lia.
Qed.

Lemma nearest_comp (q q' : Q) : 0 < q -> q == q' -> JS.nearest q == JS.nearest q'.
Proof.
  intros Hq E. unfold JS.nearest. rewrite <- (ilog2_comp Hq E).
  set (e := Z.max (JS.ilog2 q - 52) (-1074)).
  rewrite (@rne_comp (q / JS.pow2 e) (q' / JS.pow2 e)); [reflexivity|].
  now rewrite E.
Qed.

(** Rounding keeps the order. *)
Lemma nearest_mono (q q' : Q) : 0 < q -> q <= q' -> JS.nearest q <= JS.nearest q'.
Proof.
  intros Hq Hle. assert (Hq' : 0 < q') by lra.
  pose proof (ilog2_mono Hq Hle) as Hlog.
  unfold JS.nearest.
  set (e := Z.max (JS.ilog2 q - 52) (-1074)).
  set (e' := Z.max (JS.ilog2 q' - 52) (-1074)).
  pose proof (pow2_pos e) as He. pose proof (pow2_pos e') as He'.
  destruct (Z.eq_dec e e') as [E|E].
  - rewrite <- E. apply Qmult_le_compat_r; [|lra].
    rewrite <- Zle_Qle. apply rne_mono. now apply div_le_compat.
  - assert (Hlt : (e < e')%Z) by (unfold e, e' in *; lia).
    assert (He'eq : (e' = JS.ilog2 q' - 52)%Z) by (unfold e, e' in *; lia).
    destruct (ilog2_spec Hq) as [_ Hup]. destruct (ilog2_spec Hq') as [Hlow _].
    set (B := JS.pow2 (e' + 52)).
    assert (HB' : B <= q').
    { unfold B. now replace (e' + 52)%Z with (JS.ilog2 q') by lia. }
    assert (HB : q <= B).
    { apply Qlt_le_weak. eapply Qlt_le_trans; [exact Hup|].
      apply pow2_le. unfold e, e' in *. lia. }
    apply Qle_trans with B.
    + assert (Hr : (JS.rne (q / JS.pow2 e) <= 2 ^ (e' + 52 - e))%Z).
      { rewrite <- (rne_Z (2 ^ (e' + 52 - e))).
        rewrite <- (@rne_comp (B / JS.pow2 e) (inject_Z (2 ^ (e' + 52 - e)))).
        - apply rne_mono. now apply div_le_compat.
        - unfold B. rewrite pow2_div. apply pow2_Z. lia. }
      rewrite Zle_Qle in Hr.
      apply Qle_trans with (inject_Z (2 ^ (e' + 52 - e)) * JS.pow2 e).
      * apply Qmult_le_compat_r; [exact Hr | lra].
      * rewrite <- pow2_Z by lia. rewrite <- pow2_add. unfold B.
        replace (e' + 52 - e + e)%Z with (e' + 52)%Z by lia. apply Qle_refl.
    + assert (Hr : (2 ^ 52 <= JS.rne (q' / JS.pow2 e'))%Z).
      { rewrite <- (rne_Z (2 ^ 52)).
        rewrite <- (@rne_comp (B / JS.pow2 e') (inject_Z (2 ^ 52))).
        - apply rne_mono. now apply div_le_compat.
        - unfold B. rewrite pow2_div.
          replace (e' + 52 - e')%Z with 52%Z by lia. reflexivity. }
      rewrite Zle_Qle in Hr.
      apply Qle_trans with (inject_Z (2 ^ 52) * JS.pow2 e').
      * change (inject_Z (2 ^ 52)) with (JS.pow2 52). rewrite <- pow2_add.
        unfold B. replace (52 + e')%Z with (e' + 52)%Z by lia. apply Qle_refl.
      * apply Qmult_le_compat_r; [exact Hr | lra].
Qed.

(** A number with at most 53 significant bits above the smallest
    exponent is a double. *)
Lemma nearest_dyadic (m t : Z) :
  (0 < m < 2 ^ 53)%Z -> (-1074 <= t)%Z ->
  JS.nearest (inject_Z m * JS.pow2 t) == inject_Z m * JS.pow2 t.
Proof.
  intros Hm Ht.
  pose proof (Z.log2_spec m ltac:(lia)) as [H1 H2].
  pose proof (Z.log2_nonneg m) as Hl.
  assert (Hl53 : (Z.log2 m < 53)%Z) by (apply Z.log2_lt_pow2; lia).
  pose proof (pow2_pos t) as Hpt.
  rewrite Zle_Qle in H1. rewrite Zlt_Qlt in H2.
  rewrite <- pow2_Z in H1, H2 by lia.
  assert (Hlog : JS.ilog2 (inject_Z m * JS.pow2 t) = (Z.log2 m + t)%Z).
  { apply ilog2_unique.
    - rewrite pow2_add. apply Qmult_le_compat_r; [exact H1 | lra].
    - replace (Z.log2 m + t + 1)%Z with (Z.succ (Z.log2 m) + t)%Z by lia.
      rewrite pow2_add. apply Qmult_lt_compat_r; [exact Hpt | exact H2]. }
  unfold JS.nearest. rewrite Hlog.
  set (e := Z.max (Z.log2 m + t - 52) (-1074)).
  assert (Hle : (e <= t)%Z) by (unfold e; lia).
  pose proof (pow2_pos e) as He.
  assert (Hscaled : inject_Z m * JS.pow2 t / JS.pow2 e == inject_Z (m * 2 ^ (t - e))).
  { rewrite inject_Z_mult, <- pow2_Z by lia. rewrite <- pow2_div.
    field. lra. }
  rewrite (rne_comp Hscaled), rne_Z.
  rewrite inject_Z_mult, <- pow2_Z by lia.
  rewrite <- Qmult_assoc, <- pow2_add.
  now replace (t - e + e)%Z with t by lia.
Qed.

Lemma nearest_Z (m : Z) : (0 < m < 2 ^ 53)%Z -> JS.nearest (inject_Z m) == inject_Z m.
Proof.
  intros Hm.
  assert (E : inject_Z m == inject_Z m * JS.pow2 0) by (unfold JS.pow2; cbn; ring).
  rewrite (@nearest_comp (inject_Z m) (inject_Z m * JS.pow2 0)); trivial.
  - rewrite nearest_dyadic by lia. now rewrite <- E.
  - change 0 with (inject_Z 0). rewrite <- Zlt_Qlt. lia.
Qed.

End Rounding.

Section Numbers.

Local Open Scope Q_scope.

Lemma is_zero_spec (q : Q) : JS.is_zero q = true <-> q == 0.
Proof. apply Qeq_bool_iff. Qed.

Lemma is_neg_nonneg (q : Q) : 0 <= q -> JS.is_neg q = false.
Proof.
  intros H. unfold JS.is_neg. apply negb_false_iff. now apply Qle_bool_iff.
Qed.

(** Rounding a number between 0 and a small integer gives a number
    between them. *)
Lemma round64_bounded (q : Q) (K : Z) :
  (0 < K < 2 ^ 53)%Z -> 0 <= q -> q <= inject_Z K ->
  exists r, JS.round64 q = JS.Finite r /\ 0 <= r /\ r <= inject_Z K.
Proof.
  intros HK H0 H1. unfold JS.round64.
  destruct (JS.is_zero q) eqn:Ez.
  - exists 0. split; [reflexivity|]. split; [lra|].
    change 0 with (inject_Z 0). rewrite <- Zle_Qle. lia.
  - rewrite (is_neg_nonneg H0).
    assert (Hq : 0 < q).
    { apply Qeq_bool_neq in Ez. apply Qnot_le_lt. intros Hc. apply Ez. lra. }
    pose proof (nearest_nonneg H0) as Hn.
    pose proof (nearest_mono Hq H1) as Hm. rewrite (nearest_Z HK) in Hm.
    assert (Hsmall : inject_Z K < JS.pow2 1024).
    { apply Qlt_trans with (JS.pow2 53); [|now apply pow2_lt].
      rewrite pow2_Z by lia. rewrite <- Zlt_Qlt. lia. }
    destruct (Qle_bool (JS.pow2 1024) (JS.nearest q)) eqn:Eo.
    + apply Qle_bool_iff in Eo. lra.
    + eauto.
Qed.

Lemma round64_mono (q q' r r' : Q) :
  0 <= q -> q <= q' ->
  JS.round64 q = JS.Finite r -> JS.round64 q' = JS.Finite r' -> r <= r'.
Proof.
  intros H0 Hle. assert (H0' : 0 <= q') by lra.
  unfold JS.round64. rewrite (is_neg_nonneg H0), (is_neg_nonneg H0').
  destruct (JS.is_zero q) eqn:Ez, (JS.is_zero q') eqn:Ez';
    repeat match goal with
           | |- context [if Qle_bool ?a ?b then _ else _] => destruct (Qle_bool a b)
           end;
    intros E E'; try discriminate; injection E as <-; injection E' as <-.
  - lra.
  - now apply nearest_nonneg.
  - apply is_zero_spec in Ez'. apply Qeq_bool_neq in Ez. exfalso. apply Ez. lra.
  - apply nearest_mono; [|exact Hle].
    apply Qeq_bool_neq in Ez. apply Qnot_le_lt. intros Hc. apply Ez. lra.
Qed.

Lemma round64_exact (q : Q) (K : Z) :
  (0 <= K < 2 ^ 53)%Z -> q == inject_Z K ->
  exists r, JS.round64 q = JS.Finite r /\ r == inject_Z K.
Proof.
  intros HK E. unfold JS.round64.
  destruct (JS.is_zero q) eqn:Ez.
  - apply is_zero_spec in Ez. exists 0. split; [reflexivity | lra].
  - assert (HK' : (0 < K)%Z).
    { apply Qeq_bool_neq in Ez. destruct (Z.eq_dec K 0) as [->|]; [|lia].
      contradiction. }
    assert (Hq : 0 < q).
    { rewrite E. change 0 with (inject_Z 0). rewrite <- Zlt_Qlt. lia. }
    rewrite is_neg_nonneg by lra.
    assert (Hn : JS.nearest q == inject_Z K).
    { rewrite (nearest_comp Hq E). apply nearest_Z. lia. }
    assert (Hsmall : inject_Z K < JS.pow2 1024).
    { apply Qlt_trans with (JS.pow2 53); [|now apply pow2_lt].
      rewrite pow2_Z by lia. rewrite <- Zlt_Qlt. lia. }
    destruct (Qle_bool (JS.pow2 1024) (JS.nearest q)) eqn:Eo.
    + apply Qle_bool_iff in Eo. lra.
    + eauto.
Qed.

Lemma of_Z_inj (a b : Z) : JS.of_Z a = JS.of_Z b -> a = b.
Proof. unfold JS.of_Z, inject_Z. now intros [= ->]. Qed.

Lemma positive_nonzero (b : Z) : (0 < b)%Z -> JS.is_zero (inject_Z b) = false.
Proof. intros H. destruct b; try lia. reflexivity. Qed.

Lemma quotient_unit (a b : Z) :
  (0 <= a <= b)%Z -> (0 < b)%Z ->
  0 <= inject_Z a / inject_Z b /\ inject_Z a / inject_Z b <= inject_Z 1.
Proof.
  intros Ha Hb.
  assert (Hbq : 0 < inject_Z b) by (change 0 with (inject_Z 0); rewrite <- Zlt_Qlt; lia).
  split.
  - apply Qle_shift_div_l; [exact Hbq|]. rewrite Qmult_0_l.
    change 0 with (inject_Z 0). rewrite <- Zle_Qle. lia.
  - apply Qle_shift_div_r; [exact Hbq|]. rewrite Qmult_1_l. rewrite <- Zle_Qle. lia.
Qed.

(** [Math.round((a / b) * 100)] for a part [a] of [b]: a whole
    percentage. *)
Lemma percent_range (a b : Z) :
  (0 <= a <= b)%Z -> (0 < b)%Z ->
  exists p, percent a b = JS.of_Z p /\ (0 <= p <= 100)%Z.
Proof.
  intros Ha Hb. unfold percent, JS.div, JS.of_Z.
  rewrite (positive_nonzero Hb).
  destruct (quotient_unit Ha Hb) as [H0 H1].
  destruct (@round64_bounded _ 1 ltac:(lia) H0 H1) as (r & -> & Hr0 & Hr1).
  unfold JS.mul.
  destruct (@round64_bounded (r * inject_Z 100) 100 ltac:(lia)) as (x & -> & Hx0 & Hx1).
  - apply Qmult_le_0_compat; [exact Hr0 | discriminate].
  - change (inject_Z 1) with 1 in Hr1. change (inject_Z 100) with (100 # 1). lra.
  - unfold JS.Math_round, JS.of_Z. eexists. split; [reflexivity|].
    assert (H5 : 0 <= x + (1 # 2)) by lra.
    assert (H6 : x + (1 # 2) <= inject_Z 100 + (1 # 2)) by lra.
    apply Qfloor_resp_le in H5, H6. split; [exact H5|].
    etransitivity; [exact H6 | reflexivity].
Qed.

Lemma percent_mono (a a' b p p' : Z) :
  (0 <= a <= a')%Z -> (a' <= b)%Z -> (0 < b)%Z ->
  percent a b = JS.of_Z p -> percent a' b = JS.of_Z p' -> (p <= p')%Z.
Proof.
  intros Ha Ha' Hb. unfold percent, JS.div, JS.of_Z.
  rewrite (positive_nonzero Hb).
  destruct (@quotient_unit a b ltac:(lia) Hb) as [H0 H1].
  destruct (@quotient_unit a' b ltac:(lia) Hb) as [H0' H1'].
  destruct (@round64_bounded _ 1 ltac:(lia) H0 H1) as (r & Er & Hr0 & Hr1).
  destruct (@round64_bounded _ 1 ltac:(lia) H0' H1') as (r' & Er' & Hr0' & Hr1').
  assert (Hq : inject_Z a / inject_Z b <= inject_Z a' / inject_Z b).
  { apply div_le_compat.
    - change 0 with (inject_Z 0). rewrite <- Zlt_Qlt. lia.
    - rewrite <- Zle_Qle. lia. }
  pose proof (round64_mono H0 Hq Er Er') as Hrr.
  rewrite Er, Er'. unfold JS.mul.
  change (inject_Z 1) with 1 in Hr1, Hr1'.
  destruct (@round64_bounded (r * inject_Z 100) 100 ltac:(lia)) as (x & Ex & Hx0 & Hx1);
    [apply Qmult_le_0_compat; [exact Hr0 | discriminate]
    | change (inject_Z 100) with (100 # 1); lra |].
  destruct (@round64_bounded (r' * inject_Z 100) 100 ltac:(lia))
    as (x' & Ex' & Hx0' & Hx1');
    [apply Qmult_le_0_compat; [exact Hr0' | discriminate]
    | change (inject_Z 100) with (100 # 1); lra |].
  assert (Hxx : x <= x').
  { refine (@round64_mono _ _ x x' _ _ Ex Ex').
    - apply Qmult_le_0_compat; [exact Hr0 | discriminate].
    - change (inject_Z 100) with (100 # 1). lra. }
  rewrite Ex, Ex'. unfold JS.Math_round. intros E E'.
  apply of_Z_inj in E, E'. subst p p'. apply Qfloor_resp_le. lra.
Qed.

Lemma percent_whole (n : Z) : (0 < n)%Z -> percent n n = JS.of_Z 100.
Proof.
  intros Hn. unfold percent, JS.div, JS.of_Z. rewrite (positive_nonzero Hn).
  destruct (@round64_exact (inject_Z n / inject_Z n) 1 ltac:(lia)) as (r & -> & Hr).
  - field. intros E. apply (positive_nonzero Hn) in E || (unfold Qeq in E; cbn in E; lia).
  - unfold JS.mul.
    destruct (@round64_exact (r * inject_Z 100) 100 ltac:(lia)) as (x & -> & Hx).
    + rewrite Hr. reflexivity.
    + unfold JS.Math_round, JS.of_Z. f_equal.
      rewrite (Qfloor_comp (x + (1 # 2)) (inject_Z 100 + (1 # 2)))
        by (rewrite Hx; reflexivity).
      reflexivity.
Qed.

Lemma percent_none (b : Z) : (0 < b)%Z -> percent 0 b = JS.of_Z 0.
Proof.
  intros Hb. unfold percent, JS.div, JS.of_Z. rewrite (positive_nonzero Hb).
  destruct (@round64_exact (inject_Z 0 / inject_Z b) 0 ltac:(lia)) as (r & -> & Hr).
  - unfold Qdiv. apply Qmult_0_l.
  - unfold JS.mul.
    destruct (@round64_exact (r * inject_Z 100) 0 ltac:(lia)) as (x & -> & Hx).
    + rewrite Hr. reflexivity.
    + unfold JS.Math_round, JS.of_Z. f_equal.
      rewrite (Qfloor_comp (x + (1 # 2)) (inject_Z 0 + (1 # 2)))
        by (rewrite Hx; reflexivity).
      reflexivity.
Qed.

(** [Math.round(a / b)] is the quotient rounded half up, as long as the
    numbers are far from the limits of a double. *)
Lemma round_quotient (a b : Z) :
  (0 <= a)%Z -> (0 < b)%Z -> (a + b < 2 ^ 51)%Z ->
  JS.Math_round (JS.div (JS.of_Z a) (JS.of_Z b)) = JS.of_Z (round_div a b).
Proof.
  intros Ha Hb Hsmall. unfold JS.div, JS.of_Z. rewrite (positive_nonzero Hb).
  set (k := round_div a b).
  assert (Hk : (2 * b * k <= 2 * a + b < 2 * b * (k + 1))%Z).
  { unfold k, round_div.
    pose proof (Z.div_mod (2 * a + b) (2 * b) ltac:(lia)).
    pose proof (Z.mod_pos_bound (2 * a + b) (2 * b) ltac:(lia)). nia. }
  assert (Hk0 : (0 <= k)%Z) by nia.
  assert (Hbq : 0 < inject_Z b) by (change 0 with (inject_Z 0); rewrite <- Zlt_Qlt; lia).
  set (x := inject_Z a / inject_Z b).
  assert (Hx : x * inject_Z b == inject_Z a).
  { unfold x. field. lra. }
  assert (Hx0 : 0 <= x).
  { unfold x. apply Qle_shift_div_l; [exact Hbq|]. rewrite Qmult_0_l.
    change 0 with (inject_Z 0). rewrite <- Zle_Qle. lia. }
  assert (Hxa : x <= inject_Z (2 ^ 51)).
  { unfold x. apply Qle_shift_div_r; [exact Hbq|].
    rewrite <- inject_Z_mult, <- Zle_Qle. nia. }
  destruct (@round64_bounded x (2 ^ 51) ltac:(lia) Hx0 Hxa) as (r & Er & Hr0 & _).
  rewrite Er. unfold JS.Math_round, JS.of_Z. do 2 f_equal.
  (* the doubles on both sides of the quotient *)
  assert (Hlow : inject_Z k - (1 # 2) <= r).
  { destruct (Z.eq_dec k 0) as [->|Hne]; [change (inject_Z 0) with 0; lra|].
    set (y := inject_Z (2 * k - 1) * JS.pow2 (-1)).
    assert (Ey : y == inject_Z k - (1 # 2)).
    { unfold y. change (JS.pow2 (-1)) with (1 # 2).
      unfold Qeq, Qminus, Qplus, Qmult, Qopp, inject_Z. cbn [Qnum Qden]. lia. }
    assert (Hy : JS.round64 y = JS.Finite (JS.nearest y)
                 /\ JS.nearest y == y /\ 0 < y).
    { assert (Hy0 : 0 < y).
      { rewrite Ey. assert (1 <= inject_Z k).
        { change 1 with (inject_Z 1). rewrite <- Zle_Qle. lia. }
        lra. }
      assert (Hn : JS.nearest y == y) by (apply nearest_dyadic; nia).
      split; [|now split].
      unfold JS.round64.
      destruct (JS.is_zero y) eqn:Ez; [apply is_zero_spec in Ez; lra|].
      rewrite is_neg_nonneg by lra.
      destruct (Qle_bool (JS.pow2 1024) (JS.nearest y)) eqn:Eo; [|reflexivity].
      apply Qle_bool_iff in Eo. rewrite Hn, Ey in Eo.
      assert (inject_Z k < JS.pow2 1024).
      { apply Qlt_trans with (JS.pow2 53); [|now apply pow2_lt].
        rewrite pow2_Z by lia. rewrite <- Zlt_Qlt. nia. }
      lra. }
    destruct Hy as (Ery & Hn & Hy0).
    assert (Hyx : y <= x).
    { rewrite Ey. apply Qmult_lt_0_le_reg_r with (inject_Z b); [exact Hbq|].
      rewrite Hx.
      assert (E2 : (inject_Z k - (1 # 2)) * inject_Z b
                   == inject_Z (2 * b * k - b) * (1 # 2)).
      { unfold Qeq, Qminus, Qplus, Qmult, Qopp, inject_Z. cbn [Qnum Qden]. lia. }
      rewrite E2.
      assert (inject_Z (2 * b * k - b) <= inject_Z (2 * a)) by (rewrite <- Zle_Qle; lia).
      rewrite inject_Z_mult in H. change (inject_Z 2) with 2 in H. lra. }
    pose proof (@round64_mono y x _ _ ltac:(lra) Hyx Ery Er). lra. }
  assert (Hup : r < inject_Z k + (1 # 2)).
  { set (t := (Z.log2 b + 2)%Z).
    pose proof (Z.log2_spec b Hb) as [Hb1 Hb2].
    pose proof (Z.log2_nonneg b) as Hlb.
    assert (Hlog : (Z.log2 b < 51)%Z) by (apply Z.log2_lt_pow2; lia).
    assert (Htr : (0 <= t <= 1074)%Z) by (unfold t; lia).
    assert (HP : (b < 2 ^ Z.succ (Z.log2 b) <= 2 * b)%Z).
    { split; [exact Hb2|]. rewrite Z.pow_succ_r by lia. lia. }
    assert (Ht : (2 * 2 ^ Z.succ (Z.log2 b) = 2 ^ t)%Z).
    { unfold t. replace (Z.log2 b + 2)%Z with (Z.succ (Z.succ (Z.log2 b))) by lia.
      now rewrite (Z.pow_succ_r 2 (Z.succ (Z.log2 b))) by lia. }
    clearbody t. revert HP Ht. generalize (2 ^ Z.succ (Z.log2 b))%Z. intros P HP Ht.
    set (m := ((2 * k + 1) * P - 1)%Z).
    set (z := inject_Z m * JS.pow2 (- t)).
    assert (Hm : (0 < m < 2 ^ 53)%Z) by (unfold m; nia).
    assert (Ept : JS.pow2 (- t) * inject_Z (2 * P) == 1).
    { rewrite Ht, <- pow2_Z by lia. rewrite <- pow2_add.
      now replace (- t + t)%Z with 0%Z by lia. }
    pose proof (pow2_pos (- t)) as Hpt.
    assert (HPq : 0 < inject_Z (2 * P)).
    { change 0 with (inject_Z 0). rewrite <- Zlt_Qlt. lia. }
    assert (Hz0 : 0 < z).
    { unfold z. apply Qmult_lt_0_compat; [|exact Hpt].
      change 0 with (inject_Z 0). rewrite <- Zlt_Qlt. lia. }
    assert (Hn : JS.nearest z == z) by (apply nearest_dyadic; lia).
    assert (Hzk : z < inject_Z k + (1 # 2)).
    { apply Qmult_lt_r with (inject_Z (2 * P)); [exact HPq|].
      unfold z. rewrite <- Qmult_assoc, Ept, Qmult_1_r.
      assert (E2 : (inject_Z k + (1 # 2)) * inject_Z (2 * P)
                   == inject_Z ((2 * k + 1) * P)).
      { unfold Qeq, Qminus, Qplus, Qmult, Qopp, inject_Z. cbn [Qnum Qden]. lia. }
      rewrite E2, <- Zlt_Qlt. unfold m. lia. }
    assert (Hxz : x <= z).
    { apply Qmult_lt_0_le_reg_r with (inject_Z b * inject_Z (2 * P));
        [now apply Qmult_lt_0_compat|].
      assert (E1 : x * (inject_Z b * inject_Z (2 * P)) == inject_Z (a * (2 * P))).
      { rewrite Qmult_assoc, Hx, <- inject_Z_mult. reflexivity. }
      assert (E2 : z * (inject_Z b * inject_Z (2 * P)) == inject_Z (m * b)).
      { unfold z. rewrite (inject_Z_mult m b).
        transitivity (inject_Z m * inject_Z b * (JS.pow2 (- t) * inject_Z (2 * P)));
          [ring | rewrite Ept; ring]. }
      rewrite E1, E2, <- Zle_Qle. unfold m. nia. }
    assert (Erz : JS.round64 z = JS.Finite (JS.nearest z)).
    { unfold JS.round64.
      destruct (JS.is_zero z) eqn:Ez; [apply is_zero_spec in Ez; lra|].
      rewrite is_neg_nonneg by lra.
      destruct (Qle_bool (JS.pow2 1024) (JS.nearest z)) eqn:Eo; [|reflexivity].
      apply Qle_bool_iff in Eo. rewrite Hn in Eo.
      assert (inject_Z k + (1 # 2) < JS.pow2 1024).
      { apply Qlt_trans with (JS.pow2 53); [|now apply pow2_lt].
        rewrite pow2_Z by lia.
        assert (inject_Z k + 1 <= inject_Z (2 ^ 53)).
        { change 1 with (inject_Z 1). rewrite <- inject_Z_plus, <- Zle_Qle. nia. }
        lra. }
      lra. }
    pose proof (@round64_mono x z _ _ Hx0 Hxz Er Erz). lra. }
  assert (H1 : inject_Z k <= r + (1 # 2)) by lra.
  assert (H2 : r + (1 # 2) < inject_Z (k + 1)).
  { rewrite inject_Z_plus. change (inject_Z 1) with 1. lra. }
  apply Qfloor_resp_le in H1. rewrite Qfloor_Z in H1.
  assert (Qfloor (r + (1 # 2)) < k + 1)%Z.
  { rewrite Zlt_Qlt. eapply Qle_lt_trans; [apply Qfloor_le | exact H2]. }
  lia.
Qed.

End Numbers.

(** ** Windows *)

Section Windows.

Context {A : Type}.

Lemma slice_window (l : list A) (d : nat) (c : Z) :
  (1 <= c)%Z -> (d < List.length l)%nat ->
  JS.slice l (Z.of_nat d) (Z.of_nat d + c) = firstn (Z.to_nat c) (skipn d l).
Proof.
  intros Hc Hd. unfold JS.slice.
  destruct (Z.ltb_spec (Z.of_nat d) 0); [lia|].
  destruct (Z.ltb_spec (Z.of_nat d + c) 0); [lia|].
  rewrite (Z.min_l (Z.of_nat d)) by lia. rewrite Nat2Z.id.
  destruct (Z.le_ge_cases (Z.of_nat d + c) (Z.of_nat (List.length l))) as [Hle|Hge].
  - rewrite Z.min_l by lia. f_equal. lia.
  - rewrite Z.min_r by lia.
    rewrite !firstn_all2; trivial; rewrite length_skipn; lia.
Qed.

Lemma chunks_fuel (c : nat) : forall fuel1 fuel2 (l : list A),
  (1 <= c)%nat -> (List.length l <= fuel1)%nat -> (List.length l <= fuel2)%nat ->
  chunks fuel1 c l = chunks fuel2 c l.
Proof.
  induction fuel1 as [|fuel1 IH]; intros fuel2 l Hc H1 H2.
  - destruct l; [destruct fuel2; reflexivity | cbn [List.length] in H1; lia].
  - destruct l as [|a l]; [destruct fuel2; reflexivity|].
    cbn [List.length] in H1, H2.
    destruct fuel2 as [|fuel2]; [lia|].
    cbn [chunks]. f_equal.
    assert (Hs : (List.length (skipn c (a :: l)) <= List.length l)%nat).
    { rewrite length_skipn; cbn [List.length]; lia. }
    apply IH; trivial; lia.
Qed.

Lemma windows_of_cons (c : nat) (a : A) (l : list A) :
  (1 <= c)%nat ->
  windows_of c (a :: l) = firstn c (a :: l) :: windows_of c (skipn c (a :: l)).
Proof.
  intros Hc. unfold windows_of. cbn [chunks List.length]. f_equal.
  apply chunks_fuel; trivial; rewrite length_skipn; cbn [List.length]; lia.
Qed.

(** Induction over a list, window by window. *)
Lemma window_ind (c : nat) (Hc : (1 <= c)%nat) (Q : list A -> Prop) :
  Q [] ->
  (forall a l, Q (skipn c (a :: l)) -> Q (a :: l)) ->
  forall l, Q l.
Proof.
  intros Hnil Hstep l.
  remember (List.length l) as n eqn:Hn.
  revert l Hn. induction n as [n IH] using lt_wf_ind. intros l Hn.
  destruct l as [|a l]; [exact Hnil|].
  apply Hstep. apply (IH (List.length (skipn c (a :: l)))); trivial.
  rewrite length_skipn; subst n; cbn [List.length]; lia.
Qed.

Lemma concat_windows_of (c : nat) (l : list A) :
  (1 <= c)%nat -> List.concat (windows_of c l) = l.
Proof.
  intros Hc. induction l as [|a l IH] using (window_ind Hc); [reflexivity|].
  rewrite windows_of_cons by trivial. cbn [List.concat]. rewrite IH.
  apply firstn_skipn.
Qed.

End Windows.

(** ** The loop, window by window *)

Section Loop.

Variable window : State -> list string -> State.
Variable sources : list string.
Variable concurrency : Z.
Hypothesis positive : (1 <= concurrency)%Z.

Lemma skipn_nonempty (A : Type) (l : list A) (d : nat) :
  (d < List.length l)%nat -> exists a r, skipn d l = a :: r.
Proof.
  intros Hd. destruct (skipn d l) as [|a r] eqn:E; [|eauto].
  apply (f_equal (@List.length A)) in E. rewrite length_skipn in E.
  cbn [List.length] in E. lia.
Qed.

Lemma window_loop_windows : forall fuel d st,
  window_loop window sources concurrency fuel (Z.of_nat d) st
  = if (List.length (windows_of (Z.to_nat concurrency) (skipn d sources)) <? fuel)%nat
    then Some (run_windows window (windows_of (Z.to_nat concurrency) (skipn d sources)) st)
    else None.
Proof.
  set (c := Z.to_nat concurrency).
  assert (Hc : (1 <= c)%nat) by (unfold c; lia).
  induction fuel as [|fuel IH]; intros d st; [reflexivity|].
  cbn [window_loop].
  destruct (Z.ltb_spec (Z.of_nat d) (Z.of_nat (List.length sources))) as [Hd|Hd].
  - rewrite slice_window by lia. fold c.
    destruct (@skipn_nonempty _ sources d ltac:(lia)) as (a & r & E).
    rewrite E, windows_of_cons by trivial. rewrite <- E.
    rewrite skipn_skipn.
    replace (Z.of_nat d + concurrency)%Z with (Z.of_nat (c + d)) by (unfold c; lia).
    rewrite IH. cbn [List.length]. change (S ?x <? S ?y)%nat with (x <? y)%nat.
    destruct (Z.ltb_spec (Z.of_nat (c + d)) (Z.of_nat (List.length sources))) as [Hn|Hn].
    + destruct (@skipn_nonempty _ sources (c + d) ltac:(lia)) as (a' & r' & E').
      rewrite E', windows_of_cons by trivial. reflexivity.
    + rewrite (skipn_all2 sources (n:=c + d)) by lia. reflexivity.
  - rewrite (skipn_all2 sources (n:=d)) by lia. reflexivity.
Qed.

Lemma window_loop_returns (fuel : nat) :
  window_loop window sources concurrency fuel 0 initial
  = if (List.length (windows_of (Z.to_nat concurrency) sources) <? fuel)%nat
    then Some (run_windows window (windows_of (Z.to_nat concurrency) sources) initial)
    else None.
Proof. exact (window_loop_windows fuel 0 initial). Qed.

End Loop.

Lemma windows_of_length (A : Type) (c : nat) (l : list A) :
  (1 <= c)%nat ->
  Z.of_nat (List.length (windows_of c l))
  = ceil_div (Z.of_nat (List.length l)) (Z.of_nat c).
Proof.
  intros Hc. unfold ceil_div.
  induction l as [|a l IH] using (window_ind Hc).
  - cbn [windows_of chunks List.length]. symmetry. apply Z.div_small. lia.
  - rewrite windows_of_cons by trivial. cbn [List.length].
    rewrite Nat2Z.inj_succ, IH, length_skipn. cbn [List.length].
    destruct (Nat.le_gt_cases c (S (List.length l))) as [Hle|Hgt].
    + replace (Z.of_nat (S (List.length l)) + Z.of_nat c - 1)%Z
        with (Z.of_nat (S (List.length l) - c) + Z.of_nat c - 1 + 1 * Z.of_nat c)%Z by lia.
      rewrite Z.div_add by lia. lia.
    + replace (S (List.length l) - c)%nat with 0%nat by lia.
      rewrite (Z.div_small (Z.of_nat 0 + Z.of_nat c - 1)) by lia.
      apply Z.div_unique with (r := Z.of_nat (List.length l)); lia.
Qed.

Lemma windows_le_length (A : Type) (c : nat) (l : list A) :
  (1 <= c)%nat -> (List.length (windows_of c l) <= List.length l)%nat.
Proof.
  intros Hc. induction l as [|a l IH] using (window_ind Hc); [reflexivity|].
  rewrite windows_of_cons by trivial. cbn [List.length].
  rewrite length_skipn in IH. cbn [List.length] in IH. lia.
Qed.

(** ** Dispatching a batch *)

Section Dispatch.

Variable P : Providers.
Variable C : Clock.
Variable operation : string.
Variable options : Options.

Lemma dispatch_cons (k : nat) (a : string) (l : list string) :
  dispatch P k (a :: l) operation options
  = ((EvDispatch k a :: fst (processSingle P k a operation options)
        ++ fst (dispatch P (S k) l operation options))%list,
     snd (processSingle P k a operation options)
       :: snd (dispatch P (S k) l operation options)).
Proof.
  cbn [dispatch].
  destruct (processSingle P k a operation options) as [ev s].
  destruct (dispatch P (S k) l operation options) as [evs ss].
  reflexivity.
Qed.

Lemma outcomes_cons (k : nat) (a : string) (l : list string) :
  outcomes P operation options k (a :: l)
  = snd (processSingle P k a operation options) :: outcomes P operation options (S k) l.
Proof. unfold outcomes. now rewrite dispatch_cons. Qed.

Lemma outcomes_length (l : list string) : forall k,
  List.length (outcomes P operation options k l) = List.length l.
Proof.
  induction l as [|a l IH]; intros k; [reflexivity|].
  rewrite outcomes_cons. cbn [List.length]. now rewrite IH.
Qed.

Lemma entries_cons f (k : nat) (a : string) (l : list string) :
  entries P operation options f k (a :: l)
  = f a (snd (processSingle P k a operation options)) :: entries P operation options f (S k) l.
Proof. unfold entries. now rewrite outcomes_cons. Qed.

Lemma entries_app f (l1 l2 : list string) : forall k,
  entries P operation options f k (l1 ++ l2)
  = (entries P operation options f k l1 ++ entries P operation options f (k + List.length l1) l2)%list.
Proof.
  induction l1 as [|a l1 IH]; intros k.
  - cbn [app List.length]. now rewrite Nat.add_0_r.
  - cbn [app List.length]. rewrite !entries_cons, IH. cbn [app].
    now rewrite Nat.add_succ_r.
Qed.

Lemma entries_length f (l : list string) (k : nat) :
  List.length (entries P operation options f k l) = List.length l.
Proof.
  unfold entries. rewrite length_map, length_combine, outcomes_length. lia.
Qed.

Lemma entries_nth f (l : list string) : forall k i src,
  nth_error l i = Some src ->
  nth_error (entries P operation options f k l) i
  = Some (f src (snd (processSingle P (k + i) src operation options))).
Proof.
  induction l as [|a l IH]; intros k i src H.
  - destruct i; discriminate.
  - rewrite entries_cons. destruct i as [|i]; cbn [nth_error] in *.
    + injection H as ->. now rewrite Nat.add_0_r.
    + rewrite (IH (S k) i src H). now rewrite Nat.add_succ_r.
Qed.

Lemma entry_of_source g (src : string) (s : Settled) : source (entry_of g src s) = src.
Proof. destruct s; reflexivity. Qed.

Lemma entries_sources g (l : list string) : forall k,
  map source (entries P operation options (entry_of g) k l) = l.
Proof.
  induction l as [|a l IH]; intros k; [reflexivity|].
  rewrite entries_cons. cbn [map]. now rewrite entry_of_source, IH.
Qed.

(** ** One window *)

Lemma process_window_eq (st : State) (w : list string) :
  process_window P C operation options st w
  = {| st_results := st_results st ++ entries P operation options settled_entry (st_issued st) w;
       st_completed := st_completed st;
       st_issued := st_issued st + List.length w;
       st_windows := S (st_windows st);
       st_trace := st_trace st ++ process_events P C operation options (st_issued st) w |}.
Proof.
  unfold process_window, entries, process_events, outcomes.
  destruct (dispatch P (st_issued st) w operation options) as [ev ss].
  reflexivity.
Qed.

Lemma notify_fold (n : Z) (b : bool) (order : list nat) : forall c0 acc,
  fold_left (notify n b) order (c0, acc)
  = ((c0 + Z.of_nat (List.length order))%Z,
     acc ++ snd (fold_left (notify n b) order (c0, []))).
Proof.
  induction order as [|k order IH]; intros c0 acc.
  - cbn. now rewrite Z.add_0_r, app_nil_r.
  - cbn [fold_left List.length]. unfold notify at 2 4. cbn [fst snd].
    rewrite IH. rewrite (IH _ ([] ++ _)). cbn [snd app].
    rewrite <- app_assoc. f_equal. lia.
Qed.

End Dispatch.

(** ** Settlement order *)

Section Settlement.

Variable C : Clock.

Lemma settles_before_perm (k : nat) (order : list nat) :
  Permutation (settles_before C k order) (k :: order).
Proof.
  induction order as [|x order IH]; cbn [settles_before]; [reflexivity|].
  destruct (latency C k <=? latency C x)%nat; [reflexivity|].
  rewrite IH. apply perm_swap.
Qed.

Lemma settle_order_perm (ks : list nat) : Permutation (settle_order C ks) ks.
Proof.
  induction ks as [|k ks IH]; cbn [settle_order fold_right]; [reflexivity|].
  rewrite settles_before_perm. now constructor.
Qed.

Lemma settle_order_length (ks : list nat) :
  List.length (settle_order C ks) = List.length ks.
Proof. apply Permutation_length, settle_order_perm. Qed.

Lemma settle_order_In (ks : list nat) (k : nat) :
  In k (settle_order C ks) <-> In k ks.
Proof.
  split; apply Permutation_in;
    [apply settle_order_perm | symmetry; apply settle_order_perm].
Qed.

End Settlement.

(** ** Runs, window by window *)

Section Runs.

Variable P : Providers.
Variable C : Clock.
Variable operation : string.
Variable options : Options.

Lemma progress_window_eq (n : Z) (b : bool) (st : State) (w : list string) :
  st_completed st = Z.of_nat (st_issued st) ->
  progress_window P C n b operation options st w
  = {| st_results := st_results st ++ entries P operation options caught_entry (st_issued st) w;
       st_completed := Z.of_nat (st_issued st + List.length w);
       st_issued := st_issued st + List.length w;
       st_windows := S (st_windows st);
       st_trace := st_trace st ++ progress_events P C operation options n b (st_issued st) w |}.
Proof.
  intros Hc.
  unfold progress_window, entries, progress_events, outcomes.
  destruct (dispatch P (st_issued st) w operation options) as [ev ss].
  rewrite Hc, notify_fold. cbn [fst snd app].
  rewrite settle_order_length, length_seq. f_equal. lia.
Qed.

(** The state reached from [st] by the windows [ws] of [process]. *)
Lemma run_windows_process (ws : list (list string)) : forall st,
  run_windows (process_window P C operation options) ws st
  = {| st_results :=
         st_results st
         ++ entries P operation options settled_entry (st_issued st) (List.concat ws);
       st_completed := st_completed st;
       st_issued := st_issued st + List.length (List.concat ws);
       st_windows := st_windows st + List.length ws;
       st_trace :=
         st_trace st
         ++ schedule (process_events P C operation options) (st_issued st) ws |}.
Proof.
  induction ws as [|w ws IH]; intros st.
  - destruct st. cbn. now rewrite !app_nil_r, !Nat.add_0_r.
  - cbn [run_windows]. destruct ws as [|w' ws].
    + rewrite process_window_eq. cbn. rewrite !app_nil_r.
      f_equal; lia.
    + rewrite IH, process_window_eq. unfold delay. cbn [st_results st_completed st_issued st_windows st_trace].
      cbn [List.concat schedule List.length].
      rewrite (entries_app _ _ _ _ w), !length_app, <- !app_assoc.
      f_equal; lia.
Qed.

(** The state reached from [st] by the windows [ws] of
    [processWithProgress]. *)
Lemma run_windows_progress (n : Z) (b : bool) (ws : list (list string)) : forall st,
  st_completed st = Z.of_nat (st_issued st) ->
  run_windows (progress_window P C n b operation options) ws st
  = {| st_results :=
         st_results st
         ++ entries P operation options caught_entry (st_issued st) (List.concat ws);
       st_completed :=
         match ws with
         | [] => st_completed st
         | _ :: _ => Z.of_nat (st_issued st + List.length (List.concat ws))
         end;
       st_issued := st_issued st + List.length (List.concat ws);
       st_windows := st_windows st + List.length ws;
       st_trace :=
         st_trace st
         ++ schedule (progress_events P C operation options n b) (st_issued st) ws |}.
Proof.
  induction ws as [|w ws IH]; intros st Hst.
  - destruct st. cbn. now rewrite !app_nil_r, !Nat.add_0_r.
  - cbn [run_windows]. destruct ws as [|w' ws].
    + rewrite progress_window_eq by trivial. cbn. rewrite !app_nil_r.
      repeat (f_equal; try lia).
    + rewrite IH, progress_window_eq by (rewrite ?progress_window_eq by trivial; trivial).
      unfold delay. cbn [st_results st_completed st_issued st_windows st_trace].
      cbn [List.concat schedule List.length].
      rewrite (entries_app _ _ _ _ w), !length_app, <- !app_assoc.
      repeat (f_equal; try lia).
Qed.

End Runs.

(** ** The two entry points in closed form *)

Section Closed.

Variable P : Providers.
Variable C : Clock.
Variable operation : string.
Variable options : Options.
Variable sources : list string.
Variable concurrency : Z.
Hypothesis positive : (1 <= concurrency)%Z.

Lemma concat_ws :
  List.concat (windows_of (Z.to_nat concurrency) sources) = sources.
Proof. apply concat_windows_of. lia. Qed.

Lemma process_run_eq (fuel : nat) :
  process_run P C fuel sources operation options concurrency
  = if (List.length (windows_of (Z.to_nat concurrency) sources) <? fuel)%nat
    then Some {| st_results := entries P operation options settled_entry 0 sources;
                 st_completed := 0;
                 st_issued := List.length sources;
                 st_windows := List.length (windows_of (Z.to_nat concurrency) sources);
                 st_trace := schedule (process_events P C operation options) 0
                            (windows_of (Z.to_nat concurrency) sources) |}
    else None.
Proof.
  unfold process_run. rewrite window_loop_returns by trivial.
  destruct (List.length (windows_of (Z.to_nat concurrency) sources) <? fuel)%nat; [|reflexivity].
  rewrite run_windows_process, concat_ws. reflexivity.
Qed.

Lemma processWithProgress_run_eq (fuel : nat) (onProgress : bool) :
  processWithProgress_run P C fuel sources operation options concurrency onProgress
  = if (List.length (windows_of (Z.to_nat concurrency) sources) <? fuel)%nat
    then Some {| st_results := entries P operation options caught_entry 0 sources;
                 st_completed := Z.of_nat (List.length sources);
                 st_issued := List.length sources;
                 st_windows := List.length (windows_of (Z.to_nat concurrency) sources);
                 st_trace :=
                   schedule (progress_events P C operation options
                               (Z.of_nat (List.length sources)) onProgress) 0
                            (windows_of (Z.to_nat concurrency) sources) |}
    else None.
Proof.
  unfold processWithProgress_run. rewrite window_loop_returns by trivial.
  destruct (List.length (windows_of (Z.to_nat concurrency) sources) <? fuel)%nat; [|reflexivity].
  rewrite run_windows_progress by reflexivity. rewrite concat_ws.
  cbn [initial st_results st_completed st_issued st_windows st_trace app Nat.add].
  f_equal. destruct (windows_of (Z.to_nat concurrency) sources) eqn:E; [|reflexivity].
  rewrite <- concat_ws, E. reflexivity.
Qed.

Lemma enough_fuel (fuel : nat) :
  (List.length sources < fuel)%nat -> (List.length (windows_of (Z.to_nat concurrency) sources) <? fuel)%nat = true.
Proof.
  intros H. apply Nat.ltb_lt.
  pose proof (@windows_le_length _ (Z.to_nat concurrency) sources ltac:(lia)) as Hw.
  lia.
Qed.

Lemma process_eq (fuel : nat) :
  (List.length sources < fuel)%nat ->
  process P C fuel sources operation options concurrency
  = Some (aggregate (entries P operation options settled_entry 0 sources) (wallClock C)).
Proof.
  intros H. unfold process. now rewrite process_run_eq, enough_fuel.
Qed.

Lemma processWithProgress_eq (fuel : nat) (onProgress : bool) :
  (List.length sources < fuel)%nat ->
  processWithProgress P C fuel sources operation options concurrency onProgress
  = Some (aggregate (entries P operation options caught_entry 0 sources) (wallClock C)).
Proof.
  intros H. unfold processWithProgress.
  now rewrite processWithProgress_run_eq, enough_fuel.
Qed.

End Closed.

(** ** The aggregation *)

Lemma fold_left_total_time (rs : list Entry) : forall a,
  fold_left (fun sum r => (sum + processingTime r)%Z) rs a = (a + total_time rs)%Z.
Proof.
  induction rs as [|r rs IH]; intros a; cbn [fold_left total_time fold_right].
  - lia.
  - rewrite IH. unfold total_time. lia.
Qed.

Lemma aggregate_average (rs : list Entry) (t : Z) :
  Forall (fun e => success e = false -> processingTime e = 0%Z) rs ->
  average_over_successes (aggregate rs t).
Proof.
  intros Hz. unfold average_over_successes. cbn [aggregate results successful summary averageTime].
  repeat split; trivial.
  - intros ->. reflexivity.
  - intros Hne.
    assert (Hpos : (0 < Z.of_nat (List.length (filter success rs)))%Z).
    { destruct (filter success rs); [congruence | cbn [List.length]; lia]. }
    destruct (Z.ltb_spec 0 (Z.of_nat (List.length (filter success rs)))); [|lia].
    now rewrite fold_left_total_time, Z.add_0_l.
Qed.

(** Far from the limits of a double the average is the mean over the
    successful entries, rounded half up. *)
Lemma aggregate_averageTime (rs : list Entry) (t : Z) :
  filter success rs <> [] ->
  (0 <= total_time (filter success rs))%Z ->
  (total_time (filter success rs) + Z.of_nat (List.length (filter success rs))
   < 2 ^ 51)%Z ->
  averageTime (summary (aggregate rs t))
  = JS.of_Z (round_div (total_time (filter success rs))
                       (Z.of_nat (List.length (filter success rs)))).
Proof.
  intros Hne H0 Hsmall. cbn [aggregate summary averageTime].
  assert (Hpos : (0 < Z.of_nat (List.length (filter success rs)))%Z).
  { destruct (filter success rs); [congruence | cbn [List.length]; lia]. }
  destruct (Z.ltb_spec 0 (Z.of_nat (List.length (filter success rs)))); [|lia].
  rewrite fold_left_total_time, Z.add_0_l. now apply round_quotient.
Qed.

(** The success rate is the percentage the code computes from the two
    counts. *)
Lemma aggregate_successRate (rs : list Entry) (t : Z) :
  successRate (summary (aggregate rs t))
  = percent (successful (aggregate rs t)) (totalProcessed (aggregate rs t)).
Proof. reflexivity. Qed.

Section Results.

Variable P : Providers.
Variable operation : string.
Variable options : Options.

Lemma aggregate_covers g (sources : list string) (t : Z) :
  covers sources (aggregate (entries P operation options (entry_of g) 0 sources) t).
Proof.
  unfold covers. cbn [aggregate results totalProcessed successful failed].
  rewrite entries_length. repeat split; try lia.
  intros i _. rewrite <- nth_error_map. now rewrite entries_sources.
Qed.

Lemma entries_failures_take_no_time g (sources : list string) : forall k,
  Forall (fun e => success e = false -> processingTime e = 0%Z)
         (entries P operation options (entry_of g) k sources).
Proof.
  induction sources as [|a l IH]; intros k; [constructor|].
  rewrite entries_cons. constructor; [|apply IH].
  destruct (snd (processSingle P k a operation options)); cbn; congruence.
Qed.

Lemma successful_entries_durations g (sources : list string) : forall k,
  map processingTime (filter success (entries P operation options (entry_of g) k sources))
  = durations (outcomes P operation options k sources).
Proof.
  induction sources as [|a l IH]; intros k; [reflexivity|].
  rewrite entries_cons, outcomes_cons. unfold durations. cbn [flat_map].
  fold (durations (outcomes P operation options (S k) l)).
  destruct (snd (processSingle P k a operation options));
    cbn [entry_of filter success map processingTime app]; now rewrite IH.
Qed.

Lemma total_time_sum (rs : list Entry) :
  total_time rs = fold_right Z.add 0%Z (map processingTime rs).
Proof.
  unfold total_time. induction rs as [|r rs IH]; [reflexivity|].
  cbn [fold_right map]. now rewrite IH.
Qed.

(** The average the aggregation computes from the entries of a run is
    the rounded mean of the durations of the fulfilled dispatches. *)
Lemma aggregate_mean g (sources : list string) (t : Z) :
  Forall (fun ms => (0 <= ms)%Z) (durations (outcomes P operation options 0 sources)) ->
  (fold_right Z.add 0 (durations (outcomes P operation options 0 sources))
   + Z.of_nat (List.length sources) < 2 ^ 51)%Z ->
  successful (aggregate (entries P operation options (entry_of g) 0 sources) t)
  = Z.of_nat (List.length (durations (outcomes P operation options 0 sources)))
  /\ averageTime
       (summary (aggregate (entries P operation options (entry_of g) 0 sources) t))
     = JS.of_Z (rounded_mean (durations (outcomes P operation options 0 sources))).
Proof.
  intros Hpos Hsmall.
  pose proof (successful_entries_durations g sources 0) as Hd.
  set (rs := entries P operation options (entry_of g) 0 sources) in *.
  set (times := durations (outcomes P operation options 0 sources)) in *.
  assert (Hlen : List.length (filter success rs) = List.length times).
  { now rewrite <- Hd, length_map. }
  assert (Hle : (List.length times <= List.length sources)%nat).
  { rewrite <- Hlen. unfold rs.
    rewrite <- (entries_length P operation options (entry_of g) sources 0).
    apply filter_length_le. }
  assert (Hsum : (0 <= fold_right Z.add 0 times)%Z).
  { clear - Hpos. induction Hpos; cbn [fold_right]; lia. }
  split; [cbn [aggregate successful]; now rewrite Hlen|].
  destruct times as [|ms times'] eqn:Et.
  - cbn [rounded_mean]. cbn [aggregate summary averageTime].
    destruct (filter success rs); [reflexivity | discriminate].
  - rewrite aggregate_averageTime.
    + rewrite total_time_sum, Hd, Hlen. reflexivity.
    + intros E. rewrite E in Hlen. discriminate.
    + now rewrite total_time_sum, Hd.
    + rewrite total_time_sum, Hd, Hlen. lia.
Qed.

End Results.

(** ** Claims on the returned result *)

(** C1. For every concurrency of at least 1 and every settlement order,
    both entry points return a result whose [results] has one entry per
    source, in the order of [sources], with [totalProcessed] the number of
    sources and [successful + failed = totalProcessed]; the entries do
    not depend on the concurrency or on the settlement order. *)
Theorem result_covers_sources
        (P : Providers) (C C' : Clock) (sources : list string) (operation : string)
        (options : Options) (concurrency : Z) (onProgress : bool) (fuel : nat) :
  (1 <= concurrency)%Z ->
  (List.length sources < fuel)%nat ->
  exists r r',
    process P C fuel sources operation options concurrency = Some r
    /\ processWithProgress P C' fuel sources operation options concurrency onProgress
       = Some r'
    /\ covers sources r /\ covers sources r'
    /\ results r = entries P operation options settled_entry 0 sources
    /\ results r' = entries P operation options caught_entry 0 sources.
Proof.
  intros Hc Hf.
  eexists. eexists.
  split; [apply process_eq; trivial|].
  split; [apply processWithProgress_eq; trivial|].
  split; [apply aggregate_covers|].
  split; [apply aggregate_covers|].
  split; reflexivity.
Qed.

Lemma result_covers_sources_witness :
  (1 <= 2)%Z /\ (List.length Demo.sources < 4)%nat
  /\ exists r r',
       process Demo.providers Demo.clock 4 Demo.sources "analyze" Demo.options 2 = Some r
       /\ processWithProgress Demo.providers Demo.clock 4 Demo.sources "analyze"
                              Demo.options 2 true = Some r'
       /\ covers Demo.sources r /\ covers Demo.sources r'
       /\ results r = entries Demo.providers "analyze" Demo.options settled_entry 0 Demo.sources
       /\ results r' = entries Demo.providers "analyze" Demo.options caught_entry 0 Demo.sources.
Proof.
  split; [lia|]. split; [cbn; lia|].
  apply result_covers_sources; [lia | cbn; lia].
Defined.

(** C5. On an empty list of sources the success rate both entry points
    return is NaN: the quotient [successful / results.length] is 0 / 0. *)
Theorem successRate_of_empty_batch
        (P : Providers) (C : Clock) (operation : string) (options : Options)
        (concurrency : Z) (onProgress : bool) (fuel : nat) :
  option_map (fun r => successRate (summary r))
             (process P C (S fuel) [] operation options concurrency) = Some JS.NaN
  /\ option_map (fun r => successRate (summary r))
                (processWithProgress P C (S fuel) [] operation options concurrency
                                     onProgress) = Some JS.NaN.
Proof. split; reflexivity. Qed.

(** ** What [processSingle] settles with *)

Section Single.

Local Open Scope string_scope.

Variable P : Providers.

Lemma rethrow_rejects (prefix : string) (r : Payload + string) (e : Thrown) :
  rethrow prefix r = inr e ->
  exists detail, e = ErrorObject (prefix ++ detail).
Proof. destruct r; cbn; intros H; inversion H; eauto. Qed.

Lemma awaited_rejects (k : nat) (c : Call) (r : Payload + Thrown) (e : Thrown) :
  snd (awaited P k c r) = Rejected e -> r = inr e.
Proof. destruct r; cbn; intros H; inversion H; reflexivity. Qed.

(** Whatever [processSingle] rejects with is an [Error] with a non-empty
    message. *)
Lemma processSingle_rejects (k : nat) (src operation : string) (options : Options)
      (e : Thrown) :
  snd (processSingle P k src operation options) = Rejected e ->
  exists m, e = ErrorObject m /\ m <> "".
Proof.
  unfold processSingle, analyze, compress, convert, extract.
  repeat match goal with
         | |- context [if ?b then _ else _] => destruct b
         | |- context [match truthy ?v with _ => _ end] => destruct (truthy v)
         end;
    intros H;
    try (apply awaited_rejects, rethrow_rejects in H; destruct H as [d ->];
         eexists; split; [reflexivity | discriminate]);
    cbn in H; inversion H; eexists; (split; [reflexivity | discriminate]).
Qed.

Lemma messages_agree (e : Thrown) :
  (exists m, e = ErrorObject m /\ m <> "") -> reason_message e = caught_message e.
Proof.
  intros (m & -> & Hm). cbn.
  destruct (String.eqb_spec m ""); [contradiction | reflexivity].
Qed.

Lemma entries_agree (operation : string) (options : Options) (l : list string) :
  forall k,
    entries P operation options settled_entry k l
    = entries P operation options caught_entry k l.
Proof.
  induction l as [|a l IH]; intros k; [reflexivity|].
  rewrite !entries_cons, IH. f_equal.
  destruct (snd (processSingle P k a operation options)) eqn:E; [reflexivity|].
  unfold settled_entry, caught_entry, entry_of.
  now rewrite (messages_agree (processSingle_rejects _ _ _ _ E)).
Qed.

Lemma convert_without_format (k : nat) (src : string) (options : Options) :
  truthy (targetFormat options) = None ->
  processSingle P k src "convert" options
  = ([], Rejected (ErrorObject "targetFormat is required for convert operation")).
Proof. intros H. unfold processSingle. cbn. now rewrite H. Qed.

Lemma unsupported_operation (k : nat) (src operation : string) (options : Options) :
  operation <> "analyze" -> operation <> "compress" ->
  operation <> "convert" -> operation <> "extract_colors" ->
  processSingle P k src operation options
  = ([], Rejected (ErrorObject ("Unsupported operation: " ++ operation))).
Proof.
  intros H1 H2 H3 H4. unfold processSingle.
  repeat match goal with
         | |- context [String.eqb ?a ?b] => destruct (String.eqb_spec a b); try contradiction
         end.
  reflexivity.
Qed.

(** A batch in which every dispatch is refused before any provider is
    called. *)
Lemma refused_batch (operation : string) (options : Options) (m : string) :
  (forall k src,
      processSingle P k src operation options = ([], Rejected (ErrorObject m))) ->
  m <> "" ->
  forall l k,
    entries P operation options settled_entry k l = map (fun s => failure s m) l
    /\ entries P operation options caught_entry k l = map (fun s => failure s m) l
    /\ invocations (fst (dispatch P k l operation options)) = [].
Proof.
  intros Hall Hm. induction l as [|a l IH]; intros k; [repeat split|].
  destruct (IH (S k)) as (H1 & H2 & H3).
  rewrite !entries_cons, dispatch_cons, H1, H2, Hall. cbn [fst snd app map].
  repeat split; trivial.
  unfold settled_entry, entry_of, failure, reason_message.
  destruct (String.eqb_spec m ""); [contradiction | reflexivity].
Qed.

End Single.


(** ** Events of a schedule *)

Section Schedule.

Variable W : nat -> list string -> list Event.

Lemma flat_map_schedule (B : Type) (f : Event -> list B) :
  f (EvDelay 100) = [] ->
  forall ws k,
    flat_map f (schedule W k ws) = gather (fun j w => flat_map f (W j w)) k ws.
Proof.
  intros Hd. induction ws as [|w ws IH]; intros k; [reflexivity|].
  cbn [schedule gather]. rewrite flat_map_app. f_equal.
  destruct ws as [|w' ws]; [reflexivity|].
  cbn [flat_map]. rewrite Hd. apply IH.
Qed.

Lemma delays_schedule :
  (forall k w, delays (W k w) = []) ->
  forall ws k, delays (schedule W k ws) = repeat 100%Z (List.length ws - 1).
Proof.
  intros Hw. induction ws as [|w ws IH]; intros k; [reflexivity|].
  cbn [schedule]. unfold delays. rewrite flat_map_app. fold (delays (W k w)).
  rewrite Hw. cbn [app]. destruct ws as [|w' ws]; [reflexivity|].
  cbn [flat_map app]. fold (delays (schedule W (k + List.length w) (w' :: ws))).
  rewrite IH.
  replace (List.length (w' :: ws) - 1)%nat with (List.length ws)
    by (cbn [List.length]; lia).
  replace (List.length (w :: w' :: ws) - 1)%nat with (S (List.length ws))
    by (cbn [List.length]; lia).
  reflexivity.
Qed.

End Schedule.

Lemma gather_nil (B : Type) (f : nat -> list string -> list B) :
  (forall k w, f k w = []) -> forall ws k, gather f k ws = [].
Proof.
  intros Hf. induction ws as [|w ws IH]; intros k; [reflexivity|].
  cbn [gather]. now rewrite Hf, IH.
Qed.

Section WindowEvents.

Variable P : Providers.
Variable C : Clock.
Variable operation : string.
Variable options : Options.

Lemma dispatch_events_only (B : Type) (f : Event -> list B) :
  (forall k s, f (EvDispatch k s) = []) ->
  (forall k c, f (EvInvoke k c) = []) ->
  forall l k, flat_map f (fst (dispatch P k l operation options)) = [].
Proof.
  intros Hd Hi. induction l as [|a l IH]; intros k; [reflexivity|].
  rewrite dispatch_cons. cbn [fst flat_map]. rewrite Hd, flat_map_app, IH, app_nil_r.
  cbn [app]. unfold processSingle, awaited.
  repeat match goal with
         | |- context [if ?b then _ else _] => destruct b
         | |- context [match truthy ?v with _ => _ end] => destruct (truthy v)
         end; cbn [fst flat_map]; rewrite ?Hi; reflexivity.
Qed.

Lemma notify_cons (n : Z) (b : bool) (k : nat) (order : list nat) (c0 : Z) :
  snd (fold_left (notify n b) (k :: order) (c0, []))
  = snd (notify n b (c0, []) k)
    ++ snd (fold_left (notify n b) order ((c0 + 1)%Z, [])).
Proof.
  cbn [fold_left]. unfold notify at 2. cbn [fst snd].
  now rewrite notify_fold.
Qed.

Lemma notify_events_only (B : Type) (f : Event -> list B) (n : Z) (b : bool) :
  (forall k, f (EvSettle k) = []) ->
  (forall p, f (EvProgress p) = []) ->
  forall order c0, flat_map f (snd (fold_left (notify n b) order (c0, []))) = [].
Proof.
  intros Hs Hp. induction order as [|k order IH]; intros c0; [reflexivity|].
  rewrite notify_cons, flat_map_app, IH, app_nil_r.
  unfold notify. cbn [fst snd app flat_map]. rewrite Hs.
  destruct b; cbn [flat_map]; rewrite ?Hp; reflexivity.
Qed.

Lemma notify_settlements (n : Z) (b : bool) : forall order c0,
  settlements (snd (fold_left (notify n b) order (c0, []))) = order.
Proof.
  induction order as [|k order IH]; intros c0; [reflexivity|].
  rewrite notify_cons. unfold settlements. rewrite flat_map_app.
  fold (settlements (snd (fold_left (notify n b) order ((c0 + 1)%Z, [])))).
  rewrite IH. destruct b; reflexivity.
Qed.

Lemma notify_reports (n : Z) : forall order j,
  reports (snd (fold_left (notify n true) order (Z.of_nat j, [])))
  = map (report n) (seq (S j) (List.length order)).
Proof.
  induction order as [|k order IH]; intros j; [reflexivity|].
  rewrite notify_cons. unfold reports. rewrite flat_map_app.
  fold (reports (snd (fold_left (notify n true) order ((Z.of_nat j + 1)%Z, [])))).
  replace (Z.of_nat j + 1)%Z with (Z.of_nat (S j)) by lia.
  rewrite IH. cbn [List.length seq map notify fst snd app flat_map].
  f_equal. unfold report, percent.
  now replace (Z.of_nat j + 1)%Z with (Z.of_nat (S j)) by lia.
Qed.

(** No provider is called in a run in which every dispatch is refused. *)
Lemma refused_schedule (m : string) (n : Z) (b : bool) :
  (forall k src,
      processSingle P k src operation options = ([], Rejected (ErrorObject m))) ->
  m <> EmptyString ->
  forall ws k,
    invocations (schedule (process_events P C operation options) k ws) = []
    /\ invocations (schedule (progress_events P C operation options n b) k ws) = [].
Proof.
  intros Hall Hm ws k. unfold invocations.
  rewrite !flat_map_schedule by reflexivity.
  split; apply gather_nil; intros j w;
    unfold process_events, progress_events; rewrite flat_map_app;
    destruct (refused_batch P operation options Hall Hm w j) as (_ & _ & H);
    unfold invocations in H; rewrite H; cbn [app].
  - induction (settle_order C (seq j (List.length w))); trivial.
  - now apply notify_events_only.
Qed.

End WindowEvents.

(** ** Claims on failures *)

Lemma fallback_or_message (e : Thrown) :
  (message_of e = Some (reason_message e) \/ reason_message e = "Unknown error"%string)
  /\ (message_of e = Some (caught_message e) \/ caught_message e = "Unknown error"%string).
Proof.
  destruct e as [m|[m|]]; cbn; try (split; auto; fail).
  - destruct (String.eqb m ""); auto.
  - destruct (String.eqb m ""); auto.
Qed.





(** ** The two entry points against each other *)

Section Related.

Variable R : State -> State -> Prop.
Variables w1 w2 : State -> list string -> State.
Variable sources : list string.
Variable concurrency : Z.

Hypothesis window_related :
  forall st st' batch, R st st' -> R (w1 st batch) (w2 st' batch).
Hypothesis delay_related :
  forall st st', R st st' -> R (delay st) (delay st').

Lemma window_loop_related : forall fuel i st st',
  R st st' ->
  match window_loop w1 sources concurrency fuel i st,
        window_loop w2 sources concurrency fuel i st' with
  | Some a, Some b => R a b
  | None, None => True
  | _, _ => False
  end.
Proof.
  induction fuel as [|fuel IH]; intros i st st' H; [exact I|].
  cbn [window_loop].
  destruct (i <? Z.of_nat (List.length sources))%Z; [|exact H].
  apply IH.
  destruct (i + concurrency <? Z.of_nat (List.length sources))%Z; auto.
Qed.

End Related.

Lemma progress_window_results (P : Providers) (C : Clock) (n : Z) (b : bool)
      (operation : string) (options : Options) (st : State) (w : list string) :
  st_results (progress_window P C n b operation options st w)
  = st_results st ++ entries P operation options caught_entry (st_issued st) w
  /\ st_issued (progress_window P C n b operation options st w)
     = (st_issued st + List.length w)%nat.
Proof.
  unfold progress_window, entries, outcomes.
  destruct (dispatch P (st_issued st) w operation options) as [ev ss].
  destruct (fold_left _ _ _) as [c' evs]. split; reflexivity.
Qed.

Lemma same_report_aggregate (rs : list Entry) (t t' : Z) :
  same_report (aggregate rs t) (aggregate rs t').
Proof. repeat split. Qed.

(** C6. On the same provider behaviour, [process] and
    [processWithProgress] without a callback return the same result, up
    to [totalTime], whatever the settlement orders of the two runs; one
    returns exactly when the other does, which they do whenever the
    concurrency is at least 1. *)
Theorem entry_points_agree
        (P : Providers) (C C' : Clock) (sources : list string) (operation : string)
        (options : Options) (concurrency : Z) (fuel : nat) :
  match process P C fuel sources operation options concurrency,
        processWithProgress P C' fuel sources operation options concurrency false with
  | Some a, Some b => same_report a b
  | None, None => (concurrency < 1)%Z \/ (fuel <= List.length sources)%nat
  | _, _ => False
  end.
Proof.
  unfold process, processWithProgress, process_run, processWithProgress_run.
  pose proof
       (@window_loop_related
          (fun st st' => st_results st = st_results st' /\ st_issued st = st_issued st')
          (process_window P C operation options)
          (progress_window P C' (Z.of_nat (List.length sources)) false operation options)
          sources concurrency) as H.
  specialize (H ltac:(intros st st' batch [Hr Hi];
                      rewrite process_window_eq;
                      destruct (progress_window_results P C'
                                  (Z.of_nat (List.length sources)) false
                                  operation options st' batch) as [-> ->];
                      cbn [st_results st_issued];
                      rewrite Hr, Hi, entries_agree; split; reflexivity)).
  specialize (H ltac:(intros st st' [Hr Hi]; split; assumption)).
  specialize (H fuel 0%Z initial initial (conj eq_refl eq_refl)).
  destruct (window_loop (process_window P C operation options) _ _ _ _ _) as [a|] eqn:Ea;
    destruct (window_loop (progress_window P C' _ _ _ _) _ _ _ _ _) as [b|] eqn:Eb;
    cbn [option_map]; try contradiction.
  - destruct H as [-> _]. apply same_report_aggregate.
  - destruct (Z.le_gt_cases 1 concurrency) as [Hc|Hc]; [|left; lia].
    right. destruct (Nat.le_gt_cases fuel (List.length sources)) as [Hf|Hf]; trivial.
    pose proof (process_run_eq P C operation options sources Hc fuel) as Hrun.
    unfold process_run in Hrun. rewrite Ea, enough_fuel in Hrun by trivial.
    discriminate.
Qed.

(** ** Termination of the loop *)

Lemma window_loop_diverges (window : State -> list string -> State)
      (sources : list string) (concurrency : Z) :
  (concurrency <= 0)%Z -> sources <> [] ->
  forall fuel i st,
    (i <= 0)%Z -> window_loop window sources concurrency fuel i st = None.
Proof.
  intros Hc Hs. induction fuel as [|fuel IH]; intros i st Hi; [reflexivity|].
  cbn [window_loop].
  destruct (Z.ltb_spec i (Z.of_nat (List.length sources))) as [_|Hge].
  - apply IH. lia.
  - destruct sources; [contradiction | cbn [List.length] in Hge; lia].
Qed.



(** ** Progress reports *)

Lemma combine_app (A B : Type) (l1 l2 : list A) (m1 m2 : list B) :
  List.length l1 = List.length m1 ->
  combine (l1 ++ l2) (m1 ++ m2) = combine l1 m1 ++ combine l2 m2.
Proof.
  revert m1. induction l1 as [|a l1 IH]; intros [|b m1] H; try discriminate.
  - reflexivity.
  - cbn. f_equal. apply IH. now injection H.
Qed.

Lemma round_div_whole (n : Z) : (0 < n)%Z -> round_div (100 * n) n = 100%Z.
Proof.
  intros Hn. unfold round_div. symmetry.
  apply Z.div_unique with (r := n); lia.
Qed.

Section Reports.

Variable P : Providers.
Variable C : Clock.
Variable operation : string.
Variable options : Options.
Variable n : Z.

Lemma notify_observed : forall order j,
  observed (snd (fold_left (notify n true) order (Z.of_nat j, [])))
  = flat_map (settle_then_report n) (combine order (seq (S j) (List.length order))).
Proof.
  induction order as [|k order IH]; intros j; [reflexivity|].
  rewrite notify_cons. unfold observed. rewrite flat_map_app.
  fold (observed (snd (fold_left (notify n true) order ((Z.of_nat j + 1)%Z, [])))).
  replace (Z.of_nat j + 1)%Z with (Z.of_nat (S j)) by lia.
  rewrite IH. cbn [List.length seq combine flat_map notify fst snd app].
  unfold settle_then_report at 2. cbn [fst snd app]. do 2 f_equal.
  unfold report, percent.
  now replace (Z.of_nat j + 1)%Z with (Z.of_nat (S j)) by lia.
Qed.

Lemma progress_events_reports (k : nat) (w : list string) :
  reports (progress_events P C operation options n true k w)
  = map (report n) (seq (S k) (List.length w)).
Proof.
  unfold progress_events, reports. rewrite flat_map_app.
  rewrite dispatch_events_only by reflexivity. cbn [app].
  fold (reports (snd (fold_left (notify n true)
                        (settle_order C (seq k (List.length w))) (Z.of_nat k, [])))).
  rewrite notify_reports.
  now rewrite settle_order_length, length_seq.
Qed.

Lemma progress_events_settlements (b : bool) (k : nat) (w : list string) :
  settlements (progress_events P C operation options n b k w)
  = settle_order C (seq k (List.length w)).
Proof.
  unfold progress_events, settlements. rewrite flat_map_app.
  rewrite dispatch_events_only by reflexivity. cbn [app].
  apply notify_settlements.
Qed.

Lemma progress_events_observed (k : nat) (w : list string) :
  observed (progress_events P C operation options n true k w)
  = flat_map (settle_then_report n)
             (combine (settle_order C (seq k (List.length w)))
                      (seq (S k) (List.length w))).
Proof.
  unfold progress_events, observed. rewrite flat_map_app.
  rewrite dispatch_events_only by reflexivity. cbn [app].
  fold (observed (snd (fold_left (notify n true)
                         (settle_order C (seq k (List.length w))) (Z.of_nat k, [])))).
  rewrite notify_observed.
  now rewrite settle_order_length, length_seq.
Qed.

Lemma schedule_reports (ws : list (list string)) : forall k,
  reports (schedule (progress_events P C operation options n true) k ws)
  = map (report n) (seq (S k) (List.length (List.concat ws))).
Proof.
  unfold reports. induction ws as [|w ws IH]; intros k.
  - reflexivity.
  - rewrite flat_map_schedule in * by reflexivity. cbn [gather List.concat].
    rewrite <- flat_map_schedule by reflexivity. rewrite IH.
    fold (reports (progress_events P C operation options n true k w)).
    rewrite progress_events_reports, length_app, seq_app, map_app.
    now rewrite Nat.add_succ_l.
Qed.

Lemma schedule_settlements (b : bool) (ws : list (list string)) : forall k,
  Permutation
    (settlements (schedule (progress_events P C operation options n b) k ws))
    (seq k (List.length (List.concat ws))).
Proof.
  unfold settlements. induction ws as [|w ws IH]; intros k.
  - reflexivity.
  - rewrite flat_map_schedule by reflexivity. cbn [gather List.concat].
    rewrite <- flat_map_schedule by reflexivity. rewrite IH.
    fold (settlements (progress_events P C operation options n b k w)).
    rewrite progress_events_settlements, length_app, seq_app.
    apply Permutation_app_tail, settle_order_perm.
Qed.

Lemma schedule_observed (ws : list (list string)) : forall k,
  observed (schedule (progress_events P C operation options n true) k ws)
  = flat_map (settle_then_report n)
      (combine
         (settlements (schedule (progress_events P C operation options n true) k ws))
         (seq (S k) (List.length (List.concat ws)))).
Proof.
  induction ws as [|w ws IH]; intros k; [reflexivity|].
  unfold observed, settlements in *.
  rewrite !flat_map_schedule in * by reflexivity. cbn [gather List.concat].
  rewrite <- !flat_map_schedule by reflexivity. rewrite IH.
  fold (observed (progress_events P C operation options n true k w)).
  fold (settlements (progress_events P C operation options n true k w)).
  rewrite progress_events_observed, progress_events_settlements.
  rewrite length_app, seq_app, combine_app, flat_map_app.
  - now rewrite Nat.add_succ_l.
  - now rewrite settle_order_length, !length_seq.
Qed.

End Reports.

(** The reports of a run whose callback returns: one directly after
    each settlement, the j-th with [completed = j], [total = n] and the
    percentage the code computes from them; the last one carries 100
    percent. *)
Lemma reports_with_the_flag
        (P : Providers) (C : Clock) (sources : list string) (operation : string)
        (options : Options) (concurrency : Z) (fuel : nat) :
  (1 <= concurrency)%Z ->
  (List.length sources < fuel)%nat ->
  let n := List.length sources in
  exists st,
    processWithProgress_run P C fuel sources operation options concurrency true
    = Some st
    /\ reports (st_trace st) = map (report (Z.of_nat n)) (seq 1 n)
    /\ map completed (reports (st_trace st)) = map Z.of_nat (seq 1 n)
    /\ Permutation (settlements (st_trace st)) (seq 0 n)
    /\ observed (st_trace st)
       = flat_map (settle_then_report (Z.of_nat n))
                  (combine (settlements (st_trace st)) (seq 1 n))
    /\ st_completed st = Z.of_nat n
    /\ (sources <> [] ->
        forall d,
          last (reports (st_trace st)) d
          = {| completed := Z.of_nat n; total := Z.of_nat n;
               percentage := JS.of_Z 100 |}).
Proof.
  intros Hc Hf n.
  eexists. split; [rewrite processWithProgress_run_eq, enough_fuel by trivial; reflexivity|].
  cbn [st_trace st_completed]. fold n.
  assert (Hcat : List.length
                   (List.concat (windows_of (Z.to_nat concurrency) sources)) = n).
  { now rewrite concat_ws. }
  destruct n as [|m] eqn:En.
  - assert (Hw : windows_of (Z.to_nat concurrency) sources = []).
    { destruct sources; [reflexivity | discriminate]. }
    rewrite Hw. repeat split; try reflexivity.
    intros Hs. destruct sources; [contradiction | discriminate].
  - rewrite <- En in *.
    assert (Hn : (0 < Z.of_nat n)%Z) by lia.
    assert (Hr : reports
                   (schedule (progress_events P C operation options (Z.of_nat n) true) 0
                             (windows_of (Z.to_nat concurrency) sources))
                 = map (report (Z.of_nat n)) (seq 1 n)).
    { rewrite schedule_reports. now rewrite Hcat. }
    split; [exact Hr|].
    split; [rewrite Hr, map_map; reflexivity|].
    split; [rewrite <- Hcat at 2; apply schedule_settlements|].
    split; [rewrite schedule_observed; now rewrite Hcat|].
    split; [reflexivity|].
    intros _ d. rewrite Hr.
    assert (Hs : seq 1 n = seq 1 m ++ [n]) by (rewrite En, seq_S; reflexivity).
    rewrite Hs, map_app. cbn [map]. rewrite last_last.
    unfold report. now rewrite percent_whole.
Qed.

(** ** Order of the events of a run *)

Lemma In_settlements (t : list Event) (k : nat) :
  In (EvSettle k) t <-> In k (settlements t).
Proof.
  unfold settlements. rewrite in_flat_map. split.
  - intros H. exists (EvSettle k). split; [exact H | now left].
  - intros (e & He & Hk). destruct e; try contradiction.
    destruct Hk as [->|[]]. exact He.
Qed.

Lemma windows_of_nth (A : Type) (c : nat) (Hc : (1 <= c)%nat) (l : list A) :
  forall j w,
    nth_error (windows_of c l) j = Some w ->
    w = firstn c (skipn (j * c) l) /\ (j * c < List.length l)%nat.
Proof.
  induction l as [|a l IH] using (window_ind Hc); intros j w H.
  - destruct j; discriminate.
  - rewrite windows_of_cons in H by trivial. destruct j as [|j]; cbn [nth_error] in H.
    + injection H as <-. cbn [Nat.mul skipn List.length]. split; [reflexivity | lia].
    + apply IH in H. destruct H as [-> Hlt].
      rewrite skipn_skipn, length_skipn in *. split.
      * f_equal. f_equal. lia.
      * cbn [List.length] in *. lia.
Qed.

Lemma windows_of_sizes (A : Type) (c : nat) (Hc : (1 <= c)%nat) (l : list A) :
  forall j w,
    nth_error (windows_of c l) j = Some w ->
    w <> [] /\ (List.length w <= c)%nat
    /\ (S j < List.length (windows_of c l) -> List.length w = c)%nat.
Proof.
  intros j w H. destruct (windows_of_nth Hc l j H) as [-> Hlt].
  rewrite length_firstn, length_skipn. repeat split; try lia.
  - intros E. apply (f_equal (@List.length A)) in E.
    rewrite length_firstn, length_skipn in E. cbn [List.length] in E. lia.
  - intros Hj.
    destruct (nth_error (windows_of c l) (S j)) as [w'|] eqn:E'.
    + apply (windows_of_nth Hc) in E'. cbn [Nat.mul] in E'. lia.
    + apply nth_error_None in E'. lia.
Qed.

Section Order.

Variable W : nat -> list string -> list Event.
Variable c : nat.
Hypothesis c_positive : (1 <= c)%nat.

Hypothesis dispatches_inside :
  forall k w k' s, In (EvDispatch k' s) (W k w) -> (k <= k' < k + List.length w)%nat.
Hypothesis settles_inside :
  forall k w j, (k <= j < k + List.length w)%nat -> In (EvSettle j) (W k w).

Lemma schedule_order (l : list string) :
  forall j pre k' s post,
    schedule W (j * c) (windows_of c l) = pre ++ EvDispatch k' s :: post ->
    forall k, (j * c <= k)%nat -> (k / c < k' / c)%nat -> In (EvSettle k) pre.
Proof.
  induction l as [|a l IH] using (window_ind c_positive);
    intros j pre k' s post H k Hk Hlt.
  - destruct pre; discriminate.
  - rewrite windows_of_cons in H by trivial. cbn [schedule] in H.
    set (w := firstn c (a :: l)) in *.
    assert (Hw : (List.length w <= c)%nat) by (unfold w; rewrite length_firstn; lia).
    apply app_eq_app in H. destruct H as (m & [[H1 H2]|[H1 H2]]).
    + (* the dispatch belongs to the first window *)
      destruct m as [|e m].
      * cbn [app] in H2. destruct (windows_of c (skipn c (a :: l))); discriminate.
      * injection H2 as <- _.
        assert (Hin : In (EvDispatch k' s) (W (j * c) w)).
        { rewrite H1. apply in_or_app. right. now left. }
        apply dispatches_inside in Hin.
        assert (k' / c < S j)%nat by (apply Nat.Div0.div_lt_upper_bound; lia).
        assert (j <= k / c)%nat by (apply Nat.div_le_lower_bound; lia).
        lia.
    + (* the dispatch belongs to a later window *)
      destruct (windows_of c (skipn c (a :: l))) as [|w' ws] eqn:E.
      * destruct m; discriminate.
      * destruct m as [|e m]; [discriminate|].
        injection H2 as <- H2.
        assert (Hfull : List.length w = c).
        { unfold w. rewrite length_firstn.
          assert (skipn c (a :: l) <> []) by (intros E0; rewrite E0 in E; discriminate).
          destruct (Nat.le_gt_cases c (List.length (a :: l))) as [Hle|Hgt]; [lia|].
          rewrite skipn_all2 in H by lia. contradiction. }
        change (schedule W (j * c + List.length w) (w' :: ws)
                = m ++ EvDispatch k' s :: post) in H2.
        rewrite Hfull in H2. replace (j * c + c)%nat with (S j * c)%nat in H2 by lia.
        rewrite H1.
        destruct (Nat.le_gt_cases (S j * c) k) as [Hge|Hin].
        -- apply in_or_app. right. right. eapply IH; eauto.
        -- apply in_or_app. left. apply settles_inside. lia.
Qed.

End Order.

Section WindowOrder.

Variable P : Providers.
Variable C : Clock.
Variable operation : string.
Variable options : Options.

Lemma dispatch_In (l : list string) : forall k k' s,
  In (EvDispatch k' s) (fst (dispatch P k l operation options)) ->
  (k <= k' < k + List.length l)%nat.
Proof.
  induction l as [|a l IH]; intros k k' s H; [contradiction|].
  rewrite dispatch_cons in H. cbn [fst List.length] in H |- *.
  destruct H as [H|H]; [injection H as -> _; lia|].
  apply in_app_or in H. destruct H as [H|H].
  - exfalso. revert H. unfold processSingle, awaited.
    repeat match goal with
           | |- context [if ?b then _ else _] => destruct b
           | |- context [match truthy ?v with _ => _ end] => destruct (truthy v)
           end; cbn; intros H; try contradiction;
      destruct H as [H|[]]; discriminate.
  - apply IH in H. lia.
Qed.

Lemma notify_dispatches (n : Z) (b : bool) (k' : nat) (s : string) :
  forall order c0,
    ~ In (EvDispatch k' s) (snd (fold_left (notify n b) order (c0, []))).
Proof.
  induction order as [|k order IH]; intros c0 H; [contradiction|].
  rewrite notify_cons in H. apply in_app_or in H. destruct H as [H|H].
  - unfold notify in H. cbn [fst snd app] in H.
    destruct H as [H|H]; [discriminate|].
    destruct b; [destruct H as [H|[]]; discriminate | contradiction].
  - now apply IH in H.
Qed.

Lemma process_events_dispatches (k : nat) (w : list string) (k' : nat) (s : string) :
  In (EvDispatch k' s) (process_events P C operation options k w) ->
  (k <= k' < k + List.length w)%nat.
Proof.
  unfold process_events. intros H. apply in_app_or in H. destruct H as [H|H].
  - now apply dispatch_In in H.
  - apply in_map_iff in H. destruct H as (x & Hx & _). discriminate.
Qed.

Lemma process_events_settles (k : nat) (w : list string) (j : nat) :
  (k <= j < k + List.length w)%nat ->
  In (EvSettle j) (process_events P C operation options k w).
Proof.
  intros H. unfold process_events. apply in_or_app. right.
  apply in_map, settle_order_In, in_seq. lia.
Qed.

Lemma progress_events_dispatches (n : Z) (b : bool) (k : nat) (w : list string)
      (k' : nat) (s : string) :
  In (EvDispatch k' s) (progress_events P C operation options n b k w) ->
  (k <= k' < k + List.length w)%nat.
Proof.
  unfold progress_events. intros H. apply in_app_or in H. destruct H as [H|H].
  - now apply dispatch_In in H.
  - now apply notify_dispatches in H.
Qed.

Lemma progress_events_settles (n : Z) (b : bool) (k : nat) (w : list string) (j : nat) :
  (k <= j < k + List.length w)%nat ->
  In (EvSettle j) (progress_events P C operation options n b k w).
Proof.
  intros H. unfold progress_events. apply in_or_app. right.
  apply In_settlements. rewrite notify_settlements.
  apply settle_order_In, in_seq. lia.
Qed.

Lemma process_events_delays (k : nat) (w : list string) :
  delays (process_events P C operation options k w) = [].
Proof.
  unfold process_events, delays. rewrite flat_map_app.
  rewrite dispatch_events_only by reflexivity. cbn [app].
  induction (settle_order C (seq k (List.length w))); trivial.
Qed.

Lemma progress_events_delays (n : Z) (b : bool) (k : nat) (w : list string) :
  delays (progress_events P C operation options n b k w) = [].
Proof.
  unfold progress_events, delays. rewrite flat_map_app.
  rewrite dispatch_events_only by reflexivity. cbn [app].
  now apply notify_events_only.
Qed.

End WindowOrder.

(** ** Claims on the schedule *)

(** C3. With a concurrency [c] of at least 1 the sources are cut into
    consecutive windows, the j-th being [sources[j*c .. j*c + c)], all of
    [c] sources but possibly the last, which is not empty. The events of
    a run are those of its windows in this order, each window being its
    dispatches followed by its settlements, with one delay of 100 ms
    between two consecutive windows and none after the last. Hence,
    whenever a dispatch is issued, every dispatch of an earlier window
    has already settled. *)
Theorem windows_run_one_after_another
        (P : Providers) (C C' : Clock) (sources : list string) (operation : string)
        (options : Options) (concurrency : Z) (onProgress : bool) (fuel : nat) :
  (1 <= concurrency)%Z ->
  (List.length sources < fuel)%nat ->
  let c := Z.to_nat concurrency in
  let ws := windows_of c sources in
  List.concat ws = sources
  /\ (forall j w,
         nth_error ws j = Some w ->
         w = firstn c (skipn (j * c) sources)
         /\ w <> [] /\ (List.length w <= c)%nat
         /\ (S j < List.length ws -> List.length w = c)%nat)
  /\ exists st st',
      process_run P C fuel sources operation options concurrency = Some st
      /\ processWithProgress_run P C' fuel sources operation options concurrency
                                 onProgress = Some st'
      /\ st_trace st = schedule (process_events P C operation options) 0 ws
      /\ st_trace st'
         = schedule (progress_events P C' operation options
                       (Z.of_nat (List.length sources)) onProgress) 0 ws
      /\ forall t,
          t = st_trace st \/ t = st_trace st' ->
          delays t = repeat 100%Z (List.length ws - 1)
          /\ forall pre k' s post k,
              t = pre ++ EvDispatch k' s :: post ->
              (k / c < k' / c)%nat ->
              In (EvSettle k) pre.
Proof.
  intros Hc Hf c ws.
  assert (Hpos : (1 <= c)%nat) by (unfold c; lia).
  split; [apply concat_windows_of; trivial|].
  split.
  { intros j w H. destruct (windows_of_nth Hpos sources j H) as [Hw _].
    destruct (windows_of_sizes Hpos sources j H) as (H1 & H2 & H3). auto. }
  eexists. eexists.
  split; [rewrite process_run_eq, enough_fuel by trivial; reflexivity|].
  split; [rewrite processWithProgress_run_eq, enough_fuel by trivial; reflexivity|].
  cbn [st_trace]. fold c. fold ws.
  split; [reflexivity|]. split; [reflexivity|].
  intros t [-> | ->]; split.
  - apply delays_schedule, process_events_delays.
  - intros pre k' s post k H Hlt.
    eapply (@schedule_order (process_events P C operation options) c Hpos
              (process_events_dispatches P C operation options)
              (process_events_settles P C operation options)
              sources 0); eauto. lia.
  - apply delays_schedule, progress_events_delays.
  - intros pre k' s post k H Hlt.
    eapply (@schedule_order
              (progress_events P C' operation options
                 (Z.of_nat (List.length sources)) onProgress) c Hpos
              (progress_events_dispatches P C' operation options _ _)
              (progress_events_settles P C' operation options _ _)
              sources 0); eauto. lia.
Qed.

Lemma windows_run_one_after_another_witness :
  (1 <= 2)%Z /\ (List.length Demo.sources < 4)%nat
  /\ windows_of 2 Demo.sources = [["a.png"; "b.png"]; ["c.png"]]%string
  /\ exists st,
       process_run Demo.providers Demo.clock 4 Demo.sources "resize" Demo.options 2
       = Some st
       /\ st_trace st
          = [EvDispatch 0 "a.png"; EvDispatch 1 "b.png"; EvSettle 1; EvSettle 0;
             EvDelay 100; EvDispatch 2 "c.png"; EvSettle 2]
       /\ delays (st_trace st) = [100%Z].
Proof.
  split; [lia|]. split; [cbn; lia|]. split; [reflexivity|].
  destruct (@windows_run_one_after_another Demo.providers Demo.clock Demo.clock
              Demo.sources "resize" Demo.options 2 true 4 ltac:(lia) ltac:(cbn; lia))
    as (_ & _ & st & st' & Hrun & _ & Ht & _ & Hd).
  exists st. split; [exact Hrun|]. split; [rewrite Ht; reflexivity|].
  exact (proj1 (Hd _ (or_introl eq_refl))).
Defined.

(** ** Source validation *)

Section Suffix.

Local Open Scope string_scope.

Lemma lower_dot (c : ascii) : Ascii.eqb (Str.lower c) "." = Ascii.eqb c ".".
Proof. destruct c as [[] [] [] [] [] [] [] []]; reflexivity. Qed.

Lemma prefix_dot (c : ascii) (s : string) :
  String.prefix "." (String c s) = Ascii.eqb c ".".
Proof.
  cbn [String.prefix]. destruct (ascii_dec "." c) as [<-|H].
  - now destruct s.
  - symmetry. apply Ascii.eqb_neq. congruence.
Qed.

Lemma includes_dot (s : string) :
  Str.includes s "."
  = match suffix_after_last_dot s with Some _ => true | None => false end.
Proof.
  induction s as [|c s IH]; [reflexivity|].
  cbn [Str.includes suffix_after_last_dot]. rewrite prefix_dot, IH.
  destruct (suffix_after_last_dot s); [apply orb_true_r|].
  destruct (Ascii.eqb c "."); reflexivity.
Qed.

Lemma suffix_toLower (s : string) :
  suffix_after_last_dot (Str.toLower s)
  = option_map Str.toLower (suffix_after_last_dot s).
Proof.
  induction s as [|c s IH]; [reflexivity|].
  cbn [Str.toLower suffix_after_last_dot]. rewrite IH, lower_dot.
  destruct (suffix_after_last_dot s); [reflexivity|].
  destruct (Ascii.eqb c "."); reflexivity.
Qed.

(** Ending with a dot and an extension is having this extension as the
    text after the last dot. *)
Lemma endsWith_extension (e : string) :
  Str.includes e "." = false ->
  forall t,
    Str.endsWith t ("." ++ e)
    = match suffix_after_last_dot t with
      | Some x => String.eqb x e
      | None => false
      end.
Proof.
  intros He. change ("." ++ e) with (String "." e).
  induction t as [|c t IH]; [reflexivity|].
  cbn [Str.endsWith suffix_after_last_dot String.eqb]. rewrite IH.
  destruct (suffix_after_last_dot t) as [x|] eqn:E.
  - destruct (Ascii.eqb c "."); [|reflexivity]. cbn [andb].
    destruct (String.eqb_spec t e) as [->|_]; [|reflexivity].
    rewrite includes_dot, E in He. discriminate.
  - rewrite orb_false_r. destruct (Ascii.eqb c "."); reflexivity.
Qed.

Lemma extension_regex_suffix (s : string) :
  Str.includes s "." && extension_regex_test s
  = match suffix_after_last_dot s with
    | Some x => existsb (String.eqb (Str.toLower x)) image_extensions
    | None => false
    end.
Proof.
  rewrite includes_dot. unfold extension_regex_test, image_extensions.
  cbn [existsb]. rewrite !endsWith_extension by reflexivity.
  rewrite suffix_toLower.
  destruct (suffix_after_last_dot s); reflexivity.
Qed.

End Suffix.

Lemma validate_fold (p : string -> bool) (l : list string) : forall valid invalid,
  fold_left
    (fun acc src =>
       let '(v, i) := acc in
       if p src then (v ++ [src], i) else (v, i ++ [src]))
    l (valid, invalid)
  = (valid ++ filter p l, invalid ++ filter (fun s => negb (p s)) l).
Proof.
  induction l as [|a l IH]; intros valid invalid; cbn [fold_left filter].
  - now rewrite !app_nil_r.
  - destruct (p a); rewrite IH; cbn [negb]; now rewrite <- app_assoc.
Qed.

Lemma filter_partition (A : Type) (p : A -> bool) (l : list A) :
  Permutation (filter p l ++ filter (fun a => negb (p a)) l) l.
Proof.
  induction l as [|a l IH]; [reflexivity|].
  cbn [filter]. destruct (p a); cbn [negb app].
  - now constructor.
  - symmetry. apply Permutation_cons_app. now symmetry.
Qed.

(** C8. [validateSources] splits its input into the valid and the invalid
    sources, each in input order, and a source is valid exactly by the
    rules: a text starting with "http://" or "https://" when the URL
    constructor accepts it; otherwise a text starting with "data:image/";
    otherwise a text with a dot whose suffix after the last dot is, up to
    case, one of the eight image extensions. The five sample sources are
    classified as listed, the first of them provided the URL constructor
    accepts it. *)
Theorem validateSources_classifies
        (URL_parses : string -> bool) (sources : list string) :
  let valid := isValidSource URL_parses in
  validateSources URL_parses sources
  = (filter valid sources, filter (fun s => negb (valid s)) sources)
  /\ Permutation (fst (validateSources URL_parses sources)
                  ++ snd (validateSources URL_parses sources)) sources
  /\ (forall s, valid s = classified_valid URL_parses s)
  /\ (URL_parses "https://a.b/x.jpg"%string = true ->
      valid "https://a.b/x.jpg"%string = true)
  /\ valid "not a url"%string = false
  /\ valid "data:image/png;base64,AAAA"%string = true
  /\ valid "photo.png"%string = true
  /\ valid "photo.txt"%string = false.
Proof.
  cbv zeta.
  assert (H : validateSources URL_parses sources
              = (filter (isValidSource URL_parses) sources,
                 filter (fun s => negb (isValidSource URL_parses s)) sources)).
  { unfold validateSources. now rewrite validate_fold. }
  split; [exact H|]. split; [rewrite H; apply filter_partition|].
  split.
  - intros s. unfold isValidSource, classified_valid.
    destruct (_ || _)%bool; [now destruct (URL_parses s)|].
    destruct (Str.startsWith s "data:image/"); [reflexivity|].
    rewrite extension_regex_suffix.
    destruct (suffix_after_last_dot s) as [x|]; [|reflexivity].
    now destruct (existsb _ _).
  - repeat split; try reflexivity.
    intros Hurl. unfold isValidSource. cbn. now rewrite Hurl.
Qed.

Lemma validateSources_classifies_witness :
  Demo.URL_parses "https://a.b/x.jpg"%string = true
  /\ isValidSource Demo.URL_parses "https://a.b/x.jpg"%string = true
  /\ validateSources Demo.URL_parses
       ["https://a.b/x.jpg"; "not a url"; "data:image/png;base64,AAAA";
        "photo.png"; "photo.txt"; "http://a b"; "scan.TIFF"]%string
     = (["https://a.b/x.jpg"; "data:image/png;base64,AAAA"; "photo.png"; "scan.TIFF"],
        ["not a url"; "photo.txt"; "http://a b"])%string.
Proof.
  split; [reflexivity|]. split.
  - exact (proj1 (proj2 (proj2 (proj2
             (validateSources_classifies Demo.URL_parses []))))
             eq_refl).
  - rewrite (proj1 (validateSources_classifies Demo.URL_parses _)). reflexivity.
Defined.

(** * Further properties of the batch engine *)

(** ** Promises in flight *)

Lemma in_flight_cons (e : Event) (t : list Event) :
  in_flight (e :: t) = (weight e + in_flight t)%Z.
Proof. reflexivity. Qed.

Lemma in_flight_app (t u : list Event) :
  in_flight (t ++ u) = (in_flight t + in_flight u)%Z.
Proof.
  induction t as [|e t IH]; [reflexivity|].
  cbn [app]. rewrite !in_flight_cons, IH. lia.
Qed.

Lemma in_flight_rising (t pre post : list Event) :
  Forall (fun e => (0 <= weight e)%Z) t ->
  t = pre ++ post ->
  (0 <= in_flight pre <= in_flight t)%Z.
Proof.
  intros Hall ->. apply Forall_app in Hall. destruct Hall as [Hpre Hpost].
  rewrite in_flight_app.
  assert (H0 : forall u, Forall (fun e => (0 <= weight e)%Z) u -> (0 <= in_flight u)%Z).
  { induction 1 as [|e u He _ IH]; [cbn; lia|].
    rewrite in_flight_cons. lia. }
  pose proof (H0 _ Hpre). pose proof (H0 _ Hpost). lia.
Qed.

Lemma in_flight_falling (t pre post : list Event) :
  Forall (fun e => (weight e <= 0)%Z) t ->
  t = pre ++ post ->
  (in_flight t <= in_flight pre <= 0)%Z.
Proof.
  intros Hall ->. apply Forall_app in Hall. destruct Hall as [Hpre Hpost].
  rewrite in_flight_app.
  assert (H0 : forall u, Forall (fun e => (weight e <= 0)%Z) u -> (in_flight u <= 0)%Z).
  { induction 1 as [|e u He _ IH]; [cbn; lia|].
    rewrite in_flight_cons. lia. }
  pose proof (H0 _ Hpre). pose proof (H0 _ Hpost). lia.
Qed.

(** A list of events made of a rising part followed by a falling part
    that brings the count back to 0. *)
Lemma in_flight_hill (up down pre post : list Event) :
  Forall (fun e => (0 <= weight e)%Z) up ->
  Forall (fun e => (weight e <= 0)%Z) down ->
  (in_flight up + in_flight down = 0)%Z ->
  up ++ down = pre ++ post ->
  (0 <= in_flight pre <= in_flight up)%Z.
Proof.
  intros Hup Hdown Hsum H.
  apply app_eq_app in H. destruct H as (m & [[H1 H2]|[H1 H2]]).
  - eapply in_flight_rising; eauto.
  - subst pre. rewrite in_flight_app.
    pose proof (@in_flight_falling down m post Hdown H2). lia.
Qed.

Section InFlight.

Variable P : Providers.
Variable C : Clock.
Variable operation : string.
Variable options : Options.

Lemma dispatch_rises (l : list string) : forall k,
  Forall (fun e => (0 <= weight e)%Z) (fst (dispatch P k l operation options))
  /\ in_flight (fst (dispatch P k l operation options)) = Z.of_nat (List.length l).
Proof.
  induction l as [|a l IH]; intros k; [split; [constructor | reflexivity]|].
  destruct (IH (S k)) as [Hall Hsum].
  rewrite dispatch_cons. cbn [fst].
  assert (Hsingle : Forall (fun e => (0 <= weight e)%Z)
                           (fst (processSingle P k a operation options))
                    /\ in_flight (fst (processSingle P k a operation options)) = 0%Z).
  { unfold processSingle, awaited.
    repeat match goal with
           | |- context [if ?b then _ else _] => destruct b
           | |- context [match truthy ?v with _ => _ end] => destruct (truthy v)
           end; cbn; split; try reflexivity; repeat constructor; cbn; lia. }
  destruct Hsingle as [Hs1 Hs2]. split.
  - constructor; [cbn; lia|]. apply Forall_app. now split.
  - change (EvDispatch k a :: ?t) with ([EvDispatch k a] ++ t).
    rewrite !in_flight_app, Hs2, Hsum. cbn [List.length].
    rewrite in_flight_cons.
    change (weight (EvDispatch k a)) with 1%Z. change (in_flight []) with 0%Z. lia.
Qed.

Lemma settles_fall (order : list nat) :
  Forall (fun e => (weight e <= 0)%Z) (map EvSettle order)
  /\ in_flight (map EvSettle order) = (- Z.of_nat (List.length order))%Z.
Proof.
  induction order as [|k order [IH1 IH2]]; [split; [constructor | reflexivity]|].
  cbn [map List.length]. split.
  - constructor; [cbn; lia | exact IH1].
  - rewrite in_flight_cons, IH2. change (weight (EvSettle k)) with (-1)%Z. lia.
Qed.

Lemma notify_falls (n : Z) (b : bool) : forall order c0,
  Forall (fun e => (weight e <= 0)%Z) (snd (fold_left (notify n b) order (c0, [])))
  /\ in_flight (snd (fold_left (notify n b) order (c0, [])))
     = (- Z.of_nat (List.length order))%Z.
Proof.
  induction order as [|k order IH]; intros c0; [split; [constructor | reflexivity]|].
  destruct (IH (c0 + 1)%Z) as [IH1 IH2].
  rewrite notify_cons, in_flight_app, IH2. split.
  - apply Forall_app. split; [|exact IH1].
    unfold notify. cbn [fst snd app].
    destruct b; repeat constructor; cbn; lia.
  - unfold notify. cbn [fst snd app List.length].
    destruct b; rewrite !in_flight_cons; cbn [weight];
      change (in_flight []) with 0%Z; lia.
Qed.

Lemma process_events_hill (k : nat) (pre post : list Event) (l : list string) :
  process_events P C operation options k l = pre ++ post ->
  (0 <= in_flight pre <= Z.of_nat (List.length l))%Z.
Proof.
  unfold process_events. intros H.
  destruct (dispatch_rises l k) as [Hup Hsum].
  destruct (settles_fall (settle_order C (seq k (List.length l)))) as [Hdown Hd].
  rewrite <- Hsum. eapply in_flight_hill; eauto.
  rewrite Hsum, Hd, settle_order_length, length_seq. lia.
Qed.

Lemma progress_events_hill (n : Z) (b : bool) (k : nat) (pre post : list Event)
      (l : list string) :
  progress_events P C operation options n b k l = pre ++ post ->
  (0 <= in_flight pre <= Z.of_nat (List.length l))%Z.
Proof.
  unfold progress_events. intros H.
  destruct (dispatch_rises l k) as [Hup Hsum].
  destruct (notify_falls n b (settle_order C (seq k (List.length l))) (Z.of_nat k))
    as [Hdown Hd].
  rewrite <- Hsum. eapply in_flight_hill; eauto.
  rewrite Hsum, Hd, settle_order_length, length_seq. lia.
Qed.

Lemma process_events_level (k : nat) (l : list string) :
  in_flight (process_events P C operation options k l) = 0%Z.
Proof.
  unfold process_events. rewrite in_flight_app.
  destruct (dispatch_rises l k) as [_ ->].
  destruct (settles_fall (settle_order C (seq k (List.length l)))) as [_ ->].
  rewrite settle_order_length, length_seq. lia.
Qed.

Lemma progress_events_level (n : Z) (b : bool) (k : nat) (l : list string) :
  in_flight (progress_events P C operation options n b k l) = 0%Z.
Proof.
  unfold progress_events. rewrite in_flight_app.
  destruct (dispatch_rises l k) as [_ ->].
  destruct (notify_falls n b (settle_order C (seq k (List.length l))) (Z.of_nat k))
    as [_ ->].
  rewrite settle_order_length, length_seq. lia.
Qed.

End InFlight.

Section ScheduleInFlight.

Variable W : nat -> list string -> list Event.
Variable c : Z.
Hypothesis c_nonneg : (0 <= c)%Z.
Hypothesis hill :
  forall k l pre post,
    W k l = pre ++ post -> (0 <= in_flight pre <= Z.of_nat (List.length l))%Z.
Hypothesis level : forall k l, in_flight (W k l) = 0%Z.

Lemma schedule_level (ws : list (list string)) : forall k,
  in_flight (schedule W k ws) = 0%Z.
Proof.
  induction ws as [|w ws IH]; intros k; [reflexivity|].
  cbn [schedule]. rewrite in_flight_app, level.
  destruct ws as [|w' ws]; [reflexivity|].
  rewrite in_flight_cons, IH. reflexivity.
Qed.

Lemma schedule_in_flight (ws : list (list string)) :
  Forall (fun w => (Z.of_nat (List.length w) <= c)%Z) ws ->
  forall k pre post,
    schedule W k ws = pre ++ post -> (0 <= in_flight pre <= c)%Z.
Proof.
  induction 1 as [|w ws Hw Hall IH]; intros k pre post H.
  - destruct pre; [cbn; lia | discriminate].
  - cbn [schedule] in H.
    apply app_eq_app in H. destruct H as (m & [[H1 H2]|[H1 H2]]).
    + pose proof (hill _ _ H1). lia.
    + subst pre. rewrite in_flight_app, level.
      destruct ws as [|w' ws].
      * destruct m; [cbn; lia | discriminate].
      * destruct m as [|e m]; [cbn; lia|].
        injection H2 as <- H2.
        change (schedule W (k + List.length w) (w' :: ws) = m ++ post) in H2.
        apply IH in H2. rewrite in_flight_cons. cbn [weight]. lia.
Qed.

End ScheduleInFlight.

Lemma windows_of_bounded (A : Type) (c : nat) (Hc : (1 <= c)%nat) (l : list A) :
  Forall (fun w => (List.length w <= c)%nat) (windows_of c l).
Proof.
  induction l as [|a l IH] using (window_ind Hc); [constructor|].
  rewrite windows_of_cons by trivial. constructor; [|exact IH].
  rewrite length_firstn. lia.
Qed.



(** ** Percentages *)

Lemma aggregate_whole_percentage (rs : list Entry) (t : Z) :
  rs <> [] ->
  exists p, whole_percentage (aggregate rs t) p.
Proof.
  intros Hne.
  assert (Hlen : (0 < Z.of_nat (List.length rs))%Z).
  { destruct rs; [congruence | cbn [List.length]; lia]. }
  assert (Hok : (Z.of_nat (List.length (filter success rs))
                 <= Z.of_nat (List.length rs))%Z).
  { apply inj_le, filter_length_le. }
  destruct (@percent_range (Z.of_nat (List.length (filter success rs)))
                           (Z.of_nat (List.length rs)) ltac:(lia) Hlen)
    as (p & Hp & Hrange).
  exists p. unfold whole_percentage. rewrite aggregate_successRate.
  cbn [aggregate successful failed totalProcessed].
  split; [exact Hp|]. split; [exact Hrange|]. split.
  - intros Hf.
    replace (Z.of_nat (List.length (filter success rs)))
      with (Z.of_nat (List.length rs)) in Hp by lia.
    rewrite (percent_whole Hlen) in Hp. apply of_Z_inj in Hp. lia.
  - intros E. rewrite E in Hp.
    rewrite (percent_none Hlen) in Hp. apply of_Z_inj in Hp. lia.
Qed.

(** The percentages of the counts [a], [a + 1], ... up to [n]: whole
    numbers between 0 and 100 that do not decrease. *)
Lemma percentages_sorted (n : nat) (len : nat) : forall a,
  (0 < n)%nat -> (a + len <= S n)%nat ->
  exists ps,
    map (fun j => percent (Z.of_nat j) (Z.of_nat n)) (seq a len) = map JS.of_Z ps
    /\ List.length ps = len
    /\ StronglySorted Z.le ps
    /\ Forall (fun p => (0 <= p <= 100)%Z) ps
    /\ forall p0, percent (Z.of_nat a) (Z.of_nat n) = JS.of_Z p0 ->
                  Forall (Z.le p0) ps.
Proof.
  induction len as [|len IH]; intros a Hn Ha.
  - exists []. repeat split; constructor.
  - destruct (IH (S a) Hn ltac:(lia)) as (ps & Hmap & Hlen & Hsorted & Hrange & Hfrom).
    destruct (@percent_range (Z.of_nat a) (Z.of_nat n) ltac:(lia) ltac:(lia))
      as (p & Hp & Hpr).
    assert (Hnext : Forall (Z.le p) ps).
    { destruct len as [|len'].
      - destruct ps; [constructor | discriminate].
      - destruct (@percent_range (Z.of_nat (S a)) (Z.of_nat n) ltac:(lia) ltac:(lia))
          as (p1 & Hp1 & _).
        pose proof (@percent_mono (Z.of_nat a) (Z.of_nat (S a)) (Z.of_nat n) p p1
                      ltac:(lia) ltac:(lia) ltac:(lia) Hp Hp1) as Hle.
        eapply Forall_impl; [|exact (Hfrom p1 Hp1)]. cbn. intros; lia. }
    exists (p :: ps). cbn [seq map List.length]. rewrite Hmap, Hp, Hlen.
    repeat split; try (constructor; assumption).
    intros p0 Hp0. apply of_Z_inj in Hp0. subst p0.
    constructor; [lia | exact Hnext].
Qed.

(** The percentages reported to a callback that returns: whole numbers
    between 0 and 100, each at least as large as the one before. *)
Lemma percentages_with_the_flag
        (P : Providers) (C : Clock) (sources : list string) (operation : string)
        (options : Options) (concurrency : Z) (fuel : nat) :
  (1 <= concurrency)%Z ->
  (List.length sources < fuel)%nat ->
  exists st ps,
    processWithProgress_run P C fuel sources operation options concurrency true
    = Some st
    /\ map percentage (reports (st_trace st)) = map JS.of_Z ps
    /\ List.length ps = List.length sources
    /\ StronglySorted Z.le ps
    /\ Forall (fun p => (0 <= p <= 100)%Z) ps.
Proof.
  intros Hc Hf.
  set (n := List.length sources).
  exists {| st_results := entries P operation options caught_entry 0 sources;
            st_completed := Z.of_nat n;
            st_issued := n;
            st_windows := List.length (windows_of (Z.to_nat concurrency) sources);
            st_trace :=
              schedule (progress_events P C operation options (Z.of_nat n) true) 0
                       (windows_of (Z.to_nat concurrency) sources) |}.
  destruct (Nat.eq_dec n 0) as [E|E].
  - exists []. split; [rewrite processWithProgress_run_eq, enough_fuel by trivial;
                       reflexivity|].
    cbn [st_trace]. rewrite schedule_reports, concat_ws by trivial. fold n.
    rewrite E. repeat split; constructor.
  - destruct (@percentages_sorted n n 1 ltac:(lia) ltac:(lia))
      as (ps & Hmap & Hlen & Hsorted & Hrange & _).
    exists ps. split; [rewrite processWithProgress_run_eq, enough_fuel by trivial;
                       reflexivity|].
    cbn [st_trace]. rewrite schedule_reports, concat_ws by trivial. fold n.
    rewrite map_map. cbn [report percentage].
    repeat split; assumption.
Qed.

(** ** Provider calls of a run *)

Lemma numbered_app (mk : string -> Call) (l1 l2 : list string) (k : nat) :
  numbered mk k (l1 ++ l2) = numbered mk k l1 ++ numbered mk (k + List.length l1) l2.
Proof.
  unfold numbered. rewrite length_app, seq_app, combine_app, map_app.
  - reflexivity.
  - now rewrite length_seq.
Qed.

Lemma numbered_indices (mk : string -> Call) (l : list string) : forall k,
  map fst (numbered mk k l) = seq k (List.length l).
Proof.
  unfold numbered. induction l as [|a l IH]; intros k; [reflexivity|].
  cbn [List.length seq combine map fst]. now rewrite IH.
Qed.

Lemma numbered_sources (mk : string -> Call) (l : list string) : forall k,
  map (fun kc => call_source (snd kc)) (numbered mk k l)
  = map (fun s => call_source (mk s)) l.
Proof.
  unfold numbered. induction l as [|a l IH]; intros k; [reflexivity|].
  cbn [List.length seq combine map fst snd]. now rewrite IH.
Qed.

Lemma map_ext_in_id (A : Type) (f : A -> A) (l : list A) :
  (forall a, In a l -> f a = a) -> map f l = l.
Proof.
  intros H. rewrite <- (map_id l) at 2. now apply map_ext_in.
Qed.

Section Calls.

Local Open Scope string_scope.

Variable P : Providers.
Variable C : Clock.
Variable operation : string.
Variable options : Options.

Lemma truthy_some (v : option string) (f : string) : truthy v = Some f -> v = Some f.
Proof.
  destruct v as [s|]; cbn; [|discriminate].
  destruct (String.eqb s ""); [discriminate|]. now intros [= ->].
Qed.

Lemma routed_calls :
  routed operation options ->
  exists mk,
    faithful_calls operation options mk
    /\ forall k s, fst (processSingle P k s operation options) = [EvInvoke k (mk s)].
Proof.
  intros [-> | [-> | [-> | [-> Hf]]]].
  - exists (fun s => Analyze s options). split; [|reflexivity].
    intros s. cbn. repeat split; congruence.
  - exists (fun s => Compress s options). split; [|reflexivity].
    intros s. cbn. repeat split; congruence.
  - exists (fun s => ExtractColors s options). split; [|reflexivity].
    intros s. cbn. repeat split; congruence.
  - destruct (truthy (targetFormat options)) as [f|] eqn:E; [|contradiction].
    exists (fun s => Convert s f options). split.
    + intros s. cbn. repeat split. intros _. symmetry. now apply truthy_some.
    + intros k s. unfold processSingle. cbn. now rewrite E.
Qed.

Lemma dispatch_invocations (mk : string -> Call) :
  (forall k s, fst (processSingle P k s operation options) = [EvInvoke k (mk s)]) ->
  forall l k,
    invocations (fst (dispatch P k l operation options)) = numbered mk k l.
Proof.
  intros Hmk. induction l as [|a l IH]; intros k; [reflexivity|].
  rewrite dispatch_cons. cbn [fst]. rewrite Hmk.
  unfold invocations in *. cbn [flat_map app]. rewrite IH. reflexivity.
Qed.

Lemma schedule_invocations (W : nat -> list string -> list Event)
      (mk : string -> Call) :
  (forall k w, invocations (W k w) = numbered mk k w) ->
  forall ws k,
    invocations (schedule W k ws) = numbered mk k (List.concat ws).
Proof.
  intros HW. unfold invocations in *.
  induction ws as [|w ws IH]; intros k; [reflexivity|].
  rewrite flat_map_schedule by reflexivity. cbn [gather List.concat].
  rewrite <- flat_map_schedule by reflexivity.
  now rewrite HW, IH, numbered_app.
Qed.

Lemma process_events_invocations (mk : string -> Call) :
  (forall k s, fst (processSingle P k s operation options) = [EvInvoke k (mk s)]) ->
  forall k w,
    invocations (process_events P C operation options k w) = numbered mk k w.
Proof.
  intros Hmk k w. unfold process_events, invocations. rewrite flat_map_app.
  fold (invocations (fst (dispatch P k w operation options))).
  rewrite (dispatch_invocations mk Hmk).
  induction (settle_order C (seq k (List.length w))); [apply app_nil_r | assumption].
Qed.

Lemma progress_events_invocations (mk : string -> Call) (n : Z) (b : bool) :
  (forall k s, fst (processSingle P k s operation options) = [EvInvoke k (mk s)]) ->
  forall k w,
    invocations (progress_events P C operation options n b k w) = numbered mk k w.
Proof.
  intros Hmk k w. unfold progress_events, invocations. rewrite flat_map_app.
  fold (invocations (fst (dispatch P k w operation options))).
  rewrite (dispatch_invocations mk Hmk).
  rewrite notify_events_only by reflexivity. apply app_nil_r.
Qed.

End Calls.



(** ** Validating twice *)

Lemma filter_filter_same (A : Type) (p : A -> bool) (l : list A) :
  filter p (filter p l) = filter p l
  /\ filter (fun a => negb (p a)) (filter p l) = []
  /\ filter p (filter (fun a => negb (p a)) l) = []
  /\ filter (fun a => negb (p a)) (filter (fun a => negb (p a)) l)
     = filter (fun a => negb (p a)) l.
Proof.
  induction l as [|a l (H1 & H2 & H3 & H4)]; [repeat split|].
  cbn [filter]. destruct (p a) eqn:E; cbn [negb filter]; rewrite ?E; cbn [negb];
    repeat split; congruence.
Qed.

(** X5. Validation is stable: what [validateSources] returned as valid is
    all valid when validated again, what it returned as invalid is all
    invalid again, and no source is lost or duplicated. *)
Theorem validation_is_stable (URL_parses : string -> bool) (sources : list string) :
  let r := validateSources URL_parses sources in
  validateSources URL_parses (fst r) = (fst r, [])
  /\ validateSources URL_parses (snd r) = ([], snd r)
  /\ (List.length (fst r) + List.length (snd r) = List.length sources)%nat.
Proof.
  cbv zeta. unfold validateSources. rewrite !validate_fold. cbn [fst snd app].
  destruct (filter_filter_same (isValidSource URL_parses) sources)
    as (H1 & H2 & H3 & H4).
  rewrite H1, H2, H3, H4. repeat split.
  rewrite <- length_app. apply Permutation_length, filter_partition.
Qed.

(** * Properties of ImageUtils *)

(** ** Image type detection *)

Lemma slice_nat (A : Type) (l : list A) (s e : nat) :
  JS.slice l (Z.of_nat s) (Z.of_nat e) = firstn (e - s) (skipn s l).
Proof.
  unfold JS.slice.
  destruct (Z.ltb_spec (Z.of_nat s) 0); [lia|].
  destruct (Z.ltb_spec (Z.of_nat e) 0); [lia|].
  destruct (Nat.le_gt_cases s (List.length l)) as [Hs|Hs].
  - rewrite (Z.min_l (Z.of_nat s)) by lia. rewrite Nat2Z.id.
    destruct (Nat.le_gt_cases e (List.length l)) as [He|He].
    + rewrite Z.min_l by lia. f_equal. lia.
    + rewrite Z.min_r by lia.
      rewrite !firstn_all2; trivial; rewrite length_skipn; lia.
  - rewrite (Z.min_r (Z.of_nat s)) by lia. rewrite Nat2Z.id.
    rewrite !skipn_all2 by lia. now rewrite !firstn_nil.
Qed.

Lemma byte_is_firstn (b : ImageUtils.Buffer) (n i : nat) (v : Byte.byte) :
  (i < n)%nat ->
  ImageUtils.byte_is (firstn n b) i v = ImageUtils.byte_is b i v.
Proof.
  intros H. unfold ImageUtils.byte_is. now rewrite nth_error_firstn, (proj2 (Nat.ltb_lt i n) H).
Qed.

Lemma byte_is_app (b e : ImageUtils.Buffer) (i : nat) (v : Byte.byte) :
  (i < List.length b)%nat ->
  ImageUtils.byte_is (b ++ e) i v = ImageUtils.byte_is b i v.
Proof.
  intros H. unfold ImageUtils.byte_is. now rewrite nth_error_app1.
Qed.

(** The detected type in terms of the first bytes. *)
Lemma getImageInfo_type (b : ImageUtils.Buffer) :
  snd (ImageUtils.getImageInfo b)
  = if (4 <=? List.length b)%nat then
      if ImageUtils.byte_is b 0 Byte.xff && ImageUtils.byte_is b 1 Byte.xd8
      then Some "jpeg"%string
      else if ImageUtils.byte_is b 0 Byte.x89 && ImageUtils.byte_is b 1 Byte.x50
              && ImageUtils.byte_is b 2 Byte.x4e && ImageUtils.byte_is b 3 Byte.x47
      then Some "png"%string
      else if ImageUtils.byte_is b 0 Byte.x47 && ImageUtils.byte_is b 1 Byte.x49
              && ImageUtils.byte_is b 2 Byte.x46
      then Some "gif"%string
      else if String.eqb (String.string_of_list_byte (firstn 4 (skipn 8 b))) "WEBP"
      then Some "webp"%string
      else None
    else None.
Proof.
  unfold ImageUtils.getImageInfo. cbn [snd].
  change (JS.slice b 0 4) with (JS.slice b (Z.of_nat 0) (Z.of_nat 4)).
  change (JS.slice b 8 12) with (JS.slice b (Z.of_nat 8) (Z.of_nat 12)).
  rewrite !slice_nat. cbn [Nat.sub skipn].
  now rewrite !byte_is_firstn by lia.
Qed.

Lemma webp_tag_length (l : ImageUtils.Buffer) :
  String.eqb (String.string_of_list_byte l) "WEBP" = true -> List.length l = 4%nat.
Proof.
  intros H. apply String.eqb_eq in H.
  apply (f_equal String.list_byte_of_string) in H.
  rewrite String.list_byte_of_string_of_list_byte in H. now subst l.
Qed.

Lemma firstn_skipn_app (A : Type) (n m : nat) (l e : list A) :
  (m + n <= List.length l)%nat ->
  firstn n (skipn m (l ++ e)) = firstn n (skipn m l).
Proof.
  intros H. rewrite skipn_app, firstn_app.
  replace (m - List.length l)%nat with 0%nat by lia.
  rewrite length_skipn. replace (n - (List.length l - m))%nat with 0%nat by lia.
  cbn [firstn skipn]. apply app_nil_r.
Qed.

(** X6. The image type is read off the first bytes only. A buffer
    [validateImageBuffer] accepts has at least 4 bytes, and whatever is
    appended to it, it stays accepted with the same type; the type of a
    buffer of 12 bytes or more does not depend on what follows them. *)
Theorem detection_reads_the_head (b e : ImageUtils.Buffer) :
  fst (ImageUtils.getImageInfo b) = Z.of_nat (List.length b)
  /\ (ImageUtils.validateImageBuffer b = true ->
      (4 <= List.length b)%nat
      /\ ImageUtils.validateImageBuffer (b ++ e) = true
      /\ snd (ImageUtils.getImageInfo (b ++ e)) = snd (ImageUtils.getImageInfo b))
  /\ ((12 <= List.length b)%nat ->
      snd (ImageUtils.getImageInfo (b ++ e)) = snd (ImageUtils.getImageInfo b)).
Proof.
  split; [reflexivity|].
  assert (Hstable :
            (4 <= List.length b)%nat ->
            (String.eqb (String.string_of_list_byte (firstn 4 (skipn 8 (b ++ e)))) "WEBP"
             = String.eqb (String.string_of_list_byte (firstn 4 (skipn 8 b))) "WEBP"
             \/ snd (ImageUtils.getImageInfo b) <> None
                /\ String.eqb (String.string_of_list_byte (firstn 4 (skipn 8 b))) "WEBP"
                   = false) ->
            snd (ImageUtils.getImageInfo (b ++ e)) = snd (ImageUtils.getImageInfo b)).
  { intros H4 Hw. rewrite !getImageInfo_type, length_app.
    rewrite (proj2 (Nat.leb_le 4 (List.length b)) H4).
    rewrite (proj2 (Nat.leb_le 4 (List.length b + List.length e)) ltac:(lia)).
    rewrite !byte_is_app by lia.
    destruct Hw as [-> | [Hsome Hno]]; [reflexivity|].
    rewrite getImageInfo_type, (proj2 (Nat.leb_le 4 (List.length b)) H4), Hno in Hsome.
    rewrite Hno.
    repeat match goal with
           | |- context [if ?c then _ else _] =>
               match c with
               | String.eqb _ _ => fail 1
               | _ => destruct c eqn:?
               end
           end; try reflexivity; try congruence.
    all: repeat match goal with
           | H : context [if ?c then _ else _] |- _ => rewrite ?Heqb0, ?Heqb1, ?Heqb2 in H
           end; cbn in Hsome; congruence. }
  split.
  - intros Hv.
    assert (Hsome : snd (ImageUtils.getImageInfo b) <> None).
    { unfold ImageUtils.validateImageBuffer in Hv.
      destruct (List.length b =? 0)%nat; [discriminate|].
      destruct (snd (ImageUtils.getImageInfo b)); [discriminate | discriminate]. }
    assert (H4 : (4 <= List.length b)%nat).
    { rewrite getImageInfo_type in Hsome.
      destruct (Nat.leb_spec 4 (List.length b)); [trivial | contradiction]. }
    assert (Hsame : snd (ImageUtils.getImageInfo (b ++ e))
                    = snd (ImageUtils.getImageInfo b)).
    { apply Hstable; trivial.
      destruct (String.eqb (String.string_of_list_byte (firstn 4 (skipn 8 b))) "WEBP")
        eqn:Ew; [left | right; split; trivial].
      pose proof (webp_tag_length _ Ew) as Hl.
      rewrite length_firstn, length_skipn in Hl.
      rewrite firstn_skipn_app by lia. exact Ew. }
    split; [exact H4|]. split; [|exact Hsame].
    unfold ImageUtils.validateImageBuffer. rewrite length_app, Hsame.
    destruct (Nat.eqb_spec (List.length b + List.length e) 0); [lia|].
    destruct (snd (ImageUtils.getImageInfo b)); [reflexivity | congruence].
  - intros H12. apply Hstable; [lia|].
    left. now rewrite firstn_skipn_app by lia.
Qed.

Lemma detection_reads_the_head_witness :
  ImageUtils.validateImageBuffer [Byte.xff; Byte.xd8; Byte.xff; Byte.xe0] = true
  /\ snd (ImageUtils.getImageInfo
            ([Byte.xff; Byte.xd8; Byte.xff; Byte.xe0] ++ [Byte.x00; Byte.x10]))
     = Some "jpeg"%string.
Proof.
  split; [reflexivity|].
  destruct (detection_reads_the_head
              [Byte.xff; Byte.xd8; Byte.xff; Byte.xe0] [Byte.x00; Byte.x10])
    as (_ & H & _).
  destruct (H eq_refl) as (_ & _ & ->). reflexivity.
Defined.

(** ** Loading *)

Section Loading.

Local Open Scope string_scope.

Lemma strip_prefix_append (p : string) : forall s r,
  ImageUtils.strip_prefix p s = Some r -> s = p ++ r.
Proof.
  induction p as [|a p IH]; intros s r H; cbn in H.
  - now injection H as ->.
  - destruct s as [|b s]; [discriminate|].
    destruct (Ascii.eqb_spec a b) as [->|]; [|discriminate].
    cbn. f_equal. now apply IH.
Qed.

Lemma span_letters_append (s : string) : forall letters after,
  ImageUtils.span_letters s = (letters, after) -> s = letters ++ after.
Proof.
  induction s as [|c s IH]; intros letters after H; cbn in H.
  - now injection H as <- <-.
  - destruct (ImageUtils.is_letter c).
    + destruct (ImageUtils.span_letters s) as [l a] eqn:E.
      injection H as <- <-. cbn. f_equal. now apply IH.
    + now injection H as <- <-.
Qed.

Lemma startsWith_append (p r : string) : Str.startsWith (p ++ r) p = true.
Proof.
  unfold Str.startsWith. induction p as [|a p IH]; cbn [append String.prefix].
  - now destruct r.
  - destruct (ascii_dec a a); [exact IH | contradiction].
Qed.

(** The two groups of the regular expression put the data URL together
    again. *)
Lemma match_data_url_parts (s format data : string) :
  ImageUtils.match_data_url s = Some (format, data) ->
  s = "data:image/" ++ format ++ ";base64," ++ data
  /\ format <> "" /\ data <> "".
Proof.
  unfold ImageUtils.match_data_url. intros H.
  destruct (ImageUtils.strip_prefix "data:image/" s) as [after|] eqn:E1; [|discriminate].
  destruct (ImageUtils.span_letters after) as [fmt after_format] eqn:E2.
  destruct (String.eqb_spec fmt ""); [discriminate|].
  destruct (ImageUtils.strip_prefix ";base64," after_format) as [d|] eqn:E3;
    [|discriminate].
  destruct (String.eqb_spec d ""); [discriminate|].
  destruct (ImageUtils.has_line_terminator d); [discriminate|].
  cbn [orb] in H. injection H as <- <-.
  apply strip_prefix_append in E1, E3. apply span_letters_append in E2.
  subst. repeat split; assumption.
Qed.

End Loading.

(** X7. A data URL that [loadImage] accepts has the form
    [data:image/<format>;base64,<data>] with one of the eight supported
    formats and data that is not empty; the buffer is the decoded data,
    and [validateSources] classifies the URL as valid whatever the URL
    constructor does. *)
Theorem accepted_data_urls
        (L : ImageUtils.Platform) (source : string) (buffer : ImageUtils.Buffer) :
  Str.startsWith source "data:image/" = true ->
  ImageUtils.loadImage L source = inl buffer ->
  exists format data,
    source = ("data:image/" ++ format ++ ";base64," ++ data)%string
    /\ In ("image/" ++ format)%string ImageUtils.SUPPORTED_FORMATS
    /\ data <> ""%string
    /\ buffer = ImageUtils.from_base64 L data
    /\ forall URL_parses, isValidSource URL_parses source = true.
Proof.
  intros Hd Hload.
  assert (Hhttp : (Str.startsWith source "http://"
                   || Str.startsWith source "https://")%bool = false).
  { unfold Str.startsWith in *. destruct source as [|c source]; [discriminate|].
    cbn [String.prefix] in Hd. destruct (ascii_dec "d" c) as [<-|]; [|discriminate].
    reflexivity. }
  unfold ImageUtils.loadImage in Hload. rewrite Hhttp, Hd in Hload.
  unfold ImageUtils.loadFromBase64 in Hload.
  destruct (ImageUtils.match_data_url source) as [[format data]|] eqn:Em;
    [|discriminate].
  destruct (ImageUtils.supported ("image/" ++ format)) eqn:Es; [|discriminate].
  injection Hload as <-.
  destruct (match_data_url_parts _ Em) as (Hs & Hf & Hdata).
  exists format, data. repeat split; trivial.
  - unfold ImageUtils.supported in Es. apply existsb_exists in Es.
    destruct Es as (x & Hin & Hx). apply String.eqb_eq in Hx. now subst x.
  - intros U. unfold isValidSource. now rewrite Hhttp, Hd.
Qed.

Lemma accepted_data_urls_witness :
  exists buffer,
    ImageUtils.loadImage
      offline
      "data:image/png;base64,iQ==" = inl buffer
    /\ isValidSource Demo.URL_parses "data:image/png;base64,iQ=="%string = true.
Proof.
  exists [Byte.x89]. split; [reflexivity|].
  destruct (@accepted_data_urls
              offline
              "data:image/png;base64,iQ==" [Byte.x89] eq_refl eq_refl)
    as (f & d & _ & _ & _ & _ & H).
  apply H.
Defined.

(** What [loadImage] fails with says where the image was to come from. *)
Lemma loadImage_failure (L : ImageUtils.Platform) (source message : string) :
  ImageUtils.loadImage L source = inr message ->
  Str.startsWith message "Failed to load image from " = true.
Proof.
  unfold ImageUtils.loadImage, ImageUtils.loadFromUrl, ImageUtils.loadFromBase64,
    ImageUtils.loadFromFile.
  repeat match goal with
         | |- context [if ?b then _ else _] => destruct b
         | |- context [match ?x with _ => _ end] => destruct x
         end;
    intros H; inversion H; reflexivity.
Qed.

Lemma processSingle_unloadable
      (L : ImageUtils.Platform)
      (body : nat -> Call -> ImageUtils.Buffer -> Payload + string)
      (elapsed : nat -> Z) (k : nat) (source operation : string)
      (options : Options) (message : string) :
  routed operation options ->
  ImageUtils.loadImage L source = inr message ->
  snd (processSingle (providers_over L body elapsed) k source operation options)
  = Rejected (ErrorObject (failure_prefix operation ++ message)).
Proof.
  intros Hr Hl. unfold processSingle, failure_prefix.
  destruct Hr as [-> | [-> | [-> | [-> Hf]]]]; cbn [String.eqb Ascii.eqb Bool.eqb].
  - unfold analyze, awaited, providers_over; cbn. now rewrite Hl.
  - unfold compress, awaited, providers_over; cbn. now rewrite Hl.
  - unfold extract, awaited, providers_over; cbn. now rewrite Hl.
  - destruct (truthy (targetFormat options)); [|contradiction].
    unfold convert, awaited, providers_over; cbn. now rewrite Hl.
Qed.

Lemma failure_prefix_not_empty (operation message : string) :
  (failure_prefix operation ++ message)%string <> ""%string.
Proof.
  unfold failure_prefix.
  repeat match goal with |- context [if ?b then _ else _] => destruct b end;
    discriminate.
Qed.



(** ** The retrying download *)

Section Retry.

Variable world : Z -> ImageUtils.Platform.
Variable url : string.
Variable maxRetries : Z.

Lemma failed_attempts_S (from : Z) (count : nat) :
  failed_attempts from (S count)
  = ImageUtils.Attempt from :: ImageUtils.Wait (2 ^ from * 1000)
      :: failed_attempts (from + 1) count.
Proof.
  unfold failed_attempts. cbn [seq flat_map app]. rewrite Z.add_0_r.
  do 2 f_equal. rewrite <- seq_shift, flat_map_concat_map, map_map,
    <- flat_map_concat_map.
  apply flat_map_ext. intros j.
  now replace (from + Z.of_nat (S j))%Z with (from + 1 + Z.of_nat j)%Z by lia.
Qed.

Lemma waiting_app (t u : list ImageUtils.RetryEvent) :
  waiting (t ++ u) = (waiting t + waiting u)%Z.
Proof.
  unfold waiting. induction t as [|[k|ms] t IH]; cbn [app fold_right]; lia.
Qed.

Lemma waiting_failed_attempts (count : nat) : forall from,
  (0 <= from)%Z ->
  waiting (failed_attempts from count)
  = (1000 * (2 ^ (from + Z.of_nat count) - 2 ^ from))%Z.
Proof.
  induction count as [|count IH]; intros from H.
  - change (waiting (failed_attempts from 0)) with 0%Z.
    change (Z.of_nat 0) with 0%Z. rewrite Z.add_0_r. lia.
  - rewrite failed_attempts_S.
    change (waiting (ImageUtils.Attempt from :: ImageUtils.Wait (2 ^ from * 1000)
                       :: failed_attempts (from + 1) count))
      with (2 ^ from * 1000 + waiting (failed_attempts (from + 1) count))%Z.
    rewrite IH by lia.
    replace (from + Z.of_nat (S count))%Z with (from + 1 + Z.of_nat count)%Z by lia.
    replace (2 ^ (from + 1))%Z with (2 * 2 ^ from)%Z
      by (rewrite Z.pow_add_r, Z.pow_1_r by lia; lia).
    lia.
Qed.

(** The loop over [count] attempts that fail before the last one
    allowed. *)
Lemma retry_loop_failures (count : nat) :
  forall fuel attempt lastError done,
    (attempt + Z.of_nat count <= maxRetries)%Z ->
    (forall j, (attempt <= j < attempt + Z.of_nat count)%Z ->
               exists m, ImageUtils.loadFromUrl (world j) url = inr m) ->
    exists lastError',
      ImageUtils.retry_loop world url maxRetries (count + fuel) attempt lastError done
      = ImageUtils.retry_loop world url maxRetries fuel (attempt + Z.of_nat count)
                              lastError' (done ++ failed_attempts attempt count)
      /\ (count = O -> lastError' = lastError).
Proof.
  induction count as [|count IH]; intros fuel attempt lastError done Hle Hfail.
  - exists lastError. cbn [Nat.add failed_attempts]. unfold failed_attempts.
    cbn [seq flat_map]. rewrite app_nil_r, Z.add_0_r. split; reflexivity.
  - destruct (Hfail attempt ltac:(lia)) as [m Hm].
    destruct (IH fuel (attempt + 1)%Z (Some m)
                 (done ++ [ImageUtils.Attempt attempt;
                           ImageUtils.Wait (2 ^ attempt * 1000)])%list)
      as (last' & Heq & _).
    + lia.
    + intros j Hj. apply Hfail. lia.
    + exists last'. split; [|discriminate].
      cbn [Nat.add ImageUtils.retry_loop].
      destruct (Z.leb_spec attempt maxRetries); [|lia].
      rewrite Hm. destruct (Z.ltb_spec attempt maxRetries); [|lia].
      rewrite Heq, failed_attempts_S, <- app_assoc. cbn [app].
      now replace (attempt + 1 + Z.of_nat count)%Z
        with (attempt + Z.of_nat (S count))%Z by lia.
Qed.

End Retry.

(** X9. When the first [k] attempts of [downloadWithRetry] fail and the
    next one, still within [maxRetries], succeeds, the buffer of that
    attempt is returned: the failed attempts are each followed by a delay
    of [2^attempt] seconds, nothing is tried after the success, and the
    delays add up to [2^(k+1) - 2] seconds. *)
Theorem download_returns_first_success
        (world : Z -> ImageUtils.Platform) (url : string) (maxRetries : Z)
        (fuel k : nat) (buffer : ImageUtils.Buffer) :
  ImageUtils.exact_delays maxRetries ->
  (Z.of_nat k + 1 <= maxRetries)%Z ->
  (k < fuel)%nat ->
  (forall j, (1 <= j <= Z.of_nat k)%Z ->
             exists m, ImageUtils.loadFromUrl (world j) url = inr m) ->
  ImageUtils.loadFromUrl (world (Z.of_nat k + 1)%Z) url = inl buffer ->
  ImageUtils.downloadWithRetry world url maxRetries fuel
  = Some (ImageUtils.Downloaded buffer,
          failed_attempts 1 k ++ [ImageUtils.Attempt (Z.of_nat k + 1)])
  /\ waiting (failed_attempts 1 k ++ [ImageUtils.Attempt (Z.of_nat k + 1)])
     = (1000 * (2 ^ (Z.of_nat k + 1) - 2))%Z.
Proof.
  intros _ Hk Hfuel Hfail Hok. split.
  - unfold ImageUtils.downloadWithRetry.
    replace fuel with (k + S (fuel - S k))%nat by lia.
    destruct (@retry_loop_failures world url maxRetries k (S (fuel - S k)) 1 None [])
      as (last' & -> & _).
    + lia.
    + intros j Hj. apply Hfail. lia.
    + cbn [ImageUtils.retry_loop app].
      replace (1 + Z.of_nat k)%Z with (Z.of_nat k + 1)%Z by lia.
      destruct (Z.leb_spec (Z.of_nat k + 1) maxRetries); [|lia].
      now rewrite Hok.
  - rewrite waiting_app, waiting_failed_attempts by lia.
    change (waiting [ImageUtils.Attempt (Z.of_nat k + 1)]) with 0%Z.
    replace (1 + Z.of_nat k)%Z with (Z.of_nat k + 1)%Z by lia. lia.
Qed.

Lemma download_returns_first_success_witness :
  ImageUtils.downloadWithRetry (flaky 3) "http://host/a.png" 3 4
  = Some (ImageUtils.Downloaded [Byte.x89],
          [ImageUtils.Attempt 1; ImageUtils.Wait 2000;
           ImageUtils.Attempt 2; ImageUtils.Wait 4000; ImageUtils.Attempt 3]).
Proof.
  refine (proj1 (@download_returns_first_success
                   (flaky 3) "http://host/a.png" 3 4 2 [Byte.x89] _ _ _ _ _)).
  - unfold ImageUtils.exact_delays. lia.
  - lia.
  - lia.
  - intros j Hj. assert (E : j = 1%Z \/ j = 2%Z) by lia.
    destruct E as [-> | ->]; eexists; reflexivity.
  - reflexivity.
Defined.

(** X10. When all [maxRetries >= 1] attempts fail, [downloadWithRetry]
    throws an [Error] that names the number of attempts and carries the
    message of the last failure, itself a failure of [loadFromUrl]. Every
    attempt but the last is followed by its delay: the delays add up
    to [2^maxRetries - 2] seconds. *)
Theorem download_gives_up_after_maxRetries
        (world : Z -> ImageUtils.Platform) (url : string) (maxRetries : Z)
        (fuel : nat) (message : string) :
  ImageUtils.exact_delays maxRetries ->
  (1 <= maxRetries)%Z ->
  (Z.to_nat maxRetries < fuel)%nat ->
  (forall j, (1 <= j < maxRetries)%Z ->
             exists m, ImageUtils.loadFromUrl (world j) url = inr m) ->
  ImageUtils.loadFromUrl (world maxRetries) url = inr message ->
  ImageUtils.downloadWithRetry world url maxRetries fuel
  = Some (ImageUtils.DownloadFailed
            ("Failed to download after "
             ++ NilZero.string_of_int (Z.to_int maxRetries)
             ++ " attempts: " ++ message),
          failed_attempts 1 (Z.to_nat maxRetries - 1)
          ++ [ImageUtils.Attempt maxRetries])
  /\ Str.startsWith message "Failed to load image from URL: " = true
  /\ waiting (failed_attempts 1 (Z.to_nat maxRetries - 1)
              ++ [ImageUtils.Attempt maxRetries])
     = (1000 * (2 ^ maxRetries - 2))%Z.
Proof.
  intros _ Hn Hfuel Hfail Hlast. split; [|split].
  - unfold ImageUtils.downloadWithRetry.
    replace fuel
      with ((Z.to_nat maxRetries - 1) + S (S (fuel - S (Z.to_nat maxRetries))))%nat
      by lia.
    destruct (@retry_loop_failures world url maxRetries (Z.to_nat maxRetries - 1)
                (S (S (fuel - S (Z.to_nat maxRetries)))) 1 None [])
      as (last' & -> & _).
    + lia.
    + intros j Hj. apply Hfail. lia.
    + replace (1 + Z.of_nat (Z.to_nat maxRetries - 1))%Z with maxRetries by lia.
      cbn [ImageUtils.retry_loop app].
      rewrite Z.leb_refl, Hlast, Z.ltb_irrefl.
      destruct (Z.leb_spec (maxRetries + 1) maxRetries); [lia|].
      reflexivity.
  - unfold ImageUtils.loadFromUrl in Hlast.
    destruct (ImageUtils.http_get (world maxRetries) url) as [[ct data]|text].
    + destruct (match ct with Some c => ImageUtils.supported c | None => false end);
        [discriminate|].
      injection Hlast as <-.
      apply (startsWith_append "Failed to load image from URL: ").
    + injection Hlast as <-.
      apply (startsWith_append "Failed to load image from URL: ").
  - rewrite waiting_app, waiting_failed_attempts by lia.
    change (waiting [ImageUtils.Attempt maxRetries]) with 0%Z.
    replace (1 + Z.of_nat (Z.to_nat maxRetries - 1))%Z with maxRetries by lia. lia.
Qed.

Lemma download_gives_up_after_maxRetries_witness :
  ImageUtils.downloadWithRetry (fun _ => offline) "http://host/a.png" 3 4
  = Some (ImageUtils.DownloadFailed
            ("Failed to download after 3 attempts: "
             ++ "Failed to load image from URL: connect ECONNREFUSED"),
          [ImageUtils.Attempt 1; ImageUtils.Wait 2000;
           ImageUtils.Attempt 2; ImageUtils.Wait 4000; ImageUtils.Attempt 3]).
Proof.
  refine (proj1 (@download_gives_up_after_maxRetries
                   (fun _ => offline) "http://host/a.png" 3 4
                   "Failed to load image from URL: connect ECONNREFUSED"
                   _ _ _ _ _)).
  - unfold ImageUtils.exact_delays. lia.
  - lia.
  - cbn. lia.
  - intros j _. eexists. reflexivity.
  - reflexivity.
Defined.

(** X11. Without an attempt to make ([maxRetries <= 0]),
    [downloadWithRetry] contacts nobody and fails on reading the message
    of a last error that does not exist, not with the [Error] it builds
    after failed attempts. *)
Theorem download_without_attempts
        (world : Z -> ImageUtils.Platform) (url : string) (maxRetries : Z)
        (fuel : nat) :
  (maxRetries <= 0)%Z ->
  (0 < fuel)%nat ->
  ImageUtils.downloadWithRetry world url maxRetries fuel
  = Some (ImageUtils.ReadOfUndefined, []).
Proof.
  intros Hn Hfuel. unfold ImageUtils.downloadWithRetry.
  destruct fuel as [|fuel]; [lia|]. cbn [ImageUtils.retry_loop].
  destruct (Z.leb_spec 1 maxRetries); [lia | reflexivity].
Qed.

Lemma download_without_attempts_witness :
  ImageUtils.downloadWithRetry (fun _ => online) "http://host/a.png" 0 1
  = Some (ImageUtils.ReadOfUndefined, []).
Proof.
  apply download_without_attempts; lia.
Defined.

(** * Properties of ImageCompressor.optimizeForWeb *)

Section Search.

Local Open Scope Z_scope.

Variable webp : nat -> Z -> Z + string.
Variable targetSize : JS.number.

Lemma effective_quality_id (q : Z) :
  q <> 0 -> ImageCompressor.effective_quality q = q.
Proof.
  intros H. unfold ImageCompressor.effective_quality.
  destruct (Z.eqb_spec q 0); [contradiction | reflexivity].
Qed.

Lemma bracketed_step (lo hi : Z) (tried : list (Z * Z)) (size : Z) (fits : bool) :
  10 <= lo -> hi <= 90 -> lo <= hi ->
  ImageCompressor.bracketed webp targetSize lo hi tried ->
  webp (List.length tried) ((lo + hi) / 2) = inl size ->
  ImageCompressor.at_most size targetSize = fits ->
  ImageCompressor.bracketed webp targetSize
    (if fits then (lo + hi) / 2 + 1 else lo)
    (if fits then hi else (lo + hi) / 2 - 1)
    (tried ++ [((lo + hi) / 2, size)]).
Proof.
  intros Hlo Hhi Hle (Hrec & Hbelow & Habove) Hw Hfits.
  assert (Hmid : lo <= (lo + hi) / 2 <= hi).
  { split; [apply Z.div_le_lower_bound | apply Z.div_le_upper_bound]; lia. }
  split; [|split].
  - intros k q sz Hk.
    destruct (Nat.lt_ge_cases k (List.length tried)) as [Hlt|Hge].
    + rewrite nth_error_app1 in Hk by exact Hlt. now apply Hrec.
    + rewrite nth_error_app2 in Hk by exact Hge.
      destruct (k - List.length tried)%nat as [|[|n]] eqn:E; cbn in Hk;
        try discriminate.
      injection Hk as <- <-.
      replace k with (List.length tried) by lia. split; [lia | exact Hw].
  - destruct fits.
    + intros _. exists size. split; [|exact Hfits].
      apply in_or_app. right. left. f_equal. lia.
    + intros H. destruct (Hbelow H) as (sz & Hin & Hsz).
      exists sz. split; [apply in_or_app; now left | exact Hsz].
  - destruct fits.
    + intros H. destruct (Habove H) as (sz & Hin & Hsz).
      exists sz. split; [apply in_or_app; now left | exact Hsz].
    + intros _. exists size. split; [|exact Hfits].
      apply in_or_app. right. left. f_equal. lia.
Qed.

(** The loop returns within [f] tries when fewer than [2^f] qualities
    are left, and leaves the bracket closed. *)
Lemma search_closes (f : nat) : forall fuel lo hi tried,
  (f < fuel)%nat ->
  hi - lo + 1 < 2 ^ Z.of_nat f ->
  10 <= lo -> hi <= 90 -> lo <= hi + 1 ->
  ImageCompressor.bracketed webp targetSize lo hi tried ->
  (exists message k q,
      ImageCompressor.search webp targetSize fuel lo hi tried = Some (inr message)
      /\ 10 <= q <= 90 /\ webp k q = inr message)
  \/ (exists q tried',
        ImageCompressor.search webp targetSize fuel lo hi tried
        = Some (inl (q, tried'))
        /\ 9 <= q <= 90
        /\ (List.length tried' <= List.length tried + f)%nat
        /\ ImageCompressor.bracketed webp targetSize (q + 1) q tried').
Proof.
  induction f as [|f IH]; intros fuel lo hi tried Hfuel Hsize Hlo Hhi Hle Hb;
    (destruct fuel as [|fuel]; [lia|]); cbn [ImageCompressor.search].
  - change (2 ^ Z.of_nat 0) with 1 in Hsize.
    destruct (Z.leb_spec lo hi); [lia|].
    right. exists hi, tried. split; [reflexivity|].
    split; [lia|]. split; [lia|].
    now replace (hi + 1) with lo by lia.
  - destruct (Z.leb_spec lo hi) as [Hin|Hout].
    + assert (Hmid : lo <= (lo + hi) / 2 <= hi).
      { split; [apply Z.div_le_lower_bound | apply Z.div_le_upper_bound]; lia. }
      assert (Hhalf : 2 * ((lo + hi) / 2) <= lo + hi < 2 * ((lo + hi) / 2) + 2).
      { pose proof (Z.div_mod (lo + hi) 2 ltac:(lia)).
        pose proof (Z.mod_pos_bound (lo + hi) 2 ltac:(lia)). lia. }
      assert (Hpow : 2 ^ Z.of_nat (S f) = 2 * 2 ^ Z.of_nat f).
      { rewrite Nat2Z.inj_succ, Z.pow_succ_r by lia. reflexivity. }
      unfold ImageCompressor.compress.
      rewrite effective_quality_id by lia.
      destruct (webp (List.length tried) ((lo + hi) / 2)) as [size|message] eqn:Hw;
        [|left; exists message, (List.length tried), ((lo + hi) / 2);
          split; [reflexivity | split; [lia | exact Hw]]].
      pose proof (@bracketed_step lo hi tried size _ Hlo Hhi Hin Hb Hw eq_refl)
        as Hstep.
      destruct (ImageCompressor.at_most size targetSize).
      * destruct (IH fuel ((lo + hi) / 2 + 1) hi
                     (tried ++ [((lo + hi) / 2, size)])%list)
          as [Hthrown | (q & tried' & Heq & Hq & Hlen & Hb')];
          try lia; try exact Hstep; [now left|].
        right. exists q, tried'. split; [exact Heq|]. split; [exact Hq|].
        split; [|exact Hb']. rewrite length_app in Hlen. cbn [List.length] in Hlen. lia.
      * destruct (IH fuel lo ((lo + hi) / 2 - 1)
                     (tried ++ [((lo + hi) / 2, size)])%list)
          as [Hthrown | (q & tried' & Heq & Hq & Hlen & Hb')];
          try lia; try exact Hstep; [now left|].
        right. exists q, tried'. split; [exact Heq|]. split; [exact Hq|].
        split; [|exact Hb']. rewrite length_app in Hlen. cbn [List.length] in Hlen. lia.
    + right. exists hi, tried. split; [reflexivity|].
      split; [lia|]. split; [lia|].
      now replace (hi + 1) with lo by lia.
Qed.

Lemma bracketed_start :
  ImageCompressor.bracketed webp targetSize 10 90 [].
Proof.
  split; [|split]; try lia. intros [|k] q size H; discriminate.
Qed.

End Search.

(** X12. [optimizeForWeb] always comes to an end, after at most 7 tries
    of the loop. It throws what [loadImage] threw, or what a call of
    [compress] threw. When it returns, the quality of the result is
    between 9 and 90 and is the one the encoder was given (never the
    default 80 in its place); every quality tried lies between 10
    and 90; a result of quality 10 or more was tried and met the target,
    and below 90 the next quality was tried and did not meet it. *)
Theorem optimizeForWeb_search
        (loaded : ImageUtils.Buffer + string) (default_target : Z -> JS.number)
        (webp : nat -> Z -> Z + string) (targetSize : option JS.number)
        (fuel : nat) :
  (7 < fuel)%nat ->
  exists outcome,
    ImageCompressor.optimizeForWeb loaded default_target webp targetSize fuel
    = Some outcome
    /\ (forall message, loaded = inr message ->
                        outcome = ImageCompressor.Threw message)
    /\ (forall message originalBuffer,
          loaded = inl originalBuffer ->
          outcome = ImageCompressor.Threw message ->
          exists k q, (9 <= q <= 90)%Z /\ webp k q = inr message)
    /\ forall r originalBuffer,
        loaded = inl originalBuffer ->
        outcome = ImageCompressor.Returned r ->
        (9 <= ImageCompressor.quality r <= 90)%Z
        /\ (List.length (ImageCompressor.probes r) <= 7)%nat
        /\ webp (List.length (ImageCompressor.probes r)) (ImageCompressor.quality r)
           = inl (ImageCompressor.compressedSize r)
        /\ (forall q size, In (q, size) (ImageCompressor.probes r) ->
                           (10 <= q <= 90)%Z)
        /\ ((10 <= ImageCompressor.quality r)%Z ->
            exists size,
              In (ImageCompressor.quality r, size) (ImageCompressor.probes r)
              /\ ImageCompressor.at_most
                   size (ImageCompressor.target default_target originalBuffer
                                                targetSize) = true)
        /\ ((ImageCompressor.quality r < 90)%Z ->
            exists size,
              In (ImageCompressor.quality r + 1, size)%Z (ImageCompressor.probes r)
              /\ ImageCompressor.at_most
                   size (ImageCompressor.target default_target originalBuffer
                                                targetSize) = false).
Proof.
  intros Hfuel. unfold ImageCompressor.optimizeForWeb.
  destruct loaded as [buffer|failure].
  - destruct (@search_closes
                webp (ImageCompressor.target default_target buffer targetSize)
                7 fuel 10 90 [] Hfuel ltac:(cbn; lia) ltac:(lia) ltac:(lia)
                ltac:(lia) (bracketed_start webp _))
      as [(m & k & q & -> & Hq & Hw) | (q & tried & -> & Hq & Hlen & Hrec & Hlo & Hhi)].
    + eexists. split; [reflexivity|]. split; [discriminate|]. split.
      * intros m' b _ E. injection E as <-. exists k, q. split; [lia | exact Hw].
      * discriminate.
    + unfold ImageCompressor.compress. rewrite effective_quality_id by lia.
      destruct (webp (List.length tried) q) as [size|m] eqn:Hw.
      * eexists. split; [reflexivity|]. split; [discriminate|].
        split; [discriminate|].
        intros r b Hb E. injection Hb as <-. injection E as <-.
        cbn [ImageCompressor.quality ImageCompressor.compressedSize
               ImageCompressor.probes].
        split; [exact Hq|]. split; [exact Hlen|]. split; [exact Hw|].
        split; [|split].
        -- intros q' size' Hin. apply In_nth_error in Hin. destruct Hin as [n Hn].
           now apply Hrec in Hn.
        -- intros H. destruct (Hlo ltac:(lia)) as (sz & Hin & Hsz).
           exists sz. replace (q + 1 - 1)%Z with q in Hin by lia. now split.
        -- exact Hhi.
      * eexists. split; [reflexivity|]. split; [discriminate|]. split.
        -- intros m' b _ E. injection E as <-.
           exists (List.length tried), q. split; [lia | exact Hw].
        -- discriminate.
  - eexists. split; [reflexivity|]. split.
    + intros m E. now injection E as <-.
    + split; discriminate.
Qed.

Lemma optimizeForWeb_search_witness :
  exists outcome,
    ImageCompressor.optimizeForWeb
      (inl [Byte.x89]) (fun _ => JS.of_Z 0) (fun _ q => inl (q * 100)%Z)
      (Some (JS.of_Z 5000)) 8
    = Some outcome.
Proof.
  destruct (@optimizeForWeb_search
              (inl [Byte.x89]) (fun _ => JS.of_Z 0) (fun _ q => inl (q * 100)%Z)
              (Some (JS.of_Z 5000)) 8 ltac:(lia))
    as (outcome & H & _).
  exists outcome. exact H.
Defined.

Lemma at_most_smaller (size size' : Z) (targetSize : JS.number) :
  (size <= size')%Z ->
  ImageCompressor.at_most size' targetSize = true ->
  ImageCompressor.at_most size targetSize = true.
Proof.
  intros Hle. destruct targetSize as [| | |q]; cbn; trivial.
  rewrite !Qle_bool_iff. intros H.
  apply Qle_trans with (inject_Z size'); [|exact H].
  now rewrite <- Zle_Qle.
Qed.

(** X13. When the encoder succeeds, answers each quality with the same
    size at every call, and larger qualities do not give smaller
    buffers, [optimizeForWeb] returns the best quality: the qualities
    between 10 and 90 that meet the target are exactly those up to the
    quality of the result. When none meets it the result has quality 9,
    below every quality tried. *)
Theorem optimizeForWeb_best_quality
        (originalBuffer : ImageUtils.Buffer) (default_target : Z -> JS.number)
        (webp : nat -> Z -> Z + string) (size : Z -> Z)
        (targetSize : option JS.number) (fuel : nat) :
  (7 < fuel)%nat ->
  (forall k q, (9 <= q <= 90)%Z -> webp k q = inl (size q)) ->
  (forall q q', (10 <= q <= q')%Z -> (q' <= 90)%Z -> (size q <= size q')%Z) ->
  exists r,
    ImageCompressor.optimizeForWeb (inl originalBuffer) default_target webp
                                   targetSize fuel
    = Some (ImageCompressor.Returned r)
    /\ (9 <= ImageCompressor.quality r <= 90)%Z
    /\ ImageCompressor.compressedSize r = size (ImageCompressor.quality r)
    /\ forall q, (10 <= q <= 90)%Z ->
         (ImageCompressor.at_most
            (size q)
            (ImageCompressor.target default_target originalBuffer targetSize)
          = true
          <-> (q <= ImageCompressor.quality r)%Z).
Proof.
  intros Hfuel Hsame Hmono. unfold ImageCompressor.optimizeForWeb.
  destruct (@search_closes
              webp (ImageCompressor.target default_target originalBuffer targetSize)
              7 fuel 10 90 [] Hfuel ltac:(cbn; lia) ltac:(lia) ltac:(lia)
              ltac:(lia) (bracketed_start webp _))
    as [(m & k & q & _ & Hq & Hw) | (best & tried & -> & Hq & _ & Hrec & Hlo & Hhi)].
  - rewrite Hsame in Hw by lia. discriminate.
  - unfold ImageCompressor.compress. rewrite effective_quality_id by lia.
    rewrite Hsame by exact Hq. eexists. split; [reflexivity|].
    cbn [ImageCompressor.quality ImageCompressor.compressedSize].
    split; [exact Hq|]. split; [reflexivity|].
    assert (Hsize : forall q sz, In (q, sz) tried -> (10 <= q <= 90)%Z /\ sz = size q).
    { intros q sz Hin. apply In_nth_error in Hin. destruct Hin as [n Hn].
      destruct (Hrec _ _ _ Hn) as [Hr Hw]. split; [exact Hr|].
      rewrite Hsame in Hw by lia. now injection Hw. }
    intros q Hr. split.
    + intros Hfit. destruct (Z.le_gt_cases q best) as [|Hgt]; [assumption|].
      destruct (Hhi ltac:(lia)) as (sz & Hin & Hno).
      destruct (Hsize _ _ Hin) as [Hb ->].
      rewrite (@at_most_smaller (size (best + 1)%Z) (size q) _) in Hno;
        [discriminate | apply Hmono; lia | exact Hfit].
    + intros Hle. destruct (Hlo ltac:(lia)) as (sz & Hin & Hyes).
      replace (best + 1 - 1)%Z with best in Hin by lia.
      destruct (Hsize _ _ Hin) as [Hb ->].
      apply at_most_smaller with (size best); [apply Hmono; lia | exact Hyes].
Qed.

Lemma optimizeForWeb_best_quality_witness :
  exists r,
    ImageCompressor.optimizeForWeb
      (inl [Byte.x89]) (fun _ => JS.of_Z 0) (fun _ q => inl (q * 100)%Z)
      (Some (JS.of_Z 5000)) 8
    = Some (ImageCompressor.Returned r)
    /\ ImageCompressor.compressedSize r = (ImageCompressor.quality r * 100)%Z.
Proof.
  destruct (@optimizeForWeb_best_quality
              [Byte.x89] (fun _ => JS.of_Z 0) (fun _ q => inl (q * 100)%Z)
              (fun q => (q * 100)%Z) (Some (JS.of_Z 5000)) 8)
    as (r & H & _ & Hs & _).
  - lia.
  - reflexivity.
  - intros q q' Hq Hq'. lia.
  - exists r. split; [exact H | exact Hs].
Defined.

(** * Properties of ColorExtractor.analyzeColorHarmony *)

Section Harmony.

Local Open Scope Z_scope.

Lemma evenly_spaced_never (hi hj hk : Z) :
  ColorExtractor.evenly_spaced hi hj hk = false.
Proof.
  unfold ColorExtractor.evenly_spaced.
  destruct (Z.ltb_spec (Z.abs (Z.abs (hi - hj) - 120)) 30);
    destruct (Z.ltb_spec (Z.abs (Z.abs (hj - hk) - 120)) 30);
    destruct (Z.ltb_spec (Z.abs (Z.abs (hk - hi) - 120)) 30);
    try reflexivity.
  exfalso. lia.
Qed.

Lemma triadic_from_never (hi : Z) (after_i : list Z) :
  ColorExtractor.triadic_from hi after_i = false.
Proof.
  induction after_i as [|hj after_j IH]; [reflexivity|].
  cbn [ColorExtractor.triadic_from]. rewrite IH, orb_false_r.
  clear IH. induction after_j as [|hk l IHl]; [reflexivity|].
  cbn [existsb]. now rewrite evenly_spaced_never.
Qed.

Lemma isTriadic_never (hues : list Z) : ColorExtractor.isTriadic hues = false.
Proof.
  induction hues as [|hi after_i IH]; [reflexivity|].
  cbn [ColorExtractor.isTriadic]. now rewrite triadic_from_never, IH.
Qed.

Lemma Math_max_greatest (h : Z) (others : list Z) :
  In (ColorExtractor.Math_max h others) (h :: others)
  /\ forall x, In x (h :: others) -> x <= ColorExtractor.Math_max h others.
Proof.
  unfold ColorExtractor.Math_max.
  induction others as [|a l (Hin & Hle)]; cbn [fold_right].
  - split; [now left | intros x [<- | []]; lia].
  - split.
    + destruct (Z.max_spec a (fold_right Z.max h l)) as [[_ ->] | [_ ->]].
      * destruct Hin as [<- | Hin]; [now left | right; now right].
      * right. now left.
    + intros x [<- | [<- | Hx]].
      * pose proof (Hle h (or_introl eq_refl)). lia.
      * lia.
      * pose proof (Hle x (or_intror Hx)). lia.
Qed.

Lemma Math_min_least (h : Z) (others : list Z) :
  In (ColorExtractor.Math_min h others) (h :: others)
  /\ forall x, In x (h :: others) -> ColorExtractor.Math_min h others <= x.
Proof.
  unfold ColorExtractor.Math_min.
  induction others as [|a l (Hin & Hle)]; cbn [fold_right].
  - split; [now left | intros x [<- | []]; lia].
  - split.
    + destruct (Z.min_spec a (fold_right Z.min h l)) as [[_ ->] | [_ ->]].
      * right. now left.
      * destruct Hin as [<- | Hin]; [now left | right; now right].
    + intros x [<- | [<- | Hx]].
      * pose proof (Hle h (or_introl eq_refl)). lia.
      * lia.
      * pose proof (Hle x (or_intror Hx)). lia.
Qed.

Lemma existsb_same_elements (A : Type) (f g : A -> bool) (l l' : list A) :
  (forall x, In x l <-> In x l') ->
  (forall x, In x l -> f x = g x) ->
  existsb f l = existsb g l'.
Proof.
  intros Hin Hfg. apply eq_true_iff_eq. rewrite !existsb_exists.
  split; intros (x & Hx & Hfx); exists x.
  - split; [now apply Hin | now rewrite <- Hfg].
  - apply Hin in Hx. split; [exact Hx | now rewrite Hfg].
Qed.

Lemma filter_length_permutation (A : Type) (f : A -> bool) (l l' : list A) :
  Permutation l l' -> List.length (filter f l) = List.length (filter f l').
Proof.
  induction 1 as [|x l l' _ IH|x y l|l l' l'' _ IH1 _ IH2]; cbn [filter].
  - reflexivity.
  - destruct (f x); cbn [List.length]; now rewrite IH.
  - destruct (f x), (f y); reflexivity.
  - now rewrite IH1.
Qed.

Lemma scheme_of_permutation (hues hues' : list Z) :
  Permutation hues hues' ->
  ColorExtractor.scheme_of hues = ColorExtractor.scheme_of hues'.
Proof.
  intros HP.
  assert (Hin : forall x, In x hues <-> In x hues').
  { intros x. split; apply Permutation_in; [exact HP | now symmetry]. }
  destruct hues as [|h others], hues' as [|h' others'].
  - reflexivity.
  - now apply Permutation_nil in HP.
  - symmetry in HP. now apply Permutation_nil in HP.
  - unfold ColorExtractor.scheme_of.
    destruct (Math_max_greatest h others) as [Hmi Hm].
    destruct (Math_max_greatest h' others') as [Hmi' Hm'].
    destruct (Math_min_least h others) as [Hni Hn].
    destruct (Math_min_least h' others') as [Hni' Hn'].
    assert (Emax : ColorExtractor.Math_max h others
                   = ColorExtractor.Math_max h' others').
    { apply Z.le_antisymm; [apply Hm', Hin, Hmi | apply Hm, Hin, Hmi']. }
    assert (Emin : ColorExtractor.Math_min h others
                   = ColorExtractor.Math_min h' others').
    { apply Z.le_antisymm; [apply Hn, Hin, Hni' | apply Hn', Hin, Hni]. }
    rewrite Emax, Emin, !isTriadic_never, !andb_false_r.
    rewrite (@existsb_same_elements
               Z (fun h1 => existsb (fun h2 => ColorExtractor.opposite h1 h2)
                                    (h :: others))
               (fun h1 => existsb (fun h2 => ColorExtractor.opposite h1 h2)
                                  (h' :: others'))
               (h :: others) (h' :: others') Hin).
    + reflexivity.
    + intros x _. now apply existsb_same_elements.
Qed.

End Harmony.

(** X14. [isTriadic] answers [false] for every list of hues: of the
    three differences between three numbers the largest is the sum of
    the other two, so they are never all within 30 of 120. Hence
    [analyzeColorHarmony] never reports the scheme ['triadic']. *)
Theorem harmony_is_never_triadic
        (hues : list Z) (Color : Type) (hue : Color -> Z) (colors : list Color) :
  ColorExtractor.isTriadic hues = false
  /\ In (fst (ColorExtractor.analyzeColorHarmony hue colors))
        [ColorExtractor.monochromatic; ColorExtractor.analogous;
         ColorExtractor.complementary; ColorExtractor.mixed].
Proof.
  split; [apply isTriadic_never|].
  unfold ColorExtractor.analyzeColorHarmony.
  destruct colors as [|c colors]; [cbn; tauto|].
  cbn [fst]. unfold ColorExtractor.scheme_of.
  rewrite isTriadic_never, andb_false_r. cbn [map].
  repeat match goal with |- context [if ?b then _ else _] => destruct b end;
    cbn; tauto.
Qed.

(** X15. The scheme and the temperature [analyzeColorHarmony] reports do
    not depend on the order of the colours. *)
Theorem harmony_ignores_the_order
        (Color : Type) (hue : Color -> Z) (colors colors' : list Color) :
  Permutation colors colors' ->
  ColorExtractor.analyzeColorHarmony hue colors
  = ColorExtractor.analyzeColorHarmony hue colors'.
Proof.
  intros HP. unfold ColorExtractor.analyzeColorHarmony.
  destruct colors as [|c l], colors' as [|c' l'].
  - reflexivity.
  - now apply Permutation_nil in HP.
  - symmetry in HP. now apply Permutation_nil in HP.
  - f_equal.
    + apply scheme_of_permutation. now apply Permutation_map.
    + unfold ColorExtractor.temperature_of.
      now rewrite !(filter_length_permutation _ HP).
Qed.

Lemma harmony_ignores_the_order_witness :
  ColorExtractor.analyzeColorHarmony (fun h : Z => h) [10; 200; 40]%Z
  = ColorExtractor.analyzeColorHarmony (fun h : Z => h) [200; 10; 40]%Z.
Proof.
  apply harmony_ignores_the_order. apply perm_swap.
Defined.

(** * Properties of FormatConverter *)

Section Formats.

Local Open Scope string_scope.

Lemma strip_prefix_of_append (p r : string) :
  ImageUtils.strip_prefix p (p ++ r) = Some r.
Proof.
  induction p as [|a p IH]; [reflexivity|].
  cbn [append ImageUtils.strip_prefix]. now rewrite Ascii.eqb_refl.
Qed.

Lemma span_letters_stops (f : string) (c : ascii) (rest : string) :
  forallb ImageUtils.is_letter (list_ascii_of_string f) = true ->
  ImageUtils.is_letter c = false ->
  ImageUtils.span_letters (f ++ String c rest) = (f, String c rest).
Proof.
  intros Hf Hc. induction f as [|a f IH].
  - cbn [append ImageUtils.span_letters]. now rewrite Hc.
  - cbn [list_ascii_of_string forallb] in Hf. apply andb_true_iff in Hf.
    destruct Hf as [Ha Hf].
    cbn [append ImageUtils.span_letters]. now rewrite Ha, (IH Hf).
Qed.

Lemma is_letter_lower (c : ascii) :
  ImageUtils.is_letter (Str.lower c) = ImageUtils.is_letter c.
Proof. destruct c as [[] [] [] [] [] [] [] []]; reflexivity. Qed.

Lemma letters_toLower (f : string) :
  forallb ImageUtils.is_letter (list_ascii_of_string (Str.toLower f))
  = forallb ImageUtils.is_letter (list_ascii_of_string f).
Proof.
  induction f as [|c f IH]; [reflexivity|].
  cbn [Str.toLower list_ascii_of_string forallb]. now rewrite is_letter_lower, IH.
Qed.

Lemma image_extensions_letters (label : string) :
  In label image_extensions ->
  forallb ImageUtils.is_letter (list_ascii_of_string label) = true
  /\ Str.toLower label = label.
Proof.
  intros H. repeat (destruct H as [<- | H]; [split; reflexivity|]). destruct H.
Qed.

(** The formats [convert] has an encoder for are those whose lower case
    is one of the extensions of the validator. *)
Lemma encoder_of_extensions (targetFormat : string) :
  FormatConverter.encoder_of targetFormat <> None
  <-> In (Str.toLower targetFormat) image_extensions.
Proof.
  unfold FormatConverter.encoder_of, image_extensions.
  set (label := Str.toLower targetFormat). cbn [In]. split.
  - repeat match goal with
           | |- context [String.eqb label ?x] =>
               destruct (String.eqb_spec label x) as [->|]
           end; cbn [orb]; intros H; try tauto.
  - intros H.
    repeat (destruct H as [<- | H]; [cbn; discriminate|]). destruct H.
Qed.

Lemma supported_image (f : string) :
  ImageUtils.supported ("image/" ++ f) = existsb (String.eqb f) image_extensions.
Proof.
  unfold ImageUtils.supported, ImageUtils.SUPPORTED_FORMATS, image_extensions.
  cbn [existsb append String.eqb]. rewrite !Ascii.eqb_refl.
  repeat match goal with
         | |- context [String.eqb f ?x] => destruct (String.eqb f x)
         end; reflexivity.
Qed.

End Formats.

(** What [loadImage] and the validator make of a data URL built from a
    format with an encoder. *)
Lemma data_url_loads
        (L : ImageUtils.Platform) (URL_parses : string -> bool)
        (targetFormat base64 : string) :
  FormatConverter.encoder_of targetFormat <> None ->
  base64 <> ""%string ->
  ImageUtils.has_line_terminator base64 = false ->
  ImageUtils.loadImage L (FormatConverter.data_url targetFormat base64)
  = (if String.eqb (Str.toLower targetFormat) targetFormat
     then inl (ImageUtils.from_base64 L base64)
     else inr ("Failed to load image from base64: "
               ++ "Unsupported image format: image/" ++ targetFormat)%string)
  /\ isValidSource URL_parses (FormatConverter.data_url targetFormat base64) = true.
Proof.
  intros Henc Hdata Hline.
  apply encoder_of_extensions in Henc.
  destruct (image_extensions_letters Henc) as [Hletters _].
  rewrite letters_toLower in Hletters.
  assert (Hne : targetFormat <> ""%string).
  { intros ->. cbn in Henc. repeat (destruct Henc as [Henc | Henc]; try discriminate).
    destruct Henc. }
  unfold FormatConverter.data_url.
  assert (Hmatch : ImageUtils.match_data_url
                     ("data:image/" ++ targetFormat ++ ";base64," ++ base64)
                   = Some (targetFormat, base64)).
  { unfold ImageUtils.match_data_url. rewrite strip_prefix_of_append.
    change (";base64," ++ base64)%string
      with (String ";" ("base64," ++ base64)%string).
    rewrite (@span_letters_stops targetFormat ";" _ Hletters eq_refl).
    destruct (String.eqb_spec targetFormat ""); [contradiction|].
    change (String ";" ("base64," ++ base64)%string)
      with (";base64," ++ base64)%string.
    rewrite strip_prefix_of_append.
    destruct (String.eqb_spec base64 ""); [contradiction|].
    now rewrite Hline. }
  split.
  - unfold ImageUtils.loadImage.
    change (Str.startsWith ("data:image/" ++ targetFormat ++ ";base64," ++ base64)
                           "http://") with false.
    change (Str.startsWith ("data:image/" ++ targetFormat ++ ";base64," ++ base64)
                           "https://") with false.
    cbn [orb]. rewrite startsWith_append.
    unfold ImageUtils.loadFromBase64. rewrite Hmatch, supported_image.
    destruct (String.eqb_spec (Str.toLower targetFormat) targetFormat) as [E|E].
    + rewrite E in Henc.
      assert (H : existsb (String.eqb targetFormat) image_extensions = true).
      { apply existsb_exists. exists targetFormat. split; [exact Henc|].
        apply String.eqb_refl. }
      now rewrite H.
    + destruct (existsb (String.eqb targetFormat) image_extensions) eqn:H;
        [|reflexivity].
      apply existsb_exists in H. destruct H as (x & Hx & Heq).
      apply String.eqb_eq in Heq. subst x.
      now destruct (image_extensions_letters Hx) as [_ Hlow].
  - unfold isValidSource.
    change (Str.startsWith ("data:image/" ++ targetFormat ++ ";base64," ++ base64)
                           "http://") with false.
    change (Str.startsWith ("data:image/" ++ targetFormat ++ ";base64," ++ base64)
                           "https://") with false.
    cbn [orb]. now rewrite startsWith_append.
Qed.

(** X16. The data URL [convert] returns by default can be loaded again
    by [loadImage] exactly when the target format was given in lower
    case: for a format [convert] has an encoder for and a buffer that is
    not empty, the URL loads to the decoded data if the format is its own
    lower case, and is refused as an unsupported image format otherwise.
    The validator of the batch processor accepts the URL in both cases. *)
Theorem converted_data_url_loads_again
        (L : ImageUtils.Platform) (URL_parses : string -> bool)
        (targetFormat base64 : string) :
  FormatConverter.encoder_of targetFormat <> None ->
  base64 <> ""%string ->
  ImageUtils.has_line_terminator base64 = false ->
  ImageUtils.loadImage L (FormatConverter.data_url targetFormat base64)
  = (if String.eqb (Str.toLower targetFormat) targetFormat
     then inl (ImageUtils.from_base64 L base64)
     else inr ("Failed to load image from base64: "
               ++ "Unsupported image format: image/" ++ targetFormat)%string)
  /\ isValidSource URL_parses (FormatConverter.data_url targetFormat base64) = true.
Proof. apply data_url_loads. Qed.

Lemma converted_data_url_loads_again_witness :
  ImageUtils.loadImage offline (FormatConverter.data_url "PNG" "iQ==")
  = inr "Failed to load image from base64: Unsupported image format: image/PNG"%string
  /\ ImageUtils.loadImage offline (FormatConverter.data_url "png" "iQ==")
     = inl [Byte.x89].
Proof.
  split.
  - refine (proj1 (@converted_data_url_loads_again
                     offline Demo.URL_parses "PNG" "iQ==" _ _ _));
      [discriminate | discriminate | reflexivity].
  - refine (proj1 (@converted_data_url_loads_again
                     offline Demo.URL_parses "png" "iQ==" _ _ _));
      [discriminate | discriminate | reflexivity].
Defined.

(** X17. [convertToModernFormat] always asks [convert] for a format it
    has an encoder for, WebP or AVIF, and the quality it hands over is
    the one [convert] uses, never the fallback 90: the caller's quality,
    or 85 when that is absent or 0. AVIF is chosen only for an
    image without alpha channel of more than 1,000,000 pixels, and then
    with a quality of at most 75. *)
Theorem modern_format_has_an_encoder
        (hasAlpha : bool) (width height quality : option Z) :
  (FormatConverter.convertToModernFormat hasAlpha width height quality
   = (Some FormatConverter.Webp, FormatConverter.quality_or quality 85)
   /\ (hasAlpha = true
       \/ (FormatConverter.or_zero width * FormatConverter.or_zero height
           <= 1000000)%Z))
  \/ (FormatConverter.convertToModernFormat hasAlpha width height quality
      = (Some FormatConverter.Avif,
         Z.min (FormatConverter.quality_or quality 85) 75)
      /\ hasAlpha = false
      /\ (1000000
          < FormatConverter.or_zero width * FormatConverter.or_zero height)%Z).
Proof.
  assert (Hq : FormatConverter.quality_or quality 85 <> 0%Z).
  { unfold FormatConverter.quality_or. destruct quality as [q|]; [|lia].
    destruct (Z.eqb_spec q 0); lia. }
  assert (Hused : forall q, q <> 0%Z -> FormatConverter.quality_or (Some q) 90 = q).
  { intros q H. unfold FormatConverter.quality_or.
    destruct (Z.eqb_spec q 0); [contradiction | reflexivity]. }
  unfold FormatConverter.convertToModernFormat, FormatConverter.modern_choice.
  destruct hasAlpha.
  - left. rewrite (Hused _ Hq). split; [reflexivity | now left].
  - destruct (Z.ltb_spec 1000000
                (FormatConverter.or_zero width * FormatConverter.or_zero height)).
    + right. rewrite Hused by lia. repeat split; trivial.
    + left. rewrite (Hused _ Hq). split; [reflexivity | now right].
Qed.

(** ** Conversions in a batch *)

Section Conversions.

Variable L : ImageUtils.Platform.
Variable inspect : ImageUtils.Buffer -> option string.
Variable encode : FormatConverter.Encoder -> ImageUtils.Buffer -> Options
                  -> Payload + string.
Variable others : nat -> Call -> ImageUtils.Buffer -> Payload + string.
Variable elapsed : nat -> Z.
Variable options : Options.
Variable format : string.
Hypothesis given : truthy (targetFormat options) = Some format.
Hypothesis no_encoder : FormatConverter.encoder_of format = None.

Lemma conversion_rejected (k : nat) (source : string) :
  exists detail,
    snd (processSingle (services L inspect encode others elapsed)
                       k source "convert" options)
    = Rejected (ErrorObject ("Format conversion failed: " ++ detail))
    /\ forall buffer,
        ImageUtils.loadImage L source = inl buffer ->
        inspect buffer = None ->
        detail = FormatConverter.unsupported_target format.
Proof.
  unfold processSingle. cbn [String.eqb Ascii.eqb Bool.eqb]. rewrite given.
  unfold convert, awaited, services, providers_over, convert_body.
  cbn [work snd call_source].
  destruct (ImageUtils.loadImage L source) as [buffer|message].
  - destruct (inspect buffer) as [message|] eqn:Hi.
    + eexists. split; [reflexivity|]. intros b E. injection E as <-.
      rewrite Hi. discriminate.
    + rewrite no_encoder. eexists. split; [reflexivity|]. reflexivity.
  - eexists. split; [reflexivity|]. discriminate.
Qed.

Lemma conversions_all_fail g (l : list string) : forall k,
  filter success
         (entries (services L inspect encode others elapsed) "convert" options
                  (entry_of g) k l) = [].
Proof.
  induction l as [|a l IH]; intros k; [reflexivity|].
  rewrite entries_cons. destruct (conversion_rejected k a) as (d & -> & _).
  cbn [entry_of filter success]. apply IH.
Qed.

End Conversions.



(** * Properties of ImageUtils.saveBuffer *)

Section Saving.

Local Open Scope string_scope.

Lemma toLower_append (a b : string) :
  Str.toLower (a ++ b) = Str.toLower a ++ Str.toLower b.
Proof.
  induction a as [|c a IH]; [reflexivity|].
  cbn [append Str.toLower]. now rewrite IH.
Qed.

Lemma endsWith_refl (s : string) : Str.endsWith s s = true.
Proof. destruct s; cbn [Str.endsWith]; now rewrite String.eqb_refl. Qed.

Lemma endsWith_append (a b : string) : Str.endsWith (a ++ b) b = true.
Proof.
  induction a as [|c a IH]; [apply endsWith_refl|].
  cbn [append Str.endsWith]. rewrite IH. apply orb_true_r.
Qed.

Lemma lower_is_dot (c : ascii) : Str.lower c = "."%char -> c = "."%char.
Proof.
  intros H. apply Ascii.eqb_eq. rewrite <- lower_dot. now apply Ascii.eqb_eq.
Qed.

Lemma endsWith_dot_includes (e : string) (s : string) :
  Str.endsWith (Str.toLower s) (String "." e) = true ->
  Str.includes s "." = true.
Proof.
  induction s as [|c s IH]; [discriminate|].
  cbn [Str.toLower Str.endsWith Str.includes]. intros H.
  apply orb_true_iff in H. destruct H as [H|H].
  - apply String.eqb_eq in H. injection H as Hc _.
    apply lower_is_dot in Hc. subst c. rewrite prefix_dot. reflexivity.
  - rewrite (IH H). apply orb_true_r.
Qed.

(** A prefix without a dot of a text extended by a dot and more is a
    prefix of the text. *)
Lemma prefix_before_dot (q : string) : forall p r,
  forallb (fun c => negb (Ascii.eqb c ".")) (list_ascii_of_string q) = true ->
  String.prefix q (p ++ String "." r) = true ->
  String.prefix q p = true.
Proof.
  induction q as [|a q IH]; intros p r Hq H.
  - now destruct p.
  - cbn [list_ascii_of_string forallb] in Hq. apply andb_true_iff in Hq.
    destruct Hq as [Ha Hq]. apply negb_true_iff, Ascii.eqb_neq in Ha.
    destruct p as [|b p]; cbn [append String.prefix] in H |- *.
    + destruct (ascii_dec a "."); [contradiction | discriminate].
    + destruct (ascii_dec a b); [|discriminate]. now apply IH with r.
Qed.

Lemma custom_file_path_extension (customPath format : string) :
  Str.endsWith (Str.toLower (custom_file_path customPath format))
               ("." ++ Str.toLower format) = true.
Proof.
  unfold custom_file_path.
  destruct (Str.endsWith (Str.toLower customPath) ("." ++ Str.toLower format))
    eqn:E; [exact E|].
  rewrite toLower_append.
  change (Str.toLower ("." ++ format)) with ("." ++ Str.toLower format).
  apply endsWith_append.
Qed.

End Saving.

(** X19. The file [saveBuffer] writes for a custom path carries the
    extension of the format: in lower case its path ends with a dot and
    the format, saving under that path again adds nothing, and for a
    format [convert] has an encoder for the path is one the validator of
    the batch processor accepts, unless it starts like a web address. *)
Theorem saved_files_are_valid_sources
        (URL_parses : string -> bool) (customPath format : string) :
  customPath <> ""%string ->
  FormatConverter.encoder_of format <> None ->
  Str.endsWith (Str.toLower (custom_file_path customPath format))
               ("." ++ Str.toLower format) = true
  /\ custom_file_path (custom_file_path customPath format) format
     = custom_file_path customPath format
  /\ ((Str.startsWith customPath "http://"
       || Str.startsWith customPath "https://")%bool = false ->
      isValidSource URL_parses (custom_file_path customPath format) = true).
Proof.
  intros _ Henc. pose proof (custom_file_path_extension customPath format) as Hext.
  split; [exact Hext|]. split.
  - unfold custom_file_path at 1. now rewrite Hext.
  - intros Hweb.
    assert (Hsame : (Str.startsWith (custom_file_path customPath format) "http://"
                     || Str.startsWith (custom_file_path customPath format)
                                       "https://")%bool = false).
    { unfold custom_file_path.
      destruct (Str.endsWith (Str.toLower customPath) ("." ++ Str.toLower format));
        [exact Hweb|].
      apply orb_false_iff in Hweb. destruct Hweb as [H1 H2].
      apply orb_false_iff. unfold Str.startsWith in *.
      split; apply not_true_is_false; intros H;
        apply prefix_before_dot in H; try reflexivity; congruence. }
    unfold isValidSource. rewrite Hsame.
    destruct (Str.startsWith (custom_file_path customPath format) "data:image/");
      [reflexivity|].
    rewrite (@endsWith_dot_includes (Str.toLower format) _ Hext). cbn [andb].
    assert (Hin : existsb (fun ext => Str.endsWith
                                        (Str.toLower (custom_file_path customPath format))
                                        ("." ++ ext)) image_extensions = true).
    { apply existsb_exists. exists (Str.toLower format).
      split; [now apply encoder_of_extensions | exact Hext]. }
    unfold extension_regex_test. now rewrite Hin.
Qed.

Lemma saved_files_are_valid_sources_witness :
  custom_file_path "out/photo" "PNG" = "out/photo.PNG"%string
  /\ isValidSource Demo.URL_parses "out/photo.PNG"%string = true.
Proof.
  split; [reflexivity|].
  destruct (@saved_files_are_valid_sources Demo.URL_parses "out/photo" "PNG")
    as (_ & _ & H).
  - discriminate.
  - discriminate.
  - apply H. reflexivity.
Defined.

(** * Properties of the tool server *)

(** X20. A [batch_process] request that carries a list of sources and a
    concurrency of at least 1, or none (then 3), is answered with
    content, the text of the result [process] returns, also when items
    or all of them fail or the operation is missing. A request without
    arguments or without sources is answered with an [McpError] of code
    [InternalError]. So is a request for a tool the server does not
    have: the error wraps the message of the [MethodNotFound] error. *)
Theorem batch_requests_are_answered
        (P : Providers) (C : Clock) (stringify : BatchResult -> string)
        (mcp_message : Server.ErrorCode -> string -> string)
        (single : string -> string + string) (no_arguments no_sources : string)
        (fuel : nat) :
  (forall args sources,
      Server.arg_sources args = Some sources ->
      (1 <= Server.concurrency_of args)%Z ->
      (List.length sources < fuel)%nat ->
      exists r,
        process P C fuel sources (Server.operation_of args)
                (Server.options_of args) (Server.concurrency_of args) = Some r
        /\ List.length (results r) = List.length sources
        /\ Server.CallTool P C stringify mcp_message single no_arguments no_sources
                           fuel "batch_process" (Some args)
           = Some (Server.Content (stringify r)))
  /\ Server.CallTool P C stringify mcp_message single no_arguments no_sources
                     fuel "batch_process" None
     = Some (Server.McpError Server.InternalError
                             ("工具执行失败: " ++ no_arguments)%string)
  /\ (forall args,
        Server.arg_sources args = None ->
        Server.CallTool P C stringify mcp_message single no_arguments no_sources
                        fuel "batch_process" (Some args)
        = Some (Server.McpError Server.InternalError
                                ("工具执行失败: " ++ no_sources)%string))
  /\ forall name args,
      existsb (String.eqb name) ("batch_process"%string :: Server.single_image_tools)
      = false ->
      Server.CallTool P C stringify mcp_message single no_arguments no_sources
                      fuel name args
      = Some (Server.McpError
                Server.InternalError
                ("工具执行失败: "
                 ++ mcp_message Server.MethodNotFound
                                ("未知或不支持的工具: " ++ name))%string).
Proof.
  split; [|split; [|split]].
  - intros args sources Hs Hc Hfuel. eexists.
    split; [apply process_eq; assumption|].
    split; [cbn [results aggregate]; apply entries_length|].
    unfold Server.CallTool, Server.handleBatchProcess.
    cbn [existsb Server.single_image_tools String.eqb Ascii.eqb Bool.eqb orb andb].
    rewrite Hs. now rewrite process_eq by assumption.
  - reflexivity.
  - intros args Hs. unfold Server.CallTool, Server.handleBatchProcess.
    cbn [existsb Server.single_image_tools String.eqb Ascii.eqb Bool.eqb orb andb].
    now rewrite Hs.
  - intros name args Hname. cbn [existsb] in Hname.
    apply orb_false_iff in Hname. destruct Hname as [Hb Hs].
    unfold Server.CallTool. now rewrite Hs, Hb.
Qed.

Lemma batch_requests_are_answered_witness :
  (exists text,
      Server.CallTool Demo.providers Demo.clock (fun _ => "{}"%string)
                      (fun _ text => text) (fun _ => inl ""%string)
                      "no arguments" "no sources" 4
                      "batch_process"%string
                      (Some {| Server.arg_sources := Some Demo.sources;
                               Server.arg_operation := None;
                               Server.arg_options := None;
                               Server.arg_concurrency := None |})
      = Some (Server.Content text))
  /\ Server.CallTool Demo.providers Demo.clock (fun _ => "{}"%string)
                     (fun _ text => text) (fun _ => inl ""%string)
                     "no arguments" "no sources" 4
                     "batch_process"%string
                     (Some {| Server.arg_sources := None;
                              Server.arg_operation := Some "analyze"%string;
                              Server.arg_options := None;
                              Server.arg_concurrency := None |})
     = Some (Server.McpError Server.InternalError
                             ("工具执行失败: " ++ "no sources")%string).
Proof.
  destruct (@batch_requests_are_answered
              Demo.providers Demo.clock (fun _ => "{}"%string)
              (fun _ text => text) (fun _ => inl ""%string)
              "no arguments" "no sources" 4)
    as (Hlist & _ & Hnone & _).
  split.
  - destruct (Hlist {| Server.arg_sources := Some Demo.sources;
                       Server.arg_operation := None;
                       Server.arg_options := None;
                       Server.arg_concurrency := None |}
                    Demo.sources eq_refl) as (r & _ & _ & H).
    + cbn. lia.
    + cbn. lia.
    + eexists. exact H.
  - apply Hnone. reflexivity.
Defined.

(** * Properties of FormatConverter.createResponsiveVersions *)

(** X21. [createResponsiveVersions] throws nothing and makes no version
    of a source that cannot be loaded. Of a source that loads, the
    versions are those made directly from the resized buffers, in the
    order of the widths: the data URL handed to [convert] is always
    loaded back to the buffer it was made of, given that the base64 text
    of a resized buffer is not empty, has no line break and decodes to
    the buffer. *)
Theorem responsive_versions
        (L : ImageUtils.Platform)
        (inspect : ImageUtils.Buffer -> option string)
        (encode : FormatConverter.Encoder -> ImageUtils.Buffer -> Options
                  -> Payload + string)
        (others : nat -> Call -> ImageUtils.Buffer -> Payload + string)
        (elapsed : nat -> Z)
        (resize : ImageUtils.Buffer -> Z -> ImageUtils.Buffer + string)
        (to_base64 : ImageUtils.Buffer -> string)
        (source : string) (sizes : list Z) :
  (forall originalBuffer width resizedBuffer,
      ImageUtils.loadImage L source = inl originalBuffer ->
      resize originalBuffer width = inl resizedBuffer ->
      to_base64 resizedBuffer <> ""%string
      /\ ImageUtils.has_line_terminator (to_base64 resizedBuffer) = false
      /\ ImageUtils.from_base64 L (to_base64 resizedBuffer) = resizedBuffer) ->
  createResponsiveVersions (convert (services L inspect encode others elapsed) 0) L
                           resize to_base64 source sizes
  = match ImageUtils.loadImage L source with
    | inr _ => []
    | inl originalBuffer =>
        direct_versions inspect encode resize originalBuffer sizes
    end.
Proof.
  intros Hcodec. unfold createResponsiveVersions, direct_versions.
  destruct (ImageUtils.loadImage L source) as [original|message] eqn:Hl.
  - apply flat_map_ext. intros width. unfold responsive_version. rewrite Hl.
    destruct (resize original width) as [resized|m] eqn:Hr; [|reflexivity].
    destruct (Hcodec original width resized eq_refl Hr) as (Hne & Hline & Hback).
    unfold convert, services, providers_over. cbn [work call_source].
    rewrite (proj1 (@data_url_loads L (fun _ => true) "webp" _
                      ltac:(discriminate) Hne Hline)).
    change (String.eqb (Str.toLower "webp") "webp") with true.
    cbn iota. rewrite Hback. unfold rethrow.
    destruct (convert_body inspect encode "webp" responsive_options resized);
      reflexivity.
  - induction sizes as [|w sizes IH]; [reflexivity|].
    cbn [flat_map]. unfold responsive_version at 1. rewrite Hl. exact IH.
Qed.

Lemma responsive_versions_witness :
  createResponsiveVersions
    (convert (services online (fun _ => None) (fun _ _ _ => inl "version"%string)
                       (fun _ _ _ => inl ""%string) (fun _ => 0%Z)) 0)
    online
    (fun _ width => if (width <=? 1000)%Z then inl [Byte.x89]
                    else inr "too wide"%string)
    (fun _ => "iQ=="%string) "http://host/a.png" [480; 1920]%Z
  = [(480%Z, "version"%string)].
Proof.
  refine (eq_trans
            (@responsive_versions
               online (fun _ => None) (fun _ _ _ => inl "version"%string)
               (fun _ _ _ => inl ""%string) (fun _ => 0%Z)
               (fun _ width => if (width <=? 1000)%Z then inl [Byte.x89]
                               else inr "too wide"%string)
               (fun _ => "iQ=="%string) "http://host/a.png" [480; 1920]%Z _) _).
  - intros original width resized _ Hr.
    destruct (width <=? 1000)%Z; [|discriminate]. injection Hr as <-.
    repeat split. discriminate.
  - reflexivity.
Defined.

(** * Properties of the palette of ImageAnalyzer *)

Section Palette.

Lemma count_pixels_returns (n : nat) : forall buffer colorMap,
  (List.length buffer <= n)%nat ->
  (exists counted, ImageAnalyzer.count_pixels buffer colorMap = Some counted)
  <-> Nat.modulo (List.length buffer) 3 = 0%nat.
Proof.
  induction n as [|n IH]; intros buffer colorMap Hn.
  - destruct buffer; [|cbn in Hn; lia]. cbn. split; [reflexivity | eauto].
  - destruct buffer as [|r [|g [|b rest]]].
    + cbn. split; [reflexivity | eauto].
    + cbn. split; [intros [? H]; discriminate | discriminate].
    + cbn. split; [intros [? H]; discriminate | discriminate].
    + cbn [ImageAnalyzer.count_pixels List.length] in *.
      rewrite IH by lia.
      replace (S (S (S (List.length rest)))) with (List.length rest + 1 * 3)%nat
        by lia.
      now rewrite Nat.Div0.mod_add.
Qed.

End Palette.

(** X22. [extractPalette] returns exactly on the buffers whose length is
    a multiple of 3, and throws on all others. So [analyzeColors]
    answers with its fallback, black at 100 percent, whenever the
    reduced image of 50 by 50 pixels has 1, 2 or 4 channels instead of
    3. *)
Theorem palette_needs_three_channels
        (share : Z -> Z -> JS.number)
        (average : ImageUtils.Buffer -> option string)
        (reduced : ImageUtils.Buffer -> option ImageUtils.Buffer)
        (imageBuffer resized : ImageUtils.Buffer) (channels : nat) :
  reduced imageBuffer = Some resized ->
  List.length resized = (50 * 50 * channels)%nat ->
  ((exists palette, ImageAnalyzer.extractPalette share resized = Some palette)
   <-> Nat.modulo channels 3 = 0%nat)
  /\ (Nat.modulo channels 3 <> 0%nat ->
      ImageAnalyzer.analyzeColors share average reduced imageBuffer
      = ImageAnalyzer.fallback).
Proof.
  intros Hred Hlen.
  assert (Hmod : Nat.modulo (List.length resized) 3 = Nat.modulo channels 3).
  { rewrite Hlen.
    replace (50 * 50 * channels)%nat with (channels + (833 * channels) * 3)%nat by lia.
    apply Nat.Div0.mod_add. }
  assert (Hret : (exists palette,
                     ImageAnalyzer.extractPalette share resized = Some palette)
                 <-> Nat.modulo channels 3 = 0%nat).
  { rewrite <- Hmod,
      <- (@count_pixels_returns (List.length resized) resized [] (Nat.le_refl _)).
    unfold ImageAnalyzer.extractPalette, ImageAnalyzer.ranked.
    destruct (ImageAnalyzer.count_pixels resized []); cbn [option_map].
    - split; eauto.
    - split; intros [? H]; discriminate. }
  split; [exact Hret|].
  intros Hc. unfold ImageAnalyzer.analyzeColors.
  destruct (average imageBuffer); [|reflexivity]. rewrite Hred.
  destruct (ImageAnalyzer.extractPalette share resized) as [palette|] eqn:E;
    [|reflexivity].
  exfalso. apply Hc, Hret. now exists palette.
Qed.

Lemma palette_needs_three_channels_witness :
  ImageAnalyzer.analyzeColors
    percent (fun _ => Some "#808080"%string) (fun _ => Some (repeat Byte.x80 2500)) []
  = ImageAnalyzer.fallback.
Proof.
  destruct (@palette_needs_three_channels
              percent (fun _ => Some "#808080"%string)
              (fun _ => Some (repeat Byte.x80 2500)) [] (repeat Byte.x80 2500) 1
              eq_refl)
    as [_ H].
  - now rewrite repeat_length.
  - apply H. discriminate.
Defined.

Section Ranking.

Local Open Scope Z_scope.

Lemma bump_keys (color : string) (colorMap : list (string * Z)) (k : string) :
  In k (map fst (ImageAnalyzer.bump color colorMap))
  <-> k = color \/ In k (map fst colorMap).
Proof.
  induction colorMap as [|[c n] m IH]; cbn [ImageAnalyzer.bump map fst In].
  - intuition congruence.
  - destruct (String.eqb_spec c color) as [->|Hne]; cbn [map fst In].
    + intuition congruence.
    + rewrite IH. intuition congruence.
Qed.

Lemma bump_distinct (color : string) (colorMap : list (string * Z)) :
  NoDup (map fst colorMap) -> NoDup (map fst (ImageAnalyzer.bump color colorMap)).
Proof.
  induction colorMap as [|[c n] m IH]; cbn [ImageAnalyzer.bump map fst]; intros H.
  - constructor; [intros [] | constructor].
  - inversion H as [|? ? Hnotin Hm]; subst.
    destruct (String.eqb_spec c color) as [->|Hne]; cbn [map fst].
    + now constructor.
    + constructor; [|now apply IH].
      rewrite bump_keys. intros [-> | Hin]; contradiction.
Qed.

Lemma bump_positive (color : string) (colorMap : list (string * Z)) :
  Forall (fun e => 1 <= snd e) colorMap ->
  Forall (fun e => 1 <= snd e) (ImageAnalyzer.bump color colorMap).
Proof.
  induction colorMap as [|[c n] m IH]; cbn [ImageAnalyzer.bump]; intros H.
  - constructor; [cbn [snd]; lia | constructor].
  - inversion H as [|? ? Hn Hm]; subst. cbn [snd] in Hn.
    destruct (String.eqb c color); constructor; cbn [snd]; try lia; auto.
Qed.

Lemma count_pixels_keeps (n : nat) : forall buffer colorMap counted,
  (List.length buffer <= n)%nat ->
  NoDup (map fst colorMap) ->
  Forall (fun e => 1 <= snd e) colorMap ->
  ImageAnalyzer.count_pixels buffer colorMap = Some counted ->
  NoDup (map fst counted) /\ Forall (fun e => 1 <= snd e) counted.
Proof.
  induction n as [|n IH]; intros buffer colorMap counted Hn Hd Hp H.
  - destruct buffer; [|cbn in Hn; lia]. injection H as <-. now split.
  - destruct buffer as [|r [|g [|b rest]]]; try discriminate.
    + injection H as <-. now split.
    + cbn [ImageAnalyzer.count_pixels List.length] in *.
      apply IH in H; [exact H | lia | now apply bump_distinct
                      | now apply bump_positive].
Qed.

Lemma insert_by_count_permutation (x : string * Z) (l : list (string * Z)) :
  Permutation (ImageAnalyzer.insert_by_count x l) (x :: l).
Proof.
  induction l as [|y l IH]; cbn [ImageAnalyzer.insert_by_count]; [reflexivity|].
  destruct (snd y <=? snd x); [reflexivity|].
  rewrite IH. apply perm_swap.
Qed.

Lemma sort_by_count_permutation (l : list (string * Z)) :
  Permutation (ImageAnalyzer.sort_by_count l) l.
Proof.
  induction l as [|x l IH]; [reflexivity|].
  cbn [ImageAnalyzer.sort_by_count fold_right].
  rewrite insert_by_count_permutation. now constructor.
Qed.

Lemma insert_by_count_sorted (x : string * Z) (l : list (string * Z)) :
  StronglySorted (fun a b => snd b <= snd a) l ->
  StronglySorted (fun a b => snd b <= snd a) (ImageAnalyzer.insert_by_count x l).
Proof.
  induction l as [|y l IH]; cbn [ImageAnalyzer.insert_by_count]; intros H.
  - repeat constructor.
  - inversion H as [|? ? Hl Hy]; subst.
    destruct (Z.leb_spec (snd y) (snd x)) as [Hle|Hgt].
    + constructor; [exact H|]. constructor; [exact Hle|].
      eapply Forall_impl; [|exact Hy]. cbn. intros; lia.
    + constructor; [now apply IH|].
      apply Forall_forall. intros z Hz.
      apply (Permutation_in _ (insert_by_count_permutation x l)) in Hz.
      destruct Hz as [<- | Hz]; [lia|].
      rewrite Forall_forall in Hy. now apply Hy.
Qed.

Lemma sort_by_count_sorted (l : list (string * Z)) :
  StronglySorted (fun a b => snd b <= snd a) (ImageAnalyzer.sort_by_count l).
Proof.
  induction l as [|x l IH]; [constructor|].
  cbn [ImageAnalyzer.sort_by_count fold_right]. now apply insert_by_count_sorted.
Qed.

Lemma sorted_split (A : Type) (R : A -> A -> Prop) (l1 l2 : list A) :
  StronglySorted R (l1 ++ l2) ->
  StronglySorted R l1 /\ forall x y, In x l1 -> In y l2 -> R x y.
Proof.
  induction l1 as [|a l1 IH]; cbn [app]; intros H.
  - split; [constructor | intros x y []].
  - inversion H as [|? ? Hs Ha]; subst. destruct (IH Hs) as [H1 H2].
    rewrite Forall_forall in Ha. split.
    + constructor; [exact H1|]. apply Forall_forall. intros z Hz.
      apply Ha, in_or_app. now left.
    + intros x y [<- | Hx] Hy; [apply Ha, in_or_app; now right | now apply H2].
Qed.

End Ranking.

(** X23. When [extractPalette] returns, its palette lists at most five
    colours, all different, the more frequent first, each with the share
    of its count in the pixels; every colour of the image that is left
    out occurs no more often than any colour listed. *)
Theorem palette_ranks_the_colours
        (share : Z -> Z -> JS.number)
        (buffer : ImageUtils.Buffer) (palette : list (string * JS.number)) :
  ImageAnalyzer.extractPalette share buffer = Some palette ->
  exists counted top,
    ImageAnalyzer.count_pixels buffer [] = Some counted
    /\ ImageAnalyzer.ranked buffer = Some top
    /\ palette
       = map (fun entry =>
                (fst entry,
                 share (snd entry) (Z.of_nat (List.length buffer) / 3)%Z)) top
    /\ (List.length top <= 5)%nat
    /\ NoDup (map fst top)
    /\ StronglySorted (fun a b => (snd b <= snd a)%Z) top
    /\ Forall (fun entry => (1 <= snd entry)%Z) top
    /\ forall entry, In entry counted ->
         In entry top \/ forall listed, In listed top -> (snd entry <= snd listed)%Z.
Proof.
  unfold ImageAnalyzer.extractPalette, ImageAnalyzer.ranked.
  destruct (ImageAnalyzer.count_pixels buffer []) as [counted|] eqn:Hc;
    [|discriminate].
  cbn [option_map]. intros H. injection H as <-.
  exists counted, (firstn 5 (ImageAnalyzer.sort_by_count counted)).
  destruct (@count_pixels_keeps (List.length buffer) buffer [] counted
              (Nat.le_refl _) (NoDup_nil _) (Forall_nil _) Hc) as [Hd Hp].
  pose proof (sort_by_count_permutation counted) as Hperm.
  pose proof (sort_by_count_sorted counted) as Hsorted.
  rewrite <- (firstn_skipn 5 (ImageAnalyzer.sort_by_count counted)) in Hsorted.
  apply sorted_split in Hsorted. destruct Hsorted as [Htop Hrest].
  repeat split; trivial.
  - apply firstn_le_length.
  - assert (Hd' : NoDup (map fst (ImageAnalyzer.sort_by_count counted))).
    { eapply Permutation_NoDup; [|exact Hd].
      apply Permutation_map. now symmetry. }
    rewrite <- (firstn_skipn 5 (ImageAnalyzer.sort_by_count counted)), map_app in Hd'.
    now apply NoDup_app_remove_r in Hd'.
  - apply Forall_forall. intros e He.
    rewrite Forall_forall in Hp. apply Hp.
    apply (Permutation_in _ Hperm).
    rewrite <- (firstn_skipn 5 (ImageAnalyzer.sort_by_count counted)).
    apply in_or_app. now left.
  - intros entry Hin. symmetry in Hperm.
    apply (Permutation_in _ Hperm) in Hin.
    rewrite <- (firstn_skipn 5 (ImageAnalyzer.sort_by_count counted)) in Hin.
    apply in_app_or in Hin. destruct Hin as [Hin | Hin]; [now left|].
    right. intros listed Hl. now apply Hrest.
Qed.

Lemma palette_ranks_the_colours_witness :
  exists counted top,
    ImageAnalyzer.count_pixels
      [Byte.x00; Byte.xff; Byte.x00; Byte.xff; Byte.x00; Byte.x00;
       Byte.xff; Byte.x00; Byte.x00] [] = Some counted
    /\ ImageAnalyzer.ranked
         [Byte.x00; Byte.xff; Byte.x00; Byte.xff; Byte.x00; Byte.x00;
          Byte.xff; Byte.x00; Byte.x00] = Some top
    /\ NoDup (map fst top).
Proof.
  destruct (@palette_ranks_the_colours
              percent
              [Byte.x00; Byte.xff; Byte.x00; Byte.xff; Byte.x00; Byte.x00;
               Byte.xff; Byte.x00; Byte.x00]
              [("#ff0000"%string, JS.of_Z 67); ("#00ff00"%string, JS.of_Z 33)]
              eq_refl)
    as (counted & top & Hc & Ht & _ & _ & Hd & _).
  exists counted, top. repeat split; assumption.
Defined.

(** * A callback that returns

    With a callback that returns at every call, the run with the
    callback spelled out is the run with the flag. *)

Section Returning.

Variable P : Providers.
Variable C : Clock.
Variable operation : string.
Variable options : Options.
Variable n : Z.
Variable onProgress : option Callback.
Hypothesis quiet : returns onProgress.

Lemma count_and_report_returns (w : Watch) :
  count_and_report n onProgress w
  = ({| w_completed := w_completed w + 1;
        w_calls := w_calls w + (if given onProgress then 1 else 0);
        w_events :=
          w_events w
          ++ (if given onProgress
              then [EvProgress
                      {| completed := w_completed w + 1;
                         total := n;
                         percentage := percent (w_completed w + 1) n |}]
              else []) |}, None).
Proof.
  unfold count_and_report. destruct onProgress as [behaviour|]; cbn [given].
  - cbn in quiet. rewrite quiet. unfold percent. do 2 f_equal. lia.
  - now rewrite Nat.add_0_r, app_nil_r.
Qed.

Lemma attend_returns (src : string) (s : Settled) (k : nat) (w : Watch) :
  attend n onProgress src s k w
  = ({| w_completed := fst (notify n (given onProgress) (w_completed w, w_events w) k);
        w_calls := w_calls w + (if given onProgress then 1 else 0);
        w_events := snd (notify n (given onProgress) (w_completed w, w_events w) k) |},
     Kept (caught_entry src s)).
Proof.
  unfold attend. destruct s; rewrite count_and_report_returns;
    cbn [w_completed w_calls w_events notify fst snd]; unfold percent;
    rewrite <- app_assoc; reflexivity.
Qed.

Lemma attend_all_returns (jobs : nat -> option (string * Settled))
      (entry : nat -> Entry) (order : list nat) :
  (forall k, In k order ->
             exists src s, jobs k = Some (src, s) /\ entry k = caught_entry src s) ->
  forall w items,
    fold_left
      (fun acc k =>
         match jobs k with
         | Some (src, s) =>
             let '(w', item) := attend n onProgress src s k (fst acc) in
             (w', (snd acc ++ [(k, item)])%list)
         | None => acc
         end)
      order (w, items)
    = ({| w_completed :=
            fst (fold_left (notify n (given onProgress)) order
                           (w_completed w, w_events w));
          w_calls :=
            w_calls w + (if given onProgress then List.length order else 0);
          w_events :=
            snd (fold_left (notify n (given onProgress)) order
                           (w_completed w, w_events w)) |},
       items ++ map (fun k => (k, Kept (entry k))) order).
Proof.
  induction order as [|k order IH]; intros Hjobs w items.
  - cbn [fold_left map List.length]. rewrite app_nil_r.
    destruct w. cbn. f_equal. f_equal. destruct (given onProgress); lia.
  - cbn [fold_left]. destruct (Hjobs k (or_introl eq_refl)) as (src & s & -> & He).
    cbn [fst snd]. rewrite attend_returns, IH.
    + cbn [w_completed w_calls w_events map List.length].
      rewrite <- He, <- app_assoc. cbn [app].
      replace (notify n (given onProgress) (w_completed w, w_events w) k)
        with (fst (notify n (given onProgress) (w_completed w, w_events w) k),
              snd (notify n (given onProgress) (w_completed w, w_events w) k))
        by (now destruct (notify n (given onProgress) (w_completed w, w_events w) k)).
      cbn [fst snd]. f_equal. f_equal. destruct (given onProgress); lia.
    + intros k' Hk'. apply Hjobs. now right.
Qed.

Lemma first_lost_kept (entry : nat -> Entry) (order : list nat) :
  first_lost (map (fun k => (k, Kept (entry k))) order) = None.
Proof.
  unfold first_lost. rewrite flat_map_concat_map, map_map.
  induction order as [|k order IH]; [reflexivity|]. cbn [map List.concat snd app].
  exact IH.
Qed.

Lemma item_of_kept (entry : nat -> Entry) (order : list nat) (k : nat) :
  In k order ->
  item_of (map (fun k => (k, Kept (entry k))) order) k = Some (Kept (entry k)).
Proof.
  unfold item_of. induction order as [|a order IH]; intros H; [destruct H|].
  cbn [map find fst]. destruct (Nat.eqb_spec a k) as [->|Hne]; [reflexivity|].
  destruct H as [->|H]; [contradiction | now apply IH].
Qed.

Lemma kept_in_order_all (entry : nat -> Entry) (order ks : list nat) :
  (forall k, In k ks -> In k order) ->
  kept_in_order (map (fun k => (k, Kept (entry k))) order) ks = map entry ks.
Proof.
  intros Hin. unfold kept_in_order. induction ks as [|k ks IH]; [reflexivity|].
  cbn [flat_map map]. rewrite item_of_kept by (apply Hin; now left).
  cbn [app]. f_equal. apply IH. intros k' Hk'. apply Hin. now right.
Qed.

Lemma map_by_position (A B : Type) (g : option A -> B) (l : list A) : forall a,
  map (fun k => g (nth_error l (k - a))) (seq a (List.length l))
  = map (fun x => g (Some x)) l.
Proof.
  induction l as [|x l IH]; intros a; [reflexivity|].
  cbn [List.length seq map]. rewrite Nat.sub_diag. cbn [nth_error]. f_equal.
  rewrite <- (IH (S a)). apply map_ext_in. intros k Hk. apply in_seq in Hk.
  replace (k - a)%nat with (S (k - S a)) by lia. reflexivity.
Qed.

(** One window. *)
Lemma watched_window_returns (st : State) (calls : nat) (batch : list string) :
  watched_window P C n onProgress operation options st calls batch
  = (progress_window P C n (given onProgress) operation options st batch,
     (calls + (if given onProgress then List.length batch else 0))%nat,
     None).
Proof.
  unfold watched_window, progress_window, attend_all.
  pose proof (outcomes_length P operation options batch (st_issued st)) as Hlen.
  unfold outcomes in Hlen.
  destruct (dispatch P (st_issued st) batch operation options) as [ev settled].
  cbn [snd] in Hlen.
  set (ks := seq (st_issued st) (List.length batch)).
  set (jobs := fun k => nth_error (combine batch settled) (k - st_issued st)).
  set (entry := fun k => match jobs k with
                         | Some (src, s) => caught_entry src s
                         | None => caught_entry "" (Rejected (OtherValue None))
                         end).
  rewrite (@attend_all_returns jobs entry (settle_order C ks)).
  - cbn [app w_completed w_calls w_events].
    rewrite first_lost_kept, kept_in_order_all
      by (intros k Hk; now apply settle_order_In).
    rewrite settle_order_length. unfold ks at 4. rewrite length_seq.
    destruct (fold_left (notify n (given onProgress)) (settle_order C ks)
                        (st_completed st, [])) as [completed' evs].
    cbn [fst snd]. do 3 f_equal.
    unfold entry, jobs, ks.
    replace (List.length batch) with (List.length (combine batch settled))
      by (rewrite length_combine; lia).
    rewrite (map_by_position
               (fun o => match o with
                         | Some (src, s) => caught_entry src s
                         | None => caught_entry "" (Rejected (OtherValue None))
                         end)).
    f_equal. apply map_ext. now intros [src s].
  - intros k Hk. apply settle_order_In, in_seq in Hk.
    unfold entry, jobs.
    destruct (nth_error (combine batch settled) (k - st_issued st)) as [[src s]|] eqn:E.
    + now exists src, s.
    + apply nth_error_None in E. rewrite length_combine in E. lia.
Qed.

Lemma watched_loop_returns (sources : list string) (concurrency : Z) (fuel : nat) :
  forall i st calls,
    option_map fst
               (watched_loop P C n onProgress operation options sources concurrency
                             fuel i st calls)
    = window_loop (progress_window P C n (given onProgress) operation options)
                  sources concurrency fuel i st
    /\ option_map snd
                  (watched_loop P C n onProgress operation options sources concurrency
                                fuel i st calls)
       = option_map (fun _ => None)
                    (window_loop (progress_window P C n (given onProgress)
                                                  operation options)
                                 sources concurrency fuel i st).
Proof.
  induction fuel as [|fuel IH]; intros i st calls; [split; reflexivity|].
  cbn [watched_loop window_loop].
  destruct (i <? Z.of_nat (List.length sources))%Z; [|split; reflexivity].
  rewrite watched_window_returns. apply IH.
Qed.

End Returning.

Lemma processWithProgress_calling_returns
      (P : Providers) (C : Clock) (fuel : nat) (sources : list string)
      (operation : string) (options : Options) (concurrency : Z)
      (onProgress : option Callback) :
  returns onProgress ->
  processWithProgress_calling P C fuel sources operation options concurrency onProgress
  = option_map (fun st => (st, inl (aggregate (st_results st) (wallClock C))))
               (processWithProgress_run P C fuel sources operation options
                                        concurrency (given onProgress)).
Proof.
  intros Hq. unfold processWithProgress_calling, processWithProgress_run.
  destruct (@watched_loop_returns P C operation options
              (Z.of_nat (List.length sources)) onProgress Hq sources concurrency
              fuel 0%Z initial 0%nat) as [H1 H2].
  destruct (watched_loop P C (Z.of_nat (List.length sources)) onProgress operation
                         options sources concurrency fuel 0 initial 0)
    as [[st rejection]|];
    destruct (window_loop
                (progress_window P C (Z.of_nat (List.length sources))
                                 (given onProgress) operation options)
                sources concurrency fuel 0 initial) as [st'|];
    cbn [option_map fst snd] in *; try discriminate; [|reflexivity].
  injection H1 as ->. injection H2 as ->. reflexivity.
Qed.

(** * Progress reports with the callback spelled out *)

(** C4. A run of [processWithProgress] over [n] sources with a callback
    that returns calls it exactly [n] times; the j-th call comes directly
    after the j-th settlement of the run and carries [completed = j],
    [total = n] and the percentage [Math.round((j / n) * 100)] as the
    code computes it in doubles, so the completed values are 1, 2, ..., n
    in this order whatever the settlement order; every dispatch settles
    exactly once, and the last report carries [completed = n] and 100
    percent. *)
Theorem progress_counts_every_item
        (P : Providers) (C : Clock) (sources : list string) (operation : string)
        (options : Options) (concurrency : Z) (fuel : nat) (behaviour : Callback) :
  (1 <= concurrency)%Z ->
  (List.length sources < fuel)%nat ->
  returns (Some behaviour) ->
  let n := List.length sources in
  exists st r,
    processWithProgress_calling P C fuel sources operation options concurrency
                                (Some behaviour) = Some (st, inl r)
    /\ results r = entries P operation options caught_entry 0 sources
    /\ reports (st_trace st) = map (report (Z.of_nat n)) (seq 1 n)
    /\ map completed (reports (st_trace st)) = map Z.of_nat (seq 1 n)
    /\ Permutation (settlements (st_trace st)) (seq 0 n)
    /\ observed (st_trace st)
       = flat_map (settle_then_report (Z.of_nat n))
                  (combine (settlements (st_trace st)) (seq 1 n))
    /\ st_completed st = Z.of_nat n
    /\ (sources <> [] ->
        forall d,
          last (reports (st_trace st)) d
          = {| completed := Z.of_nat n; total := Z.of_nat n;
               percentage := JS.of_Z 100 |}).
Proof.
  intros Hc Hf Hq n.
  destruct (@reports_with_the_flag P C sources operation options concurrency fuel
              Hc Hf) as (st & Hrun & H).
  exists st, (aggregate (st_results st) (wallClock C)).
  split.
  - rewrite (processWithProgress_calling_returns P C fuel sources operation options
               concurrency (Some behaviour) Hq).
    cbn [given]. now rewrite Hrun.
  - split; [|exact H].
    rewrite processWithProgress_run_eq, enough_fuel in Hrun by trivial.
    injection Hrun as <-. reflexivity.
Qed.

Lemma progress_counts_every_item_witness :
  exists st r,
    processWithProgress_calling Demo.providers Demo.clock 4 Demo.sources "analyze"
                                Demo.options 2 (Some returning) = Some (st, inl r)
    /\ map completed (reports (st_trace st)) = [1; 2; 3]%Z
    /\ map percentage (reports (st_trace st)) = map JS.of_Z [33; 67; 100]%Z
    /\ settlements (st_trace st) = [1; 0; 2]%nat.
Proof.
  destruct (@progress_counts_every_item Demo.providers Demo.clock Demo.sources
              "analyze" Demo.options 2 4 returning)
    as (st & r & Hrun & _ & _ & Hc & _).
  - lia.
  - cbn. lia.
  - intros i p. reflexivity.
  - exists st, r. split; [exact Hrun|]. split; [exact Hc|].
    vm_compute in Hrun. injection Hrun as <- _. split; reflexivity.
Defined.

(** The claim of the specification fails in two ways. Of 40 sources the
    23rd report carries 57 percent, where [23 / 40 * 100] rounds to 58:
    the quotient is rounded to a double before it is multiplied. And a
    callback that throws at its first call is called a second time for
    the same item: one source, two reports, [completed] 1 and 2, and the
    item that succeeded is recorded as failed. *)
Lemma progress_counts_every_item_counterexample :
  (exists st r,
      processWithProgress_calling Demo.providers Demo.clock 41
                                  (repeat "a.png"%string 40) "analyze" Demo.options 3
                                  (Some returning) = Some (st, inl r)
      /\ nth_error (map percentage (reports (st_trace st))) 22 = Some (JS.of_Z 57)
      /\ round_div (100 * 23) 40 = 58%Z)
  /\ (exists st r,
        processWithProgress_calling Demo.providers Demo.clock 2 ["a.png"%string]
                                    "analyze" Demo.options 3 (Some throws_once)
        = Some (st, inl r)
        /\ settlements (st_trace st) = [0%nat]
        /\ map completed (reports (st_trace st)) = [1; 2]%Z
        /\ map percentage (reports (st_trace st)) = map JS.of_Z [100; 200]%Z
        /\ results r = [failure "a.png" "callback failed"]).
Proof.
  split.
  - eexists. eexists. split; [vm_compute; reflexivity|]. split; reflexivity.
  - eexists. eexists. split; [vm_compute; reflexivity|]. repeat split; reflexivity.
Qed.

(** X3. The percentages reported to a callback that returns never go
    back: in the order of the calls they are whole numbers between 0 and
    100, each at least as large as the one before. *)
Theorem progress_never_goes_back
        (P : Providers) (C : Clock) (sources : list string) (operation : string)
        (options : Options) (concurrency : Z) (fuel : nat) (behaviour : Callback) :
  (1 <= concurrency)%Z ->
  (List.length sources < fuel)%nat ->
  returns (Some behaviour) ->
  exists st r ps,
    processWithProgress_calling P C fuel sources operation options concurrency
                                (Some behaviour) = Some (st, inl r)
    /\ map percentage (reports (st_trace st)) = map JS.of_Z ps
    /\ List.length ps = List.length sources
    /\ StronglySorted Z.le ps
    /\ Forall (fun p => (0 <= p <= 100)%Z) ps.
Proof.
  intros Hc Hf Hq.
  destruct (@percentages_with_the_flag P C sources operation options concurrency fuel
              Hc Hf) as (st & ps & Hrun & H).
  exists st, (aggregate (st_results st) (wallClock C)), ps.
  split; [|exact H].
  rewrite (processWithProgress_calling_returns P C fuel sources operation options
             concurrency (Some behaviour) Hq).
  cbn [given]. now rewrite Hrun.
Qed.

Lemma progress_never_goes_back_witness :
  exists st r,
    processWithProgress_calling Demo.providers Demo.clock 4 Demo.sources "analyze"
                                Demo.options 2 (Some returning) = Some (st, inl r)
    /\ map percentage (reports (st_trace st)) = map JS.of_Z [33; 67; 100]%Z.
Proof.
  destruct (@progress_never_goes_back Demo.providers Demo.clock Demo.sources
              "analyze" Demo.options 2 4 returning)
    as (st & r & ps & Hrun & _).
  - lia.
  - cbn. lia.
  - intros i p. reflexivity.
  - exists st, r. split; [exact Hrun|].
    vm_compute in Hrun. injection Hrun as <- _. reflexivity.
Defined.

(** * A callback that may throw *)

Section Calling.

Variable P : Providers.
Variable C : Clock.
Variable operation : string.
Variable options : Options.
Variable n : Z.
Variable onProgress : option Callback.

Lemma attend_recorded (src : string) (s : Settled) (k : nat) (w : Watch) :
  kept_as src s (snd (attend n onProgress src s k w)).
Proof.
  unfold attend. destruct s as [value ms|reason].
  - destruct (count_and_report n onProgress _) as [w1 [err|]]; cbn [snd kept_as].
    + destruct (count_and_report n onProgress w1) as [w2 [err'|]]; cbn [snd kept_as];
        [exact I|].
      right. split; [reflexivity|]. now exists (caught_message err).
    + now left.
  - destruct (count_and_report n onProgress _) as [w1 [err|]]; cbn [snd kept_as];
      [exact I | now left].
Qed.

Lemma attend_all_items (jobs : nat -> option (string * Settled)) (order : list nat) :
  (forall k, In k order -> exists src s, jobs k = Some (src, s)) ->
  forall w items,
    exists new,
      snd (fold_left
             (fun acc k =>
                match jobs k with
                | Some (src, s) =>
                    let '(w', item) := attend n onProgress src s k (fst acc) in
                    (w', (snd acc ++ [(k, item)])%list)
                | None => acc
                end)
             order (w, items))
      = (items ++ new)%list
      /\ map fst new = order
      /\ Forall (fun ki => exists src s,
                     jobs (fst ki) = Some (src, s) /\ kept_as src s (snd ki)) new.
Proof.
  induction order as [|k order IH]; intros Hjobs w items.
  - exists []. cbn [fold_left snd]. rewrite app_nil_r. repeat split. constructor.
  - cbn [fold_left]. destruct (Hjobs k (or_introl eq_refl)) as (src & s & E).
    rewrite E. cbn [fst snd].
    pose proof (attend_recorded src s k w) as Hk.
    destruct (attend n onProgress src s k w) as [w' item]. cbn [snd] in Hk.
    destruct (IH (fun k' H => Hjobs k' (or_intror H)) w' (items ++ [(k, item)])%list)
      as (new & Hnew & Hkeys & Hall).
    exists ((k, item) :: new). rewrite Hnew, <- app_assoc. cbn [app map fst].
    split; [reflexivity|]. split; [now rewrite Hkeys|].
    constructor; [|exact Hall]. cbn [fst snd]. now exists src, s.
Qed.

Lemma first_lost_none (items : list (nat * Item)) :
  first_lost items = None -> Forall (fun ki => exists e, snd ki = Kept e) items.
Proof.
  unfold first_lost. induction items as [|[k item] items IH]; intros H; [constructor|].
  cbn [flat_map snd] in H. destruct item as [e|reason].
  - constructor; [now exists e | now apply IH].
  - discriminate.
Qed.

Lemma kept_in_order_recorded (jobs : nat -> option (string * Settled))
      (items : list (nat * Item)) (ks : list nat) :
  Forall (fun ki => exists src s,
              jobs (fst ki) = Some (src, s) /\ kept_as src s (snd ki)) items ->
  first_lost items = None ->
  (forall k, In k ks -> In k (map fst items)) ->
  Forall2 (fun k e => exists src s,
               jobs k = Some (src, s) /\ recorded (caught_entry src s) e)
          ks (kept_in_order items ks).
Proof.
  intros Hall Hnone Hin. apply first_lost_none in Hnone.
  rewrite Forall_forall in Hall, Hnone.
  unfold kept_in_order. induction ks as [|k ks IH]; [constructor|].
  cbn [flat_map]. unfold item_of at 1.
  destruct (find (fun ki => Nat.eqb (fst ki) k) items) as [[k' item]|] eqn:E.
  - apply find_some in E. destruct E as [Hmem Hk]. cbn [fst] in Hk.
    apply Nat.eqb_eq in Hk. subst k'.
    destruct (Hnone _ Hmem) as [e He]. cbn [snd] in He. subst item.
    cbn [option_map snd app]. constructor.
    + destruct (Hall _ Hmem) as (src & s & Hj & Hk). now exists src, s.
    + apply IH. intros k' Hk'. apply Hin. now right.
  - exfalso. destruct (proj1 (in_map_iff _ _ _) (Hin k (or_introl eq_refl)))
      as ([k' item] & Hk & Hmem).
    cbn [fst] in Hk. subst k'.
    pose proof (find_none _ _ E _ Hmem) as Hf. cbn [fst] in Hf.
    now rewrite Nat.eqb_refl in Hf.
Qed.

Lemma Forall2_In_l (A B : Type) (R : A -> B -> Prop) (l : list A) (l' : list B) :
  Forall2 R l l' -> Forall2 (fun x y => In x l /\ R x y) l l'.
Proof.
  induction 1 as [|x y l l' Hxy H IH]; constructor.
  - split; [now left | exact Hxy].
  - eapply Forall2_impl; [|exact IH]. intros a b [Ha Hab]. split; [now right | exact Hab].
Qed.

Lemma recorded_by_position (l : list (string * Settled)) : forall a es,
  Forall2 (fun k e => exists src s,
               nth_error l (k - a) = Some (src, s) /\ recorded (caught_entry src s) e)
          (seq a (List.length l)) es ->
  Forall2 recorded (map (fun sr => caught_entry (fst sr) (snd sr)) l) es.
Proof.
  induction l as [|[src0 s0] l IH]; intros a es H.
  - inversion H. constructor.
  - cbn [List.length seq] in H. inversion H as [|k e0 ks es' Hhead Htail]; subst.
    cbn [map fst snd]. constructor.
    + destruct Hhead as (src & s & Hn & Hr). rewrite Nat.sub_diag in Hn.
      cbn [nth_error] in Hn. now injection Hn as <- <-.
    + apply (IH (S a)). apply Forall2_In_l in Htail.
      eapply Forall2_impl; [|exact Htail].
      intros k e [Hk (src & s & Hn & Hr)]. apply in_seq in Hk.
      replace (k - a)%nat with (S (k - S a)) in Hn by lia. cbn [nth_error] in Hn.
      now exists src, s.
Qed.

(** One window: it counts its dispatches, and when no promise of the
    batch rejects it pushes what it recorded for each of them. *)
Lemma watched_window_recorded (st : State) (calls : nat) (batch : list string) :
  st_issued (fst (fst (watched_window P C n onProgress operation options st calls batch)))
  = (st_issued st + List.length batch)%nat
  /\ (snd (watched_window P C n onProgress operation options st calls batch) = None ->
      exists es,
        st_results
          (fst (fst (watched_window P C n onProgress operation options st calls batch)))
        = (st_results st ++ es)%list
        /\ Forall2 recorded
                   (entries P operation options caught_entry (st_issued st) batch) es).
Proof.
  unfold watched_window, attend_all, entries.
  pose proof (outcomes_length P operation options batch (st_issued st)) as Hlen.
  unfold outcomes in *.
  destruct (dispatch P (st_issued st) batch operation options) as [ev settled].
  cbn [snd] in *.
  set (ks := seq (st_issued st) (List.length batch)).
  set (jobs := fun k => nth_error (combine batch settled) (k - st_issued st)).
  destruct (@attend_all_items jobs (settle_order C ks)) with
    (w := {| w_completed := st_completed st; w_calls := calls; w_events := [] |})
    (items := @nil (nat * Item)) as (new & Hnew & Hkeys & Hall).
  { intros k Hk. apply settle_order_In, in_seq in Hk. unfold jobs.
    destruct (nth_error (combine batch settled) (k - st_issued st)) as [[src s]|] eqn:E.
    - now exists src, s.
    - apply nth_error_None in E. rewrite length_combine in E. lia. }
  destruct (fold_left _ (settle_order C ks) _) as [w items]. cbn [snd app] in Hnew.
  subst items. cbn [fst snd st_issued st_results]. split; [reflexivity|].
  intros Hnone. rewrite Hnone. eexists. split; [reflexivity|].
  apply recorded_by_position with (a := st_issued st).
  replace (List.length (combine batch settled)) with (List.length batch)
    by (rewrite length_combine; lia).
  apply kept_in_order_recorded; trivial.
  intros k Hk. rewrite Hkeys. now apply settle_order_In.
Qed.

Variable sources : list string.
Variable concurrency : Z.
Hypothesis positive : (1 <= concurrency)%Z.

(** The loop comes to its end, and when no window rejects it has pushed
    what it recorded for each dispatch, in the order of the sources. *)
Lemma watched_loop_recorded : forall fuel d st calls,
  (List.length sources - d < fuel)%nat ->
  exists st' ending,
    watched_loop P C n onProgress operation options sources concurrency fuel
                 (Z.of_nat d) st calls = Some (st', ending)
    /\ (ending = None ->
        exists es,
          st_results st' = (st_results st ++ es)%list
          /\ Forall2 recorded
                     (entries P operation options caught_entry (st_issued st)
                              (skipn d sources)) es).
Proof.
  set (c := Z.to_nat concurrency).
  induction fuel as [|fuel IH]; intros d st calls Hfuel; [lia|].
  cbn [watched_loop].
  destruct (Z.ltb_spec (Z.of_nat d) (Z.of_nat (List.length sources))) as [Hd|Hd].
  - rewrite slice_window by lia. fold c.
    destruct (watched_window_recorded st calls (firstn c (skipn d sources)))
      as [Hissued Hpushed].
    destruct (watched_window P C n onProgress operation options st calls
                             (firstn c (skipn d sources)))
      as [[st1 calls1] [reason|]]; cbn [fst snd] in Hissued, Hpushed.
    + exists st1, (Some reason). split; [reflexivity | discriminate].
    + destruct (Hpushed eq_refl) as (es1 & Hes1 & Hrec1).
      replace (Z.of_nat d + concurrency)%Z with (Z.of_nat (c + d)) by (unfold c; lia).
      set (st2 := if (Z.of_nat (c + d) <? Z.of_nat (List.length sources))%Z
                  then delay st1 else st1).
      assert (Hst2 : st_results st2 = st_results st1 /\ st_issued st2 = st_issued st1).
      { unfold st2. destruct (Z.of_nat (c + d) <? Z.of_nat (List.length sources))%Z;
          split; reflexivity. }
      destruct Hst2 as [Hr2 Hi2].
      destruct (IH (c + d)%nat st2 calls1) as (st' & ending & Hrun & Hend);
        [unfold c; lia|].
      exists st', ending. split; [exact Hrun|].
      intros Hnone. destruct (Hend Hnone) as (es2 & Hes2 & Hrec2).
      exists (es1 ++ es2)%list. split.
      * now rewrite Hes2, Hr2, Hes1, app_assoc.
      * rewrite <- (firstn_skipn c (skipn d sources)) at 1.
        rewrite entries_app. apply Forall2_app; [exact Hrec1|].
        rewrite skipn_skipn. now rewrite Hi2, Hissued in Hrec2.
  - exists st, None. split; [reflexivity|]. intros _. exists [].
    rewrite app_nil_r. split; [reflexivity|].
    rewrite (skipn_all2 sources (n:=d)) by lia. constructor.
Qed.

End Calling.

(** A run with a callback comes to its end: it returns a result, whose
    entries are what the run recorded for the dispatches in the order of
    the sources, or it is rejected. *)
Lemma processWithProgress_calling_ends
      (P : Providers) (C : Clock) (fuel : nat) (sources : list string)
      (operation : string) (options : Options) (concurrency : Z)
      (onProgress : option Callback) :
  (1 <= concurrency)%Z ->
  (List.length sources < fuel)%nat ->
  exists st ending,
    processWithProgress_calling P C fuel sources operation options concurrency
                                onProgress = Some (st, ending)
    /\ forall r,
        ending = inl r ->
        r = aggregate (st_results st) (wallClock C)
        /\ Forall2 recorded (entries P operation options caught_entry 0 sources)
                   (results r).
Proof.
  intros Hc Hfuel. unfold processWithProgress_calling.
  destruct (@watched_loop_recorded P C operation options
              (Z.of_nat (List.length sources)) onProgress sources concurrency Hc
              fuel 0%nat initial 0%nat) as (st & ending & Hrun & Hend); [lia|].
  cbn [Z.of_nat] in Hrun. rewrite Hrun. destruct ending as [reason|].
  - exists st, (inr reason). split; [reflexivity | discriminate].
  - exists st, (inl (aggregate (st_results st) (wallClock C))).
    split; [reflexivity|]. intros r Hr. injection Hr as <-. split; [reflexivity|].
    destruct (Hend eq_refl) as (es & Hes & Hrec). cbn [aggregate results].
    now rewrite Hes.
Qed.

(** * The average of what a run recorded *)

Lemma sum_nonneg (times : list Z) :
  Forall (fun ms => (0 <= ms)%Z) times -> (0 <= fold_right Z.add 0 times)%Z.
Proof. induction 1; cbn [fold_right]; lia. Qed.

Lemma rounded_mean_some (times : list Z) :
  times <> [] ->
  rounded_mean times
  = round_div (fold_right Z.add 0%Z times) (Z.of_nat (List.length times)).
Proof. destruct times; [congruence | reflexivity]. Qed.

(** Far from the limits of a double the average is the rounded mean of
    the times of the successful entries. *)
Lemma aggregate_rounded_mean (rs : list Entry) (t : Z) :
  Forall (fun ms => (0 <= ms)%Z) (map processingTime (filter success rs)) ->
  (fold_right Z.add 0 (map processingTime (filter success rs))
   + Z.of_nat (List.length (filter success rs)) < 2 ^ 51)%Z ->
  averageTime (summary (aggregate rs t))
  = JS.of_Z (rounded_mean (map processingTime (filter success rs))).
Proof.
  intros Hpos Hsmall. apply sum_nonneg in Hpos.
  destruct (list_eq_dec Z.eq_dec (map processingTime (filter success rs)) [])
    as [Hnil|Hsome].
  - rewrite Hnil. apply map_eq_nil in Hnil.
    cbn [rounded_mean aggregate summary averageTime]. now rewrite Hnil.
  - rewrite rounded_mean_some, length_map, <- total_time_sum by exact Hsome.
    apply aggregate_averageTime; rewrite ?total_time_sum; trivial.
    intros E. now rewrite E in Hsome.
Qed.

(** What is recorded as a success is a success of the dispatches, with
    its time. *)
Lemma recorded_times (xs es : list Entry) :
  Forall2 recorded xs es ->
  Forall (fun ms => (0 <= ms)%Z) (map processingTime (filter success xs)) ->
  Forall (fun ms => (0 <= ms)%Z) (map processingTime (filter success es))
  /\ (fold_right Z.add 0 (map processingTime (filter success es))
      <= fold_right Z.add 0 (map processingTime (filter success xs)))%Z
  /\ (List.length (filter success es) <= List.length (filter success xs))%nat.
Proof.
  induction 1 as [|x e xs es Hxe H IH]; intros Hpos.
  - repeat split; [constructor | reflexivity | reflexivity].
  - destruct Hxe as [->|(Hx & msg & ->)].
    + cbn [filter] in *. destruct (success x).
      * cbn [map] in Hpos. inversion Hpos as [|? ? H0 Hrest]; subst.
        destruct (IH Hrest) as (IH1 & IH2 & IH3).
        cbn [map fold_right List.length]. repeat split; [now constructor | lia | lia].
      * now apply IH.
    + cbn [filter failure success]. cbn [filter] in Hpos. rewrite Hx in Hpos |- *.
      cbn [map] in Hpos. inversion Hpos as [|? ? H0 Hrest]; subst.
      destruct (IH Hrest) as (IH1 & IH2 & IH3).
      cbn [map fold_right List.length]. repeat split; [exact IH1 | lia | lia].
Qed.

Lemma recorded_failures (xs es : list Entry) :
  Forall2 recorded xs es ->
  Forall (fun e => success e = false -> processingTime e = 0%Z) xs ->
  Forall (fun e => success e = false -> processingTime e = 0%Z) es.
Proof.
  induction 1 as [|x e xs es Hxe H IH]; intros Hz; [constructor|].
  inversion Hz as [|? ? Hx Hrest]; subst. constructor; [|now apply IH].
  destruct Hxe as [->|(_ & msg & ->)]; [exact Hx | reflexivity].
Qed.

(** C9. The average time a run returns is the mean of the times of its
    successful outcomes only, rounded half up as [Math.round] does, and
    0 when there is none; failed entries carry [processingTime] 0 and
    are left out of it. For [process], and for [processWithProgress]
    without a callback or with one that returns, the successful outcomes
    are the fulfilled dispatches of the run and the times their measured
    durations. A callback of [processWithProgress] may throw: then the
    run is rejected, or it returns a result in which a fulfilled dispatch
    may be recorded as a failure, and the average is over the entries
    recorded as successes. Durations are not negative and their sum
    stays far below the largest integer a double counts exactly. *)
Theorem averageTime_over_successes
        (P : Providers) (C C' : Clock) (sources : list string) (operation : string)
        (options : Options) (concurrency : Z) (onProgress : option Callback)
        (fuel : nat) :
  (1 <= concurrency)%Z ->
  (List.length sources < fuel)%nat ->
  Forall (fun ms => (0 <= ms)%Z) (durations (outcomes P operation options 0 sources)) ->
  (fold_right Z.add 0 (durations (outcomes P operation options 0 sources))
   + Z.of_nat (List.length sources) < 2 ^ 51)%Z ->
  (exists r,
      process P C fuel sources operation options concurrency = Some r
      /\ results r = entries P operation options settled_entry 0 sources
      /\ successful r
         = Z.of_nat (List.length (durations (outcomes P operation options 0 sources)))
      /\ averageTime (summary r)
         = JS.of_Z (rounded_mean (durations (outcomes P operation options 0 sources)))
      /\ average_over_successes r)
  /\ exists st ending,
      processWithProgress_calling P C' fuel sources operation options concurrency
                                  onProgress = Some (st, ending)
      /\ (returns onProgress ->
          exists r',
            ending = inl r'
            /\ results r' = entries P operation options caught_entry 0 sources
            /\ successful r'
               = Z.of_nat
                   (List.length (durations (outcomes P operation options 0 sources)))
            /\ averageTime (summary r')
               = JS.of_Z
                   (rounded_mean (durations (outcomes P operation options 0 sources))))
      /\ forall r',
          ending = inl r' ->
          Forall2 recorded (entries P operation options caught_entry 0 sources)
                  (results r')
          /\ successful r' = Z.of_nat (List.length (filter success (results r')))
          /\ averageTime (summary r')
             = JS.of_Z (rounded_mean (map processingTime (filter success (results r'))))
          /\ average_over_successes r'.
Proof.
  intros Hc Hf Hpos Hsmall. split.
  - destruct (@aggregate_mean P operation options reason_message sources (wallClock C)
                Hpos Hsmall) as [Hs Ha].
    eexists. split; [apply process_eq; trivial|].
    split; [reflexivity|]. split; [exact Hs|]. split; [exact Ha|].
    apply aggregate_average, entries_failures_take_no_time.
  - destruct (@processWithProgress_calling_ends P C' fuel sources operation options
                concurrency onProgress Hc Hf) as (st & ending & Hrun & Hend).
    exists st, ending. split; [exact Hrun|]. split.
    + intros Hq.
      rewrite (processWithProgress_calling_returns P C' fuel sources operation options
                 concurrency onProgress Hq) in Hrun.
      unfold processWithProgress_run in Hrun.
      pose proof (@processWithProgress_eq P C' operation options sources concurrency
                    Hc fuel (given onProgress) Hf) as Heq.
      unfold processWithProgress, processWithProgress_run in Heq.
      destruct (window_loop _ sources concurrency fuel 0 initial) as [st0|];
        [|discriminate].
      cbn [option_map] in Hrun, Heq. injection Hrun as <- <-.
      assert (Hagg : aggregate (st_results st0) (wallClock C')
                     = aggregate (entries P operation options caught_entry 0 sources)
                                 (wallClock C')) by congruence.
      destruct (@aggregate_mean P operation options caught_message sources
                  (wallClock C') Hpos Hsmall) as [Hs Ha].
      exists (aggregate (entries P operation options caught_entry 0 sources)
                        (wallClock C')).
      split; [now rewrite Hagg|]. split; [reflexivity|]. split; [exact Hs | exact Ha].
    + intros r' Hr'. destruct (Hend r' Hr') as [-> Hrec]. cbn [aggregate results] in Hrec.
      split; [exact Hrec|]. split; [reflexivity|].
      pose proof (successful_entries_durations P operation options caught_message
                    sources 0) as Hd.
      fold caught_entry in Hd.
      destruct (@recorded_times _ _ Hrec) as (Hp & Hsum & Hlen);
        [now rewrite Hd|].
      rewrite Hd in Hsum.
      assert (Hle : (List.length (filter success
                                        (entries P operation options caught_entry 0
                                                 sources))
                     <= List.length sources)%nat).
      { pose proof (entries_length P operation options caught_entry sources 0) as Hn.
        pose proof (filter_length_le
                      success (entries P operation options caught_entry 0 sources)).
        lia. }
      split.
      * cbn [aggregate results]. apply aggregate_rounded_mean; [exact Hp | lia].
      * apply aggregate_average.
        apply (recorded_failures Hrec). apply entries_failures_take_no_time.
Qed.

Lemma averageTime_over_successes_witness :
  (exists r,
      process Demo.providers Demo.clock 4 Demo.sources "analyze" Demo.options 2 = Some r
      /\ durations (outcomes Demo.providers "analyze" Demo.options 0 Demo.sources)
         = [4; 24]%Z
      /\ successful r = 2%Z
      /\ averageTime (summary r) = JS.of_Z 14)
  /\ (exists st r',
         processWithProgress_calling Demo.providers Demo.clock 4 Demo.sources "analyze"
                                     Demo.options 2 (Some returning) = Some (st, inl r')
         /\ successful r' = 2%Z
         /\ averageTime (summary r') = JS.of_Z 14)
  /\ exists st r',
      processWithProgress_calling Demo.providers Demo.clock 4 Demo.sources "analyze"
                                  Demo.options 2 (Some (throws_at 1)) = Some (st, inl r')
      /\ map success (results r') = [false; false; true]
      /\ successful r' = 1%Z
      /\ averageTime (summary r') = JS.of_Z 24.
Proof.
  assert (Hpos : Forall (fun ms => (0 <= ms)%Z)
                        (durations (outcomes Demo.providers "analyze" Demo.options 0
                                             Demo.sources))).
  { repeat constructor; vm_compute; discriminate. }
  destruct (@averageTime_over_successes Demo.providers Demo.clock Demo.clock
              Demo.sources "analyze" Demo.options 2 (Some returning) 4)
    as ((r & H & _ & Hs & Ha & _) & st & ending & Hrun & Hq & _);
    [lia | cbn; lia | exact Hpos | vm_compute; reflexivity |].
  destruct (@averageTime_over_successes Demo.providers Demo.clock Demo.clock
              Demo.sources "analyze" Demo.options 2 (Some (throws_at 1)) 4)
    as (_ & st' & ending' & Hrun' & _ & Hany);
    [lia | cbn; lia | exact Hpos | vm_compute; reflexivity |].
  split; [|split].
  - exists r. split; [exact H|]. split; [reflexivity|]. split; [exact Hs | exact Ha].
  - destruct (Hq (fun _ _ => eq_refl)) as (r' & -> & _ & Hs' & Ha').
    exists st, r'. split; [exact Hrun|]. split; [exact Hs' | exact Ha'].
  - pose proof Hrun' as Hc. vm_compute in Hc.
    injection Hc as _ He.
    destruct ending' as [r'|reason]; [|discriminate].
    destruct (Hany r' eq_refl) as (_ & Hs' & Ha' & _).
    exists st', r'. split; [exact Hrun'|].
    injection He as <-. split; [reflexivity|]. split; [exact Hs' | exact Ha'].
Defined.

(** * The success rate of what a run recorded *)

(** X2. On at least one source the success rate both entry points return
    is a whole number between 0 and 100; it is 100 when no item failed
    and 0 when none succeeded. This holds of [process], of
    [processWithProgress] without a callback or with one that returns,
    and of every result [processWithProgress] returns when its callback
    throws. *)
Theorem successRate_is_a_percentage
        (P : Providers) (C C' : Clock) (sources : list string) (operation : string)
        (options : Options) (concurrency : Z) (onProgress : bool)
        (callback : option Callback) (fuel : nat) :
  sources <> [] ->
  (1 <= concurrency)%Z ->
  (List.length sources < fuel)%nat ->
  (exists r r' p p',
      process P C fuel sources operation options concurrency = Some r
      /\ processWithProgress P C' fuel sources operation options concurrency onProgress
         = Some r'
      /\ whole_percentage r p /\ whole_percentage r' p')
  /\ exists st ending,
      processWithProgress_calling P C' fuel sources operation options concurrency
                                  callback = Some (st, ending)
      /\ (returns callback -> exists r', ending = inl r')
      /\ forall r', ending = inl r' -> exists p', whole_percentage r' p'.
Proof.
  intros Hne Hc Hf.
  assert (Hent : forall f, entries P operation options f 0 sources <> []).
  { intros f E. apply (f_equal (@List.length Entry)) in E.
    rewrite entries_length in E. destruct sources; [congruence | discriminate]. }
  split.
  - destruct (aggregate_whole_percentage (wallClock C) (Hent settled_entry)) as [p Hp].
    destruct (aggregate_whole_percentage (wallClock C') (Hent caught_entry)) as [p' Hp'].
    eexists. eexists. exists p, p'.
    split; [apply process_eq; trivial|].
    split; [apply processWithProgress_eq; trivial|].
    split; assumption.
  - destruct (@processWithProgress_calling_ends P C' fuel sources operation options
                concurrency callback Hc Hf) as (st & ending & Hrun & Hend).
    exists st, ending. split; [exact Hrun|]. split.
    + intros Hq.
      rewrite (processWithProgress_calling_returns P C' fuel sources operation options
                 concurrency callback Hq) in Hrun.
      destruct (processWithProgress_run P C' fuel sources operation options concurrency
                                        (given callback)) as [st0|]; [|discriminate].
      cbn [option_map] in Hrun. injection Hrun as _ <-. eexists. reflexivity.
    + intros r' Hr'. destruct (Hend r' Hr') as [-> Hrec].
      apply aggregate_whole_percentage. intros E.
      cbn [aggregate results] in Hrec. rewrite E in Hrec.
      apply Forall2_length in Hrec. rewrite entries_length in Hrec.
      destruct sources; [congruence | discriminate].
Qed.

Lemma successRate_is_a_percentage_witness :
  Demo.sources <> [] /\ (1 <= 2)%Z /\ (List.length Demo.sources < 4)%nat
  /\ (exists r p,
         process Demo.providers Demo.clock 4 Demo.sources "analyze" Demo.options 2
         = Some r
         /\ whole_percentage r p)
  /\ exists st r',
      processWithProgress_calling Demo.providers Demo.clock 4 Demo.sources "analyze"
                                  Demo.options 2 (Some (throws_at 1)) = Some (st, inl r')
      /\ successRate (summary r') = JS.of_Z 33.
Proof.
  split; [discriminate|]. split; [lia|]. split; [cbn; lia|].
  destruct (@successRate_is_a_percentage Demo.providers Demo.clock Demo.clock
              Demo.sources "analyze" Demo.options 2 true (Some (throws_at 1)) 4)
    as ((r & r' & p & p' & H1 & _ & Hp & _) & st & ending & Hrun & _ & Hany).
  - discriminate.
  - lia.
  - cbn. lia.
  - split; [exists r, p; split; assumption|].
    pose proof Hrun as Hc. vm_compute in Hc. injection Hc as _ He.
    destruct ending as [r''|reason]; [|discriminate].
    destruct (Hany r'' eq_refl) as (p'' & Hrate & _).
    exists st, r''. split; [exact Hrun|]. injection He as <-. reflexivity.
Defined.
